(** * docs-metadata-crawler: URL registry, crawl coordinator, analyser
      dispatch, result emitter and download size limit.

    A shallow embedding of the Go sources [urlstorage.go], [engine.go],
    [crawler.go] and [researchers/researcher.go], [researchers/pdf.go],
    [researchers/msox.go].  Go maps are [gmap]s, Go slices are lists, the
    mutex-protected operations of the registry are atomic state
    transformers, and goroutines are interleaved by an explicit schedule. *)

From Stdlib Require Import ZArith Ascii DecimalString.
From Stdlib Require String.
From stdpp Require Import gmap strings list fin_maps.

#[local] Set Warnings "-clear-no-such-hyp".

Local Open Scope Z_scope.
Local Open Scope nat_scope.

(** ** Go strings *)

Module GoStrings.

(** [s[n:]] for [n <= len(s)]. *)
Fixpoint drop_prefix (n : nat) (s : string) : string :=
  match n, s with
  | 0, _ => s
  | S n', String _ s' => drop_prefix n' s'
  | S _, EmptyString => EmptyString
  end.

(** [strings.HasSuffix]:
    [len(s) >= len(suffix) && s[len(s)-len(suffix):] == suffix]. *)
Definition HasSuffix (s suffix : string) : bool :=
  (String.length suffix <=? String.length s)
  && String.eqb (drop_prefix (String.length s - String.length suffix) s) suffix.

(** [strings.IndexByte(s, c) >= 0]. *)
Fixpoint ContainsByte (c : ascii) (s : string) : bool :=
  match s with
  | EmptyString => false
  | String d s' => Ascii.eqb c d || ContainsByte c s'
  end.

(** [strings.Join]. *)
Fixpoint Join (elems : list string) (sep : string) : string :=
  match elems with
  | [] => ""
  | [e] => e
  | e :: rest => e +:+ sep +:+ Join rest sep
  end.

Definition nonempty (s : string) : bool :=
  match s with EmptyString => false | _ => true end.

(** The last byte of a string, if any. *)
Fixpoint last_byte (s : string) : option ascii :=
  match s with
  | EmptyString => None
  | String c EmptyString => Some c
  | String _ s' => last_byte s'
  end.

End GoStrings.
Import GoStrings.

(** ** net/url: the part of [url.URL] the crawler looks at

    The crawler reads [Scheme], calls [Hostname()] and [String()].  The
    record keeps the components of a hierarchical URL without userinfo and
    without an opaque part, whose components need no percent-escaping;
    [URL_String] and [Hostname] follow the library functions on such
    values. *)

Record URL := mkURL {
  Scheme : string;
  Host : string;
  Path : string;
  RawQuery : string;
  Fragment : string
}.

Global Instance URL_eq_dec : EqDecision URL.
Proof. solve_decision. Defined.

Module NetURL.

(** First path segment (up to the first slash) contains a colon. *)
Fixpoint first_segment_has_colon (p : string) : bool :=
  match p with
  | EmptyString => false
  | String c p' =>
      if Ascii.eqb c "/" then false
      else if Ascii.eqb c ":" then true
      else first_segment_has_colon p'
  end.

Definition starts_with_slash (p : string) : bool :=
  match p with
  | String c _ => Ascii.eqb c "/"
  | EmptyString => false
  end.

(** The [String] method of [URL]: scheme, [//] authority, path, [?] query, [#] fragment. *)
Definition authority_part (u : URL) : string :=
  if nonempty (Scheme u) || nonempty (Host u)
  then (if nonempty (Host u) || nonempty (Path u) then "//" else "") +:+ Host u
  else "".

Definition scheme_part (u : URL) : string :=
  if nonempty (Scheme u) then Scheme u +:+ ":" else "".

Definition path_part (u : URL) : string :=
  let head := scheme_part u +:+ authority_part u in
  (if nonempty (Path u) && negb (starts_with_slash (Path u)) && nonempty (Host u)
   then "/" else "")
  +:+ (if negb (nonempty head) && first_segment_has_colon (Path u) then "./" else "")
  +:+ Path u.

Definition query_part (u : URL) : string :=
  if nonempty (RawQuery u) then "?" +:+ RawQuery u else "".

Definition fragment_part (u : URL) : string :=
  if nonempty (Fragment u) then "#" +:+ Fragment u else "".

Definition URL_String (u : URL) : string :=
  scheme_part u +:+ authority_part u +:+ path_part u
    +:+ query_part u +:+ fragment_part u.

(** [validOptionalPort], on the characters after the last colon. *)
Definition is_digit (c : ascii) : bool :=
  match Ascii.is_nat c with Some _ => true | None => false end.

Fixpoint all_digits (s : string) : bool :=
  match s with
  | EmptyString => true
  | String c s' => is_digit c && all_digits s'
  end.

(** [splitHostPort]: [last_colon s] splits [s] at its last colon (the
    result of [strings.LastIndexByte]); the text after it is cut off when
    it is a valid optional port. *)
Fixpoint last_colon (s : string) : option (string * string) :=
  match s with
  | EmptyString => None
  | String c s' =>
      match last_colon s' with
      | Some (h, p) => Some (String c h, p)
      | None => if Ascii.eqb c ":" then Some (EmptyString, s') else None
      end
  end.

Definition strip_brackets (h : string) : string :=
  match h with
  | String "[" rest =>
      match String.rev rest with
      | String "]" inner => String.rev inner
      | _ => h
      end
  | _ => h
  end.

Definition Hostname (u : URL) : string :=
  let host :=
    match last_colon (Host u) with
    | Some (h, p) => if all_digits p then h else Host u
    | None => Host u
    end in
  strip_brackets host.

End NetURL.
Import NetURL.

(** [isValidScheme] (engine.go). *)
Definition isValidScheme (u : URL) : bool :=
  String.eqb (Scheme u) "http" || String.eqb (Scheme u) "https".

(** ** urlstorage.go *)

(** [tUrlStorage]; the mutex is not represented: every method below runs
    under [us.mu] and is one atomic transition. *)
Record tUrlStorage := mkUrlStorage {
  urlStatus : gmap string bool;
  urlObjects : gmap string URL;
  queue : list string
}.

Definition newUrlStorage : tUrlStorage :=
  {| urlStatus := ∅; urlObjects := ∅; queue := [] |}.

(** [add]; a nil pointer is [None]. *)
Definition add (u : option URL) (us : tUrlStorage) : tUrlStorage * bool :=
  match u with
  | None => (us, false)
  | Some u =>
      let key := URL_String u in
      match urlStatus us !! key with
      | Some _ => (us, false)
      | None =>
          ({| urlStatus := <[key := false]> (urlStatus us);
              urlObjects := <[key := u]> (urlObjects us);
              queue := queue us ++ [key] |}, true)
      end
  end.

(** Go's [m[key]] on a [map[string]bool]: the zero value when absent. *)
Definition status_of (st : gmap string bool) (key : string) : bool :=
  default false (st !! key).

(** The [for i := 0; i < len(us.queue); i++] scan of [use]: the first index
    at or after [i] whose key is not marked used. *)
Fixpoint use_scan (st : gmap string bool) (q : list string) (i : nat) : option (nat * string) :=
  match q with
  | [] => None
  | key :: rest =>
      if negb (status_of st key) then Some (i, key)
      else use_scan st rest (S i)
  end.

(** [queue[i] = queue[len-1]; queue = queue[:len-1]]. *)
Definition swap_remove (i : nat) (q : list string) : list string :=
  match last q with
  | Some l => take (length q - 1) (<[i := l]> q)
  | None => q
  end.

(** [use]: the returned pointer is [us.urlObjects[key]] (nil when absent). *)
Definition use (us : tUrlStorage) : option URL * bool * tUrlStorage :=
  match use_scan (urlStatus us) (queue us) 0 with
  | Some (i, key) =>
      (urlObjects us !! key, true,
       {| urlStatus := <[key := true]> (urlStatus us);
          urlObjects := urlObjects us;
          queue := swap_remove i (queue us) |})
  | None => (None, false, us)
  end.

(** [getAllUrls]: Go ranges over the map in an unspecified order; the
    canonical enumeration is one such order and [range_of] accepts all. *)
Definition getAllUrls (us : tUrlStorage) : list URL :=
  (map_to_list (urlObjects us)).*2.

Definition range_of (us : tUrlStorage) (l : list URL) : Prop :=
  l ≡ₚ getAllUrls us.

(** [check]. *)
Definition check (u : option URL) (us : tUrlStorage) : bool * bool :=
  match u with
  | None => (false, false)
  | Some u =>
      match urlStatus us !! URL_String u with
      | Some used => (true, used)
      | None => (false, false)
      end
  end.

(** [count]. *)
Definition count (us : tUrlStorage) : nat * nat :=
  (size (urlStatus us), size (filter (λ kv, kv.2 = true) (urlStatus us))).

(** Sequences of registry calls, as issued by any number of callers: the
    lock serialises them into one order. *)
Inductive op :=
  | OpAdd (u : option URL)
  | OpUse.

Inductive ret :=
  | RetAdd (inserted : bool)
  | RetUse (u : option URL) (found : bool).

Definition exec_op (o : op) (us : tUrlStorage) : ret * tUrlStorage :=
  match o with
  | OpAdd u => let '(us', b) := add u us in (RetAdd b, us')
  | OpUse => let '(u, found, us') := use us in (RetUse u found, us')
  end.

Fixpoint exec (ops : list op) (us : tUrlStorage) : list ret * tUrlStorage :=
  match ops with
  | [] => ([], us)
  | o :: rest =>
      let '(r, us') := exec_op o us in
      let '(rs, us'') := exec rest us' in
      (r :: rs, us'')
  end.

(** Canonical strings handed out by the [use] calls of a run. *)
Fixpoint acquired (rs : list ret) : list string :=
  match rs with
  | [] => []
  | RetUse (Some u) true :: rest => URL_String u :: acquired rest
  | _ :: rest => acquired rest
  end.

(** Canonical strings submitted to [add] in a run. *)
Fixpoint submitted (ops : list op) : list string :=
  match ops with
  | [] => []
  | OpAdd (Some u) :: rest => URL_String u :: submitted rest
  | _ :: rest => submitted rest
  end.

(** Entries whose status is [unused]. *)
Definition unused (us : tUrlStorage) (key : string) : Prop :=
  urlStatus us !! key = Some false.

(** Shape of every registry built by [add] and [use]: both maps have the
    same keys, every stored URL sits under its own canonical string, and
    the queue lists exactly the unused keys, each once. *)
Record wf (us : tUrlStorage) : Prop := {
  wf_dom : ∀ k, is_Some (urlStatus us !! k) ↔ is_Some (urlObjects us !! k);
  wf_key : ∀ k u, urlObjects us !! k = Some u → URL_String u = k;
  wf_nodup : NoDup (queue us);
  wf_queue : ∀ k, k ∈ queue us ↔ unused us k
}.
(** ** The outside world

    Library calls whose result depends on the network or on bytes the
    crawler never inspects are fields of an environment: the HTTP client,
    [net/url] parsing and reference resolution, the HTML tokenizer, pdfcpu,
    [archive/zip], [encoding/xml], [encoding/json] and [os.Create]. *)

(** A response body: its length in bytes, an opaque payload that stands
    for the bytes (only parsers look at it), and whether the transport
    fails with a non-EOF error once the bytes are consumed. *)
Record Body := mkBody {
  body_size : Z;
  body_payload : string;
  body_broken : bool
}.

Record Response := mkResponse {
  StatusCode : Z;
  RespBody : Body
}.

(** Tokens of [html.Tokenizer] that [harv] distinguishes. *)
Inductive Token :=
  | StartTagToken (data : string) (attr : list (string * string))
  | OtherToken.

Record PDFInfo := mkPDFInfo {
  info_Title : string;
  info_Author : string;
  info_Subject : string;
  info_Creator : string;
  info_Producer : string;
  info_CreationDate : string;
  info_ModificationDate : string
}.

Record tCoreProperty := mkCore {
  core_Title : string;
  core_Creator : string;
  core_LastModifiedBy : string;
  core_Revision : string;
  core_Created : string;
  core_Modified : string;
  core_Language : string
}.

Record tAppProperty := mkApp {
  app_Application : string;
  app_DocSecurity : string;
  app_Pages : string;
  app_Words : string;
  app_Characters : string;
  app_Company : string;
  app_Lines : string;
  app_Paragraphs : string;
  app_TotalTime : string;
  app_SharedDoc : string;
  app_AppVersion : string
}.

Record tPdf := mkPdf {
  pdf_docType : string;
  pdf_Url : string;
  pdf_FileName : string;
  pdf_Version : string;
  pdf_Title : string;
  pdf_Author : string;
  pdf_Subject : string;
  pdf_Producer : string;
  pdf_Creator : string;
  pdf_CreationDate : string;
  pdf_ModDate : string
}.

Record tMsox := mkMsox {
  msox_docType : string;
  msox_Url : string;
  msox_CoreProperty : tCoreProperty;
  msox_AppProperty : tAppProperty
}.

(** Values of the [Researcher] interface: the two implementations the
    package registers. *)
Inductive Researcher :=
  | RPdf (p : tPdf)
  | RMsox (m : tMsox).

Record Env := mkEnv {
  client_Get : string → option Response;
  url_Parse : string → option URL;
  url_ParseRequestURI : string → option URL;
  url_ResolveReference : URL → URL → URL;
  html_Tokens : string → list Token;
  api_PDFInfo : string → option PDFInfo;
  zip_OpenReader : string → option (list (string * string));
  xml_Decode_core : string → tCoreProperty → option tCoreProperty;
  xml_Decode_app : string → tAppProperty → option tAppProperty;
  json_Marshal : Researcher → string;
  os_Create : string → bool
}.

(** ** crawler.go *)

(** [resolveUrl]. *)
Definition resolveUrl (env : Env) (baseStr href : string) : option URL :=
  match url_Parse env href with
  | None => None
  | Some u =>
      match url_Parse env baseStr with
      | None => None
      | Some base => Some (url_ResolveReference env base u)
      end
  end.

(** The [href] loop over the attributes of one [<a>] start tag: the URLs
    passed to [urlStorage.add], in order. *)
Fixpoint harv_attrs (env : Env) (baseStr : string) (attr : list (string * string)) : list URL :=
  match attr with
  | [] => []
  | (key, val) :: rest =>
      if String.eqb key "href" then
        match resolveUrl env baseStr val with
        | Some u => u :: harv_attrs env baseStr rest
        | None => harv_attrs env baseStr rest
        end
      else harv_attrs env baseStr rest
  end.

(** The tokenizer loop of [harv], up to the error token that ends the
    stream. *)
Fixpoint harv_tokens (env : Env) (baseStr : string) (toks : list Token) : list URL :=
  match toks with
  | [] => []
  | StartTagToken data attr :: rest =>
      (if String.eqb data "a" then harv_attrs env baseStr attr else [])
      ++ harv_tokens env baseStr rest
  | OtherToken :: rest => harv_tokens env baseStr rest
  end.

(** [harv], as the sequence of [add] calls it makes on the storage: none
    when the GET fails or the status is not 200. *)
Definition harv_adds (env : Env) (baseStr : string) : list URL :=
  match client_Get env baseStr with
  | None => []
  | Some resp =>
      if (StatusCode resp =? 200)%Z
      then harv_tokens env baseStr (html_Tokens env (body_payload (RespBody resp)))
      else []
  end.

(** A synchronous [harv]: all its [add] calls in a row. *)
Definition harv (env : Env) (baseUrl : URL) (us : tUrlStorage) : tUrlStorage :=
  foldl (λ st u, (add (Some u) st).1) us (harv_adds env (URL_String baseUrl)).

(** ** engine.go *)

Record tOpts := mkOpts {
  opt_Site : string;
  opt_Type : list string;
  opt_Output : string;
  opt_Paramax : Z
}.

Record tEngine := mkEngine {
  url : URL;
  urlStorage : tUrlStorage;
  docStorage : gmap string Researcher;
  docTypes : list string;
  outputFileName : string;
  paramax : Z
}.

(** The filter of the [case ok] branch of [crawl]. *)
Definition crawlable (start u : URL) : bool :=
  isValidScheme u && String.eqb (Hostname start) (Hostname u).

(** *** The crawl loop

    The coordinator is the goroutine running [crawl]; each [go func] is a
    worker.  A worker is the list of [add] calls its [harv] has still to
    make; it holds one slot of [guard] until it is removed.  The
    coordinator's program counter separates the [use] call from the later
    reads of [len(guard)] and from the send on [guard], which other
    goroutines can interleave with. *)
Inductive pc :=
  | AtUse
  | AtCheck
  | AtSend (u : URL)
  | Returned.

Global Instance pc_eq_dec : EqDecision pc.
Proof. solve_decision. Defined.

Record crawl_state := mkCrawl {
  cs_storage : tUrlStorage;
  cs_pc : pc;
  cs_workers : list (list URL);
  cs_acquired : list URL;
  cs_spawned : list URL
}.

Inductive actor :=
  | Coordinator
  | Worker (i : nat).

(** State on entry to the [for] loop: [guard] is made (a negative capacity
    panics) and the start URL is harvested synchronously. *)
Definition crawl_init (env : Env) (e : tEngine) : option crawl_state :=
  if (paramax e <? 0)%Z then None
  else Some {| cs_storage := harv env (url e) (urlStorage e);
               cs_pc := AtUse;
               cs_workers := [];
               cs_acquired := [];
               cs_spawned := [] |}.

(** One step of the coordinator; [None] when it is blocked on a full
    [guard] or has returned. *)
Definition coordinator_step (env : Env) (e : tEngine) (s : crawl_state) : option crawl_state :=
  match cs_pc s with
  | AtUse =>
      match use (cs_storage s) with
      | (Some u, true, us') =>
          Some {| cs_storage := us';
                  cs_pc := if crawlable (url e) u then AtSend u else AtUse;
                  cs_workers := cs_workers s;
                  cs_acquired := cs_acquired s ++ [u];
                  cs_spawned := cs_spawned s |}
      | (None, true, _) => None
      | (_, false, us') =>
          Some {| cs_storage := us';
                  cs_pc := AtCheck;
                  cs_workers := cs_workers s;
                  cs_acquired := cs_acquired s;
                  cs_spawned := cs_spawned s |}
      end
  | AtCheck =>
      Some {| cs_storage := cs_storage s;
              cs_pc := match cs_workers s with [] => Returned | _ => AtUse end;
              cs_workers := cs_workers s;
              cs_acquired := cs_acquired s;
              cs_spawned := cs_spawned s |}
  | AtSend u =>
      if (Z.of_nat (length (cs_workers s)) <? paramax e)%Z then
        Some {| cs_storage := cs_storage s;
                cs_pc := AtUse;
                cs_workers := cs_workers s ++ [harv_adds env (URL_String u)];
                cs_acquired := cs_acquired s;
                cs_spawned := cs_spawned s ++ [u] |}
      else None
  | Returned => None
  end.

(** One step of worker [i]: its next [add], or the receive from [guard]
    that ends it. *)
Definition worker_step (i : nat) (s : crawl_state) : option crawl_state :=
  match cs_workers s !! i with
  | Some (u :: rest) =>
      Some {| cs_storage := (add (Some u) (cs_storage s)).1;
              cs_pc := cs_pc s;
              cs_workers := <[i := rest]> (cs_workers s);
              cs_acquired := cs_acquired s;
              cs_spawned := cs_spawned s |}
  | Some [] =>
      Some {| cs_storage := cs_storage s;
              cs_pc := cs_pc s;
              cs_workers := delete i (cs_workers s);
              cs_acquired := cs_acquired s;
              cs_spawned := cs_spawned s |}
  | None => None
  end.

Definition crawl_step (env : Env) (e : tEngine) (a : actor) (s : crawl_state) : option crawl_state :=
  match a with
  | Coordinator => coordinator_step env e s
  | Worker i => worker_step i s
  end.

(** A schedule is the order in which goroutines get to move; an actor
    that cannot move is passed over. *)
Fixpoint crawl_run (env : Env) (e : tEngine) (sched : list actor) (s : crawl_state) : crawl_state :=
  match sched with
  | [] => s
  | a :: rest => crawl_run env e rest (default s (crawl_step env e a s))
  end.

(** The polling steps of the coordinator: a [use] that finds nothing, and
    the check that finds a worker still in flight (then sleeps). *)
Definition is_poll (env : Env) (e : tEngine) (a : actor) (s : crawl_state) : bool :=
  match a, cs_pc s with
  | Coordinator, AtUse => negb (use (cs_storage s)).1.2
  | Coordinator, AtCheck => negb (bool_decide (cs_workers s = []))
  | _, _ => false
  end.

(** Number of steps of a schedule that move an actor and are not polls. *)
Fixpoint work_steps (env : Env) (e : tEngine) (sched : list actor) (s : crawl_state) : nat :=
  match sched with
  | [] => 0
  | a :: rest =>
      match crawl_step env e a s with
      | Some s' => (if is_poll env e a s then 0 else 1) + work_steps env e rest s'
      | None => work_steps env e rest s
      end
  end.

(** The schedule that lets worker 0 move while there is one and the
    coordinator otherwise. *)
Definition next_actor (s : crawl_state) : actor :=
  match cs_workers s with
  | [] => Coordinator
  | _ => Worker 0
  end.

Fixpoint crawl_drive (env : Env) (e : tEngine) (fuel : nat) (s : crawl_state) : crawl_state :=
  match fuel with
  | 0 => s
  | S n =>
      match cs_pc s with
      | Returned => s
      | _ => crawl_drive env e n (default s (crawl_step env e (next_actor s) s))
      end
  end.

(** URLs reachable from the start URL: links of the start page, and links
    of every reachable page that passes the filter. *)
Inductive reachable (env : Env) (e : tEngine) : URL → Prop :=
  | reach_seed v :
      v ∈ harv_adds env (URL_String (url e)) → reachable env e v
  | reach_link w v :
      reachable env e w → crawlable (url e) w = true →
      v ∈ harv_adds env (URL_String w) → reachable env e v.

(** Work still ahead of the crawl in a state, over a list [U] of canonical
    strings: for every string of [U] not yet marked used, its [use], its
    send and the steps of its worker; the pending send; the steps left to
    the workers in flight; and the return. *)
Definition worker_cost (env : Env) (k : string) : nat :=
  S (length (harv_adds env k)).

Definition entry_potential (env : Env) (us : tUrlStorage) (k : string) : nat :=
  match urlStatus us !! k with
  | Some true => 0
  | _ => 3 + worker_cost env k
  end.

Definition crawl_measure (env : Env) (U : list string) (s : crawl_state) : nat :=
  sum_list (entry_potential env (cs_storage s) <$> U)
  + match cs_pc s with AtSend u => S (worker_cost env (URL_String u)) | _ => 0 end
  + sum_list ((λ w, S (length w)) <$> cs_workers s)
  + match cs_pc s with Returned => 0 | _ => 1 end.

(** Everything the crawl relies on between two steps. *)
Record crawl_inv (env : Env) (e : tEngine) (s : crawl_state) : Prop := {
  ci_wf : wf (cs_storage s);
  ci_reach : ∀ k v, urlObjects (cs_storage s) !! k = Some v → reachable env e v;
  ci_workers : ∀ w v, w ∈ cs_workers s → v ∈ w → reachable env e v;
  ci_send : ∀ u, cs_pc s = AtSend u →
                 reachable env e u ∧ crawlable (url e) u = true;
  ci_acq : ∀ v, v ∈ cs_acquired s →
                urlStatus (cs_storage s) !! URL_String v = Some true
                ∧ urlObjects (cs_storage s) !! URL_String v = Some v;
  ci_acq_nodup : NoDup (URL_String <$> cs_acquired s);
  ci_spawned :
    cs_spawned s ++ match cs_pc s with AtSend u => [u] | _ => [] end
    = filter (λ v, crawlable (url e) v = true) (cs_acquired s);
  ci_ret : cs_pc s = Returned → cs_workers s = []
}.

(** The URLs [harv] has been called on: the start URL, harvested before
    the loop, and every URL handed to a worker. *)
Definition harvested (e : tEngine) (s : crawl_state) : list URL :=
  url e :: cs_spawned s.

(** ** researchers/researcher.go *)

(** Go [error] values that occur; [nil] is [None] of [option error]. *)
Inductive error :=
  | EOF
  | ErrTransport
  | ErrUnexpectedEOF
  | ErrStatus (code : Z)
  | ErrCreateTemp
  | ErrTooLarge (limit : Z)
  | ErrParse
  | ErrRemove
  | ErrCreate
  | ErrUnknownFormat
  | ErrInvalidURL.

Definition decimal (z : Z) : string := NilZero.string_of_int (Z.to_int z).

(** The text of [err.Error()]. *)
Definition error_text (e : error) : string :=
  match e with
  | EOF => "EOF"
  | ErrTransport => "Get: request failed"
  | ErrUnexpectedEOF => "unexpected EOF"
  | ErrStatus code => "failed to download file: status code " +:+ decimal code
  | ErrCreateTemp => "open: cannot create temporary file"
  | ErrTooLarge limit =>
      "file exceeds maximum allowed size of " +:+ decimal limit +:+ " bytes"
  | ErrParse => "parse error"
  | ErrRemove => "remove: no such file"
  | ErrCreate => "open: cannot create file"
  | ErrUnknownFormat => "unknown document format for analysis"
  | ErrInvalidURL => "invalid URL"
  end.

Definition is_EOF (e : error) : bool :=
  match e with EOF => true | _ => false end.

Definition httpGetTimeout : Z := 30.
Definition maxFileSize : Z := 100 * 1024 * 1024.

(** *** Temporary files *)

Record TmpFile := mkTmp {
  tmp_name : nat;
  tmp_size : Z;
  tmp_payload : string
}.

(** The temporary directory: the files in it, the next free name, and
    whether [os.CreateTemp] succeeds. *)
Record FS := mkFS {
  fs_files : list TmpFile;
  fs_next : nat;
  fs_can_create : bool
}.

Definition os_CreateTemp (fs : FS) : option (nat * FS) :=
  if fs_can_create fs then
    Some (fs_next fs,
          {| fs_files := fs_files fs ++ [mkTmp (fs_next fs) 0 ""];
             fs_next := S (fs_next fs);
             fs_can_create := fs_can_create fs |})
  else None.

Definition has_name (name : nat) (f : TmpFile) : bool := tmp_name f =? name.

Definition os_Remove (name : nat) (fs : FS) : option error * FS :=
  if existsb (has_name name) (fs_files fs) then
    (None, {| fs_files := filter (λ f, tmp_name f ≠ name) (fs_files fs);
              fs_next := fs_next fs;
              fs_can_create := fs_can_create fs |})
  else (Some ErrRemove, fs).

(** The file after [n] bytes of [payload] were written to it. *)
Definition write_tmp (name : nat) (n : Z) (payload : string) (fs : FS) : FS :=
  {| fs_files := (λ f, if has_name name f then mkTmp name n payload else f) <$> fs_files fs;
     fs_next := fs_next fs;
     fs_can_create := fs_can_create fs |}.

(** *** Readers *)

(** [Read(p)] on a response body with [len(p) = plen > 0]: as many bytes
    as fit while there are some, then [io.EOF], or the transport error of a
    broken body. *)
Definition Body_Read (b : Body) (plen : Z) : Z * option error * Body :=
  if (body_size b <=? 0)%Z then
    (0%Z, Some (if body_broken b then ErrUnexpectedEOF else EOF), b)
  else
    let n := Z.min plen (body_size b) in
    (n, None, {| body_size := body_size b - n;
                 body_payload := body_payload b;
                 body_broken := body_broken b |}).

Record LimitedReader := mkLimited {
  lr_R : Body;
  lr_N : Z
}.

(** The [Read] method of [io.LimitedReader]. *)
Definition LimitedReader_Read (l : LimitedReader) (plen : Z) : Z * option error * LimitedReader :=
  if (lr_N l <=? 0)%Z then (0%Z, Some EOF, l)
  else
    let plen' := if (plen >? lr_N l)%Z then lr_N l else plen in
    let '(n, err, R') := Body_Read (lr_R l) plen' in
    (n, err, {| lr_R := R'; lr_N := lr_N l - n |}).

(** The read/write loop of [io.Copy] into a file whose writes succeed;
    [None] when the fuel runs out. *)
Fixpoint copyBuffer (fuel : nat) (bufsize written : Z) (src : LimitedReader) : option (Z * option error * LimitedReader) :=
  match fuel with
  | 0 => None
  | S fuel' =>
      let '(nr, er, src') := LimitedReader_Read src bufsize in
      let written' := if (nr >? 0)%Z then (written + nr)%Z else written in
      match er with
      | Some e => Some (written', if is_EOF e then None else Some e, src')
      | None => copyBuffer fuel' bufsize written' src'
      end
  end.

(** The buffer [io.Copy] allocates for a [LimitedReader] source. *)
Definition copy_bufsize (src : LimitedReader) : Z :=
  if (32 * 1024 >? lr_N src)%Z
  then (if (lr_N src <? 1)%Z then 1 else lr_N src)%Z
  else (32 * 1024)%Z.

(** Enough iterations for the bytes that can be copied, plus the final
    read that reports the end. *)
Definition copy_fuel (src : LimitedReader) : nat :=
  Z.to_nat (Z.min (body_size (lr_R src)) (lr_N src) / copy_bufsize src) + 2.

Definition io_Copy (src : LimitedReader) : option (Z * option error * LimitedReader) :=
  copyBuffer (copy_fuel src) (copy_bufsize src) 0 src.

(** What the copy loop amounts to: the bytes copied, the error returned,
    and the reader afterwards. *)
Definition copied (src : LimitedReader) : Z :=
  Z.max 0 (Z.min (body_size (lr_R src)) (lr_N src)).

Definition copy_err (src : LimitedReader) : option error :=
  if (0 <? lr_N src)%Z && (body_size (lr_R src) <? lr_N src)%Z
     && body_broken (lr_R src)
  then Some ErrUnexpectedEOF else None.

Definition after_copy (src : LimitedReader) : LimitedReader :=
  {| lr_R := {| body_size := body_size (lr_R src) - copied src;
                body_payload := body_payload (lr_R src);
                body_broken := body_broken (lr_R src) |};
     lr_N := lr_N src - copied src |}.

(** Names of temporary files are below the next free name. *)
Definition fs_ok (fs : FS) : Prop :=
  Forall (λ f, tmp_name f < fs_next fs) (fs_files fs).

(** [readCloserToReadSeekerFile]: the temporary file on success, the error
    otherwise, and the temporary directory afterwards.  Writes to the
    temporary file and the final [Seek] succeed.  [None] only if the copy
    loop ran out of fuel. *)
Definition readCloserToReadSeekerFile (rc : Body) (fs : FS) : option ((error + TmpFile) * FS) :=
  match os_CreateTemp fs with
  | None => Some (inl ErrCreateTemp, fs)
  | Some (tmpFile, fs1) =>
      let limitedReader := {| lr_R := rc; lr_N := maxFileSize |} in
      match io_Copy limitedReader with
      | None => None
      | Some (written, err, limitedReader') =>
          let fs2 := write_tmp tmpFile written (body_payload rc) fs1 in
          match err with
          | Some e => Some (inl e, (os_Remove tmpFile fs2).2)
          | None =>
              if (lr_N limitedReader' =? 0)%Z then
                Some (inl (ErrTooLarge maxFileSize), (os_Remove tmpFile fs2).2)
              else
                Some (inr (mkTmp tmpFile written (body_payload rc)), fs2)
          end
      end
  end.

(** ** researchers/pdf.go *)

Definition newPdf : tPdf := mkPdf "" "" "" "" "" "" "" "" "" "" "".

Definition pdf_begin (pdf : tPdf) (url : string) : tPdf :=
  mkPdf "pdf" url (pdf_FileName pdf) (pdf_Version pdf) (pdf_Title pdf)
    (pdf_Author pdf) (pdf_Subject pdf) (pdf_Producer pdf) (pdf_Creator pdf)
    (pdf_CreationDate pdf) (pdf_ModDate pdf).

Definition pdf_store (pdf : tPdf) (info : PDFInfo) : tPdf :=
  mkPdf (pdf_docType pdf) (pdf_Url pdf) (pdf_FileName pdf) (pdf_Version pdf)
    (info_Title info) (info_Author info) (info_Subject info)
    (info_Producer info) (info_Creator info)
    (info_CreationDate info) (info_ModificationDate info).

(** The [Do] method of [tPdf]; [None] only if the copy loop ran out of
    fuel. *)
Definition pdf_Do (env : Env) (pdf : tPdf) (url : string) (fs : FS) : option (tPdf * option error * FS) :=
  let pdf := pdf_begin pdf url in
  match client_Get env url with
  | None => Some (pdf, Some ErrTransport, fs)
  | Some resp =>
      if negb (StatusCode resp =? 200)%Z then
        Some (pdf, Some (ErrStatus (StatusCode resp)), fs)
      else
        match readCloserToReadSeekerFile (RespBody resp) fs with
        | None => None
        | Some (inl err, fs') => Some (pdf, Some err, fs')
        | Some (inr respReadSeeker, fs') =>
            match api_PDFInfo env (tmp_payload respReadSeeker) with
            | None => Some (pdf, Some ErrParse, fs')
            | Some info =>
                match os_Remove (tmp_name respReadSeeker) fs' with
                | (Some err, fs'') => Some (pdf, Some err, fs'')
                | (None, fs'') => Some (pdf_store pdf info, None, fs'')
                end
            end
        end
  end.

(** ** researchers/msox.go *)

Definition newMsox : tMsox :=
  mkMsox "" "" (mkCore "" "" "" "" "" "" "") (mkApp "" "" "" "" "" "" "" "" "" "" "").

(** The loop over the files of the archive. *)
Fixpoint msox_files (env : Env) (files : list (string * string)) (msox : tMsox) : tMsox * option error :=
  match files with
  | [] => (msox, None)
  | (name, data) :: rest =>
      if String.eqb name "docProps/core.xml" then
        match xml_Decode_core env data (msox_CoreProperty msox) with
        | None => (msox, Some ErrParse)
        | Some core =>
            msox_files env rest
              (mkMsox (msox_docType msox) (msox_Url msox) core (msox_AppProperty msox))
        end
      else if String.eqb name "docProps/app.xml" then
        match xml_Decode_app env data (msox_AppProperty msox) with
        | None => (msox, Some ErrParse)
        | Some app =>
            msox_files env rest
              (mkMsox (msox_docType msox) (msox_Url msox) (msox_CoreProperty msox) app)
        end
      else msox_files env rest msox
  end.

(** The [Do] method of [tMsox]. *)
Definition msox_Do (env : Env) (msox : tMsox) (url : string) (fs : FS) : option (tMsox * option error * FS) :=
  let msox := mkMsox "msox" url (msox_CoreProperty msox) (msox_AppProperty msox) in
  match client_Get env url with
  | None => Some (msox, Some ErrTransport, fs)
  | Some resp =>
      if negb (StatusCode resp =? 200)%Z then
        Some (msox, Some (ErrStatus (StatusCode resp)), fs)
      else
        match readCloserToReadSeekerFile (RespBody resp) fs with
        | None => None
        | Some (inl err, fs') => Some (msox, Some err, fs')
        | Some (inr respReadSeeker, fs') =>
            match zip_OpenReader env (tmp_payload respReadSeeker) with
            | None => Some (msox, Some ErrParse, fs')
            | Some files =>
                match msox_files env files msox with
                | (msox', Some err) => Some (msox', Some err, fs')
                | (msox', None) =>
                    match os_Remove (tmp_name respReadSeeker) fs' with
                    | (Some err, fs'') => Some (msox', Some err, fs'')
                    | (None, fs'') => Some (msox', None, fs'')
                    end
                end
            end
        end
  end.

(** *** The interface and the registry of file types *)

Definition Do (env : Env) (r : Researcher) (url : string) (fs : FS) : option (Researcher * option error * FS) :=
  match r with
  | RPdf pdf =>
      match pdf_Do env pdf url fs with
      | Some (pdf', err, fs') => Some (RPdf pdf', err, fs')
      | None => None
      end
  | RMsox msox =>
      match msox_Do env msox url fs with
      | Some (msox', err, fs') => Some (RMsox msox', err, fs')
      | None => None
      end
  end.

(** [OutJSON]: the bytes written to the writer. *)
Definition OutJSON (env : Env) (r : Researcher) : string := json_Marshal env r.

Definition allFileTypes : gmap string (unit → Researcher) :=
  list_to_map [
    ("pdf", λ _, RPdf newPdf);
    ("docx", λ _, RMsox newMsox);
    ("xlsx", λ _, RMsox newMsox);
    ("pptx", λ _, RMsox newMsox)
  ].

Definition Is (st : string) : bool :=
  match allFileTypes !! st with Some _ => true | None => false end.

(** [New]: calling the nil function of an unregistered type panics
    ([None]). *)
Definition New (st : string) : option Researcher :=
  match allFileTypes !! st with
  | Some f => Some (f ())
  | None => None
  end.

(** ** engine.go: initialisation, analyser, output *)

Inductive newEngine_result :=
  | EngineOk (e : tEngine)
  | EngineNil (err : error)
  | EngineNoUrl (err : error).

(** [newEngine]: types are validated first, then the start URL. *)
Definition newEngine (env : Env) (opts : tOpts) : newEngine_result :=
  if forallb Is (opt_Type opts) then
    match url_ParseRequestURI env (opt_Site opts) with
    | Some u =>
        EngineOk {| url := u;
                    urlStorage := newUrlStorage;
                    docStorage := ∅;
                    docTypes := opt_Type opts;
                    outputFileName := opt_Output opts;
                    paramax := opt_Paramax opts |}
    | None => EngineNoUrl ErrInvalidURL
    end
  else EngineNil ErrUnknownFormat.

(** The [for _, t := range engine.docTypes] loop with its [break]: the
    first requested type whose dotted form is a suffix of the string. *)
Fixpoint match_type (types : list string) (s : string) : option string :=
  match types with
  | [] => None
  | t :: rest => if HasSuffix s ("." +:+ t) then Some t else match_type rest s
  end.

(** What the analyser phase has produced so far: the result store, the
    temporary directory, and the [Do] calls made, as (type, url). *)
Record analysis := mkAnalysis {
  an_docs : gmap string Researcher;
  an_fs : FS;
  an_calls : list (string * string)
}.

Inductive outcome (A : Type) :=
  | Finished (a : A)
  | Panicked
  | Deadlocked
  | OutOfFuel.
Arguments Finished {A} a.
Arguments Panicked {A}.
Arguments Deadlocked {A}.
Arguments OutOfFuel {A}.

(** The body of one analyser goroutine, run under [engine.mutex]. *)
Definition analyse_url (env : Env) (types : list string) (u : URL) (a : analysis) : outcome analysis :=
  match match_type types (URL_String u) with
  | None => Finished a
  | Some t =>
      match New t with
      | None => Panicked
      | Some eng =>
          match Do env eng (URL_String u) (an_fs a) with
          | None => OutOfFuel
          | Some (eng', err, fs') =>
              Finished
                {| an_docs := match err with
                              | None => <[URL_String u := eng']> (an_docs a)
                              | Some _ => an_docs a
                              end;
                   an_fs := fs';
                   an_calls := an_calls a ++ [(t, URL_String u)] |}
          end
      end
  end.

(** The [Do] calls the analyser makes over [order]: one per URL that has a
    matching type. *)
Definition dispatch (types : list string) (u : URL) : option (string * string) :=
  match match_type types (URL_String u) with
  | Some t => Some (t, URL_String u)
  | None => None
  end.

Definition dispatches (types : list string) (order : list URL) : list (string * string) :=
  omap (dispatch types) order.

(** The calls made for one canonical string. *)
Definition calls_for (key : string) (calls : list (string * string)) : list (string * string) :=
  filter (λ c, c.2 = key) calls.

(** The goroutine bodies exclude each other, so they run one after the
    other, in the order [order] in which they take the mutex. *)
Fixpoint analyse_all (env : Env) (types : list string) (order : list URL) (a : analysis) : outcome analysis :=
  match order with
  | [] => Finished a
  | u :: rest =>
      match analyse_url env types u a with
      | Finished a' => analyse_all env types rest a'
      | other => other
      end
  end.

(** [analyser]: [make] panics on a negative capacity, and with capacity 0
    the first send on [guard] never completes.  The returned error is
    always nil. *)
Definition analyser (env : Env) (e : tEngine) (order : list URL) (fs : FS) : outcome (tEngine * FS * list (string * string) * option error) :=
  if (paramax e <? 0)%Z then Panicked
  else if (paramax e =? 0)%Z && negb (bool_decide (order = [])) then Deadlocked
  else
    match analyse_all env (docTypes e) order (mkAnalysis (docStorage e) fs []) with
    | Finished a =>
        Finished ({| url := url e;
                     urlStorage := urlStorage e;
                     docStorage := an_docs a;
                     docTypes := docTypes e;
                     outputFileName := outputFileName e;
                     paramax := paramax e |}, an_fs a, an_calls a, None)
    | Panicked => Panicked
    | Deadlocked => Deadlocked
    | OutOfFuel => OutOfFuel
    end.

(** The loop of [output] over the URLs, with its [isFirst] flag. *)
Fixpoint output_loop (env : Env) (docs : gmap string Researcher) (urls : list URL) (isFirst : bool) (buf : string) : string :=
  match urls with
  | [] => buf
  | u :: rest =>
      match docs !! URL_String u with
      | Some rr =>
          output_loop env docs rest false
            ((if isFirst then buf else buf +:+ ",") +:+ OutJSON env rr)
      | None => output_loop env docs rest isFirst buf
      end
  end.

Inductive sink :=
  | Stdout
  | FileSink (name : string).

(** [output]: the error, or the sink and everything written to it; [urls]
    is the order in which [getAllUrls] enumerated the registry. *)
Definition output (env : Env) (e : tEngine) (urls : list URL) : error + (sink * string) :=
  let bytes := output_loop env (docStorage e) urls true "[" +:+ "]" in
  if String.eqb (outputFileName e) "" then inr (Stdout, bytes)
  else if os_Create env (outputFileName e) then inr (FileSink (outputFileName e), bytes)
  else inl ErrCreate.

(** [crawl], with the goroutines scheduled by [next_actor]: the engine
    with the registry the loop leaves; [None] when [make] panics or the
    fuel does not reach the return. *)
Definition crawl (env : Env) (e : tEngine) (fuel : nat) : option tEngine :=
  match crawl_init env e with
  | None => None
  | Some s0 =>
      let s := crawl_drive env e fuel s0 in
      match cs_pc s with
      | Returned =>
          Some {| url := url e; urlStorage := cs_storage s;
                  docStorage := docStorage e; docTypes := docTypes e;
                  outputFileName := outputFileName e; paramax := paramax e |}
      | _ => None
      end
  end.

(** [run]: crawl, analyse, output; the error of [analyser] is dropped and
    that of [output] is only printed. *)
Definition run (env : Env) (e : tEngine) (fuel : nat) (fs : FS) : outcome (error + (sink * string)) :=
  match crawl env e fuel with
  | None => OutOfFuel
  | Some e1 =>
      match analyser env e1 (getAllUrls (urlStorage e1)) fs with
      | Finished (e2, _, _, _) =>
          Finished (output env e2 (getAllUrls (urlStorage e2)))
      | Panicked => Panicked
      | Deadlocked => Deadlocked
      | OutOfFuel => OutOfFuel
      end
  end.

(** The results in the order of [urls]. *)
Definition recorded (docs : gmap string Researcher) (urls : list URL) : list Researcher :=
  omap (λ u, docs !! URL_String u) urls.

(** Elements each preceded by a comma: what [output] writes after the
    first element. *)
Fixpoint comma_each (elems : list string) : string :=
  match elems with
  | [] => ""
  | e :: rest => "," +:+ e +:+ comma_each rest
  end.

(** The text after the last delimiter of a URL that has a query or a
    fragment: the fragment when there is one, the query string otherwise. *)
Definition URL_tail (u : URL) : string :=
  if nonempty (Fragment u) then Fragment u else RawQuery u.

(** ** A small site

    Start page [http://h/] links to a page, two documents (one of them on
    another host and larger than the size limit), itself, and an [ftp]
    URL; the second page links to a document with a query string and to
    itself. *)

Module Demo.

Definition root : URL := mkURL "http" "h" "/" "" "".

Definition known_hrefs : gmap string URL :=
  list_to_map [
    ("http://h/", root);
    ("/", mkURL "" "" "/" "" "");
    ("/a.html", mkURL "" "" "/a.html" "" "");
    ("/doc.pdf", mkURL "" "" "/doc.pdf" "" "");
    ("/b.pdf?v=1", mkURL "" "" "/b.pdf" "v=1" "");
    ("http://other/x.pdf", mkURL "http" "other" "/x.pdf" "" "");
    ("ftp://h/f.pdf", mkURL "ftp" "h" "/f.pdf" "" "");
    ("http://h/a.html", mkURL "http" "h" "/a.html" "" "")
  ].

(** Reference resolution for absolute references and absolute paths. *)
Definition resolve (base u : URL) : URL :=
  if nonempty (Scheme u) then u
  else mkURL (Scheme base) (Host base) (Path u) (RawQuery u) (Fragment u).

Definition anchor (href : string) : Token := StartTagToken "a" [("href", href)].

Definition pages : gmap string Response :=
  list_to_map [
    ("http://h/", mkResponse 200 (mkBody 120 "page-root" false));
    ("http://h/a.html", mkResponse 200 (mkBody 80 "page-a" false));
    ("http://h/doc.pdf", mkResponse 200 (mkBody 1000 "pdf-1" false));
    ("http://h/b.pdf?v=1", mkResponse 404 (mkBody 0 "" false));
    ("http://h/doc.pdf?x=.pdf", mkResponse 200 (mkBody 1000 "pdf-1" false));
    ("http://other/x.pdf", mkResponse 200 (mkBody (maxFileSize + 1) "pdf-big" false))
  ].

Definition tokens (payload : string) : list Token :=
  if String.eqb payload "page-root" then
    [OtherToken; anchor "/a.html"; anchor "/doc.pdf"; anchor "http://other/x.pdf";
     anchor "/"; StartTagToken "p" []; anchor "ftp://h/f.pdf"]
  else if String.eqb payload "page-a" then
    [anchor "/b.pdf?v=1"; anchor "/a.html"; anchor "::bad"]
  else [].

Definition pdf_info (payload : string) : option PDFInfo :=
  if String.eqb payload "pdf-1"
  then Some (mkPDFInfo "Title" "Author" "" "" "" "" "")
  else None.

Definition marshal (r : Researcher) : string :=
  match r with
  | RPdf p => "{url:" +:+ pdf_Url p +:+ ",title:" +:+ pdf_Title p +:+ "}"
  | RMsox m => "{url:" +:+ msox_Url m +:+ "}"
  end.

Definition env : Env :=
  {| client_Get := λ s, pages !! s;
     url_Parse := λ s, known_hrefs !! s;
     url_ParseRequestURI := λ s, known_hrefs !! s;
     url_ResolveReference := resolve;
     html_Tokens := tokens;
     api_PDFInfo := pdf_info;
     zip_OpenReader := λ _, None;
     xml_Decode_core := λ _ _, None;
     xml_Decode_app := λ _ _, None;
     json_Marshal := marshal;
     os_Create := λ _, true |}.

Definition opts : tOpts :=
  {| opt_Site := "http://h/"; opt_Type := ["pdf"; "docx"];
     opt_Output := ""; opt_Paramax := 2 |}.

Definition engine : tEngine :=
  {| url := root; urlStorage := newUrlStorage; docStorage := ∅;
     docTypes := ["pdf"; "docx"]; outputFileName := ""; paramax := 2 |}.

(** The canonical strings reachable from the start page. *)
Definition universe : list string :=
  ["http://h/a.html"; "http://h/doc.pdf"; "http://other/x.pdf"; "http://h/";
   "ftp://h/f.pdf"; "http://h/b.pdf?v=1"].

Definition start : crawl_state :=
  {| cs_storage := harv env root newUrlStorage; cs_pc := AtUse;
     cs_workers := []; cs_acquired := []; cs_spawned := [] |}.

Definition fs0 : FS := {| fs_files := []; fs_next := 0; fs_can_create := true |}.

(** A registry as a crawl could leave it, and the engine holding it. *)
Definition doc_pdf : URL := mkURL "http" "h" "/doc.pdf" "" "".
Definition page_a : URL := mkURL "http" "h" "/a.html" "" "".
Definition big_pdf : URL := mkURL "http" "other" "/x.pdf" "" "".
Definition query_pdf : URL := mkURL "http" "h" "/doc.pdf" "x=.pdf" "".
Definition versioned_pdf : URL := mkURL "http" "h" "/b.pdf" "v=1" "".

Definition found_ops : list op :=
  [OpAdd (Some doc_pdf); OpAdd (Some page_a); OpAdd (Some big_pdf);
   OpAdd (Some query_pdf); OpAdd (Some versioned_pdf); OpAdd (Some doc_pdf);
   OpUse; OpUse].

Definition crawled : tEngine :=
  {| url := root; urlStorage := (exec found_ops newUrlStorage).2;
     docStorage := ∅; docTypes := ["pdf"; "docx"]; outputFileName := "";
     paramax := 2 |}.

(** A schedule under which the coordinator's [use] finds nothing, a
    worker then adds a new URL and ends, and the coordinator then reads an
    empty [guard]. *)
Definition early_return_schedule : list actor :=
  [Coordinator; Coordinator; Coordinator; Coordinator; Coordinator;
   Coordinator; Coordinator;
   Worker 1; Worker 1; Worker 1; Worker 1; Worker 1; Worker 1;
   Coordinator; Coordinator;
   Worker 0; Worker 0; Worker 0; Worker 0;
   Coordinator].

End Demo.

(** ** Further vocabulary for the properties below *)

(** URL values submitted to [add] in a run, in order. *)
Fixpoint submitted_urls (ops : list op) : list URL :=
  match ops with
  | [] => []
  | OpAdd (Some u) :: rest => u :: submitted_urls rest
  | _ :: rest => submitted_urls rest
  end.

(** The order in which consecutive [use] calls empty a queue: its head,
    then the others from the back. *)
Definition use_order (q : list string) : list string :=
  match q with
  | [] => []
  | k :: rest => k :: reverse rest
  end.

(** The result the analyser goroutine of [u] stores, if any, when
    [os.CreateTemp] succeeds or not according to [can_create]: its body run
    on an empty store and an empty temporary directory. *)
Definition stored_for (env : Env) (types : list string) (can_create : bool) (u : URL) : option Researcher :=
  match analyse_url env types u
          (mkAnalysis ∅ {| fs_files := []; fs_next := 0;
                           fs_can_create := can_create |} []) with
  | Finished b => an_docs b !! URL_String u
  | _ => None
  end.

(** What the crawl has covered in a state: the links of the start page are
    registered; every link of a page handed to a worker is registered or
    still to be added by a worker in flight; and every entry marked used
    was handed out by [use] in this crawl. *)
Record crawl_closure (env : Env) (e : tEngine) (s : crawl_state) : Prop := {
  cc_seed : ∀ v, v ∈ harv_adds env (URL_String (url e)) →
                 is_Some (urlStatus (cs_storage s) !! URL_String v);
  cc_links : ∀ u v, u ∈ cs_spawned s → v ∈ harv_adds env (URL_String u) →
                    is_Some (urlStatus (cs_storage s) !! URL_String v)
                    ∨ ∃ w, w ∈ cs_workers s ∧ v ∈ w;
  cc_used : ∀ k, urlStatus (cs_storage s) !! k = Some true →
                 ∃ v, v ∈ cs_acquired s ∧ URL_String v = k
}.

(** Under the schedule of [next_actor] the coordinator reaches the check of
    [len(guard)], and the return, only with no worker in flight and no
    entry left to use. *)
Definition quiet (s : crawl_state) : Prop :=
  cs_pc s = AtCheck ∨ cs_pc s = Returned →
  cs_workers s = [] ∧ ∀ k, ¬ unused (cs_storage s) k.

(** Workers in flight never outnumber the capacity of [guard] nor the
    pages handed out, and without capacity no page is handed out. *)
Definition workers_bounded (e : tEngine) (s : crawl_state) : Prop :=
  (Z.of_nat (length (cs_workers s)) ≤ paramax e)%Z
  ∧ length (cs_workers s) ≤ length (cs_spawned s)
  ∧ ((paramax e ≤ 0)%Z → cs_spawned s = []).

(** ** main.go *)

(** The values of the [choice] tags of the [Type] option: what
    [typeOption.Choices] holds. *)
Definition typeChoices : list string := ["pdf"; "docx"; "xlsx"; "pptx"].

(** The step of [main] between parsing and [newEngine]: an empty list of
    types becomes the list of all choices. *)
Definition default_types (opts : tOpts) : tOpts :=
  if length (opt_Type opts) =? 0 then
    {| opt_Site := opt_Site opts; opt_Type := typeChoices;
       opt_Output := opt_Output opts; opt_Paramax := opt_Paramax opts |}
  else opts.

(** * Properties *)

Example url_string_ex :
  URL_String (mkURL "https" "example.com" "/documents/doc.pdf" "" "")
  = "https://example.com/documents/doc.pdf".
Proof. reflexivity. Qed.

Example hostname_ex :
  Hostname (mkURL "http" "example.com:8080" "/" "" "") = "example.com".
Proof. reflexivity. Qed.



(** ** Go strings: append and suffixes *)

Lemma str_app_cons (c : ascii) (a b : string) :
  String c a +:+ b = String c (a +:+ b).
Proof. reflexivity. Qed.

Lemma str_app_nil_l (b : string) : "" +:+ b = b.
Proof. reflexivity. Qed.

Lemma str_app_assoc (a b c : string) : (a +:+ b) +:+ c = a +:+ (b +:+ c).
Proof. induction a as [|x a IH]; [done|]. by rewrite !str_app_cons, IH. Qed.

Lemma str_app_nil_r (a : string) : a +:+ "" = a.
Proof. induction a as [|x a IH]; [done|]. by rewrite str_app_cons, IH. Qed.

Lemma str_length_app (a b : string) :
  String.length (a +:+ b) = String.length a + String.length b.
Proof. induction a as [|x a IH]; [done|]. rewrite str_app_cons. cbn. by rewrite IH. Qed.

Lemma drop_prefix_app (p x : string) : drop_prefix (String.length p) (p +:+ x) = x.
Proof. induction p as [|c p IH]; [done|]. rewrite str_app_cons. cbn. apply IH. Qed.

Lemma drop_prefix_split (n : nat) (s : string) : ∃ p, s = p +:+ drop_prefix n s.
Proof.
  revert s. induction n as [|n IH]; intros s.
  - by exists "".
  - destruct s as [|c s]; [by exists ""|].
    destruct (IH s) as [p Hp]. exists (String c p).
    rewrite str_app_cons. cbn. by rewrite <- Hp.
Qed.

(** [HasSuffix s x] holds exactly when [s] is some string followed by [x]. *)
Lemma HasSuffix_spec (s x : string) :
  HasSuffix s x = true ↔ ∃ p, s = p +:+ x.
Proof.
  unfold HasSuffix. rewrite andb_true_iff, Nat.leb_le, String.eqb_eq. split.
  - intros [_ Hd].
    destruct (drop_prefix_split (String.length s - String.length x) s) as [p Hp].
    exists p. by rewrite Hd in Hp.
  - intros [p ->]. rewrite str_length_app. split; [lia|].
    replace (String.length p + String.length x - String.length x)
      with (String.length p) by lia.
    apply drop_prefix_app.
Qed.

Lemma ContainsByte_app (c : ascii) (a b : string) :
  ContainsByte c (a +:+ b) = ContainsByte c a || ContainsByte c b.
Proof.
  induction a as [|d a IH]; [done|]. rewrite str_app_cons. cbn.
  rewrite IH. by rewrite orb_assoc.
Qed.

Lemma ContainsByte_cons_self (c : ascii) (s : string) :
  ContainsByte c (String c s) = true.
Proof. cbn. by rewrite Ascii.eqb_refl. Qed.

(** A suffix free of the byte [c] lies after the last [c]. *)
Lemma suffix_after_byte (c : ascii) (p q x : string) :
  ContainsByte c x = false →
  (∃ p', p +:+ String c q = p' +:+ x) → ∃ p'', q = p'' +:+ x.
Proof.
  intros Hc [p' Heq]. revert p' Heq. induction p as [|a p IH]; intros p' Heq.
  - rewrite str_app_nil_l in Heq. destruct p' as [|a' p'].
    + rewrite str_app_nil_l in Heq. rewrite <- Heq in Hc.
      by rewrite ContainsByte_cons_self in Hc.
    + rewrite str_app_cons in Heq. injection Heq as _ Hq. eauto.
  - rewrite str_app_cons in Heq. destruct p' as [|a' p'].
    + rewrite str_app_nil_l in Heq. rewrite <- Heq in Hc. cbn in Hc.
      rewrite ContainsByte_app, ContainsByte_cons_self in Hc.
      rewrite orb_true_r in Hc. by rewrite orb_true_r in Hc.
    + rewrite str_app_cons in Heq. injection Heq as _ Heq. eauto.
Qed.

Lemma HasSuffix_after_byte (c : ascii) (p q x : string) :
  ContainsByte c x = false →
  HasSuffix (p +:+ String c q) x = HasSuffix q x.
Proof.
  intros Hc. apply eq_true_iff_eq. rewrite !HasSuffix_spec. split.
  - by apply suffix_after_byte.
  - intros [p'' ->]. exists (p +:+ String c p''). by rewrite str_app_assoc.
Qed.

Lemma last_byte_app (p x : string) :
  x ≠ "" → last_byte (p +:+ x) = last_byte x.
Proof.
  intros Hx. induction p as [|c p IH]; [done|]. rewrite str_app_cons. cbn.
  destruct (p +:+ x) eqn:E; [|done].
  destruct p; [by rewrite str_app_nil_l in E|by rewrite str_app_cons in E].
Qed.

Lemma HasSuffix_last_byte (s x : string) :
  x ≠ "" → HasSuffix s x = true → last_byte s = last_byte x.
Proof.
  intros Hx [p ->]%HasSuffix_spec. by apply last_byte_app.
Qed.
(** ** Registry invariants *)

Lemma wf_new : wf newUrlStorage.
Proof.
  split; simpl.
  - intros k. rewrite !lookup_empty. split; intros [? ?]; discriminate.
  - intros k u. rewrite lookup_empty. discriminate.
  - constructor.
  - intros k. unfold unused. simpl. rewrite lookup_empty.
    split; [intros H; inversion H | discriminate].
Qed.

Lemma add_wf u us : wf us → wf (add u us).1.
Proof.
  intros Hwf. destruct u as [u|]; simpl; [|done].
  destruct (urlStatus us !! URL_String u) eqn:E; simpl; [done|].
  destruct Hwf as [Hd Hk Hn Hq]. split; simpl.
  - intros k. destruct (decide (URL_String u = k)) as [<-|Hne].
    + rewrite !lookup_insert_eq. split; eauto.
    + rewrite !lookup_insert_ne by done. apply Hd.
  - intros k v. destruct (decide (URL_String u = k)) as [<-|Hne].
    + rewrite lookup_insert_eq. by intros [= <-].
    + rewrite lookup_insert_ne by done. apply Hk.
  - apply NoDup_app. split; [done|]. split; [|apply NoDup_singleton].
    intros k Hin Hin'. apply list_elem_of_singleton in Hin'. subst k.
    apply Hq in Hin. unfold unused in Hin. congruence.
  - intros k. unfold unused. simpl. rewrite elem_of_app, list_elem_of_singleton.
    destruct (decide (URL_String u = k)) as [<-|Hne].
    + rewrite lookup_insert_eq. split; auto.
    + rewrite lookup_insert_ne by done. rewrite Hq. unfold unused.
      intuition congruence.
Qed.

(** The scan finds a key of the queue that is not marked used, and skips
    only keys that are. *)
Lemma use_scan_Some st q i j key :
  use_scan st q i = Some (j, key) →
  i ≤ j ∧ q !! (j - i) = Some key ∧ status_of st key = false.
Proof.
  revert i. induction q as [|k q IH]; intros i; simpl; [discriminate|].
  destruct (status_of st k) eqn:E; simpl.
  - intros H. apply IH in H as (Hle & Hl & Hs). repeat split; [lia| |done].
    replace (j - i) with (S (j - S i)) by lia. done.
  - intros [= <- <-]. rewrite Nat.sub_diag. done.
Qed.

Lemma use_scan_None st q i :
  use_scan st q i = None ↔ ∀ k, k ∈ q → status_of st k = true.
Proof.
  revert i. induction q as [|k q IH]; intros i; simpl.
  - split; [intros _ k Hk; inversion Hk | done].
  - destruct (status_of st k) eqn:E; simpl.
    + rewrite IH. split.
      * intros H k' Hk'. apply elem_of_cons in Hk' as [->|?]; auto.
      * intros H k' Hk'. apply H. by right.
    + split; [discriminate|]. intros H. specialize (H k ltac:(left)). congruence.
Qed.

(** Swap-removal drops exactly the element at the index. *)
Lemma swap_remove_perm i q key :
  q !! i = Some key → q ≡ₚ key :: swap_remove i q.
Proof.
  intros Hi. unfold swap_remove.
  apply list_elem_of_split_length in Hi as (l1 & l2 & -> & ->).
  destruct (decide (l2 = [])) as [->|Hne].
  - rewrite last_snoc.
    rewrite list_insert_id by (rewrite lookup_app_r, Nat.sub_diag by lia; done).
    rewrite length_app. simpl.
    replace (length l1 + 1 - 1) with (length l1) by lia.
    rewrite take_app_length. by rewrite Permutation_app_comm.
  - destruct (exists_last Hne) as (l2' & z & ->).
    rewrite last_app_cons.
    replace (key :: l2' ++ [z]) with ((key :: l2') ++ [z]) by done.
    rewrite last_snoc.
    replace (l1 ++ (key :: l2') ++ [z]) with (l1 ++ key :: (l2' ++ [z])) by done.
    rewrite insert_app_r_alt by lia. rewrite Nat.sub_diag. simpl.
    rewrite !length_app. simpl. rewrite length_app. simpl.
    replace (length l1 + S (length l2' + 1) - 1)
      with (length (l1 ++ z :: l2')) by (rewrite length_app; simpl; lia).
    replace (l1 ++ z :: l2' ++ [z]) with ((l1 ++ z :: l2') ++ [z])
      by (by rewrite <- app_assoc).
    rewrite take_app_length.
    rewrite <- !Permutation_middle. constructor.
    by rewrite app_nil_r.
Qed.

Lemma use_wf us : wf us → wf (use us).2.
Proof.
  intros Hwf. unfold use.
  destruct (use_scan (urlStatus us) (queue us) 0) as [[i key]|] eqn:E; simpl; [|done].
  apply use_scan_Some in E as (_ & Hi & Hs). rewrite Nat.sub_0_r in Hi.
  pose proof (swap_remove_perm _ _ _ Hi) as Hp.
  destruct Hwf as [Hd Hk Hn Hq].
  assert (Hun : unused us key) by (apply Hq; eapply list_elem_of_lookup_2; eauto).
  assert (Hmem : ∀ k, k ∈ queue us ↔ k ∈ key :: swap_remove i (queue us))
    by (intros k; by rewrite <- Hp).
  assert (Hn' : NoDup (key :: swap_remove i (queue us))) by (by rewrite <- Hp).
  split; simpl.
  - intros k. destruct (decide (key = k)) as [<-|Hne].
    + rewrite lookup_insert_eq. rewrite <- Hd. unfold unused in Hun.
      rewrite Hun. split; eauto.
    + rewrite lookup_insert_ne by done. apply Hd.
  - done.
  - by apply NoDup_cons in Hn' as [_ ?].
  - intros k. unfold unused. simpl.
    apply NoDup_cons in Hn' as [Hnk Hn'].
    destruct (decide (key = k)) as [<-|Hne].
    + rewrite lookup_insert_eq. split; [done|discriminate].
    + rewrite lookup_insert_ne by done. rewrite <- (Hq k), Hmem.
      rewrite elem_of_cons. intuition congruence.
Qed.

(** What a successful [use] does to a well-formed registry. *)
Lemma use_found us u found us' :
  wf us → use us = (u, found, us') → found = true →
  ∃ v, u = Some v ∧ unused us (URL_String v)
       ∧ urlStatus us' = <[URL_String v := true]> (urlStatus us)
       ∧ urlObjects us' = urlObjects us.
Proof.
  intros Hwf Hu ->. unfold use in Hu.
  destruct (use_scan (urlStatus us) (queue us) 0) as [[i key]|] eqn:E;
    [|by inversion Hu].
  inversion Hu; subst; clear Hu. simpl.
  apply use_scan_Some in E as (_ & Hi & Hs). rewrite Nat.sub_0_r in Hi.
  assert (Hun : unused us key)
    by (apply (wf_queue _ Hwf); eapply list_elem_of_lookup_2; eauto).
  destruct (proj1 (wf_dom _ Hwf key)) as [v Hv]; [unfold unused in Hun; eauto|].
  pose proof (wf_key _ Hwf _ _ Hv) as Hkey. subst key.
  exists v. rewrite Hv. done.
Qed.

Lemma use_not_found us :
  wf us → ((use us).1.2 = false ↔ ∀ k, ¬ unused us k).
Proof.
  intros Hwf. unfold use.
  destruct (use_scan (urlStatus us) (queue us) 0) as [[i key]|] eqn:E; simpl.
  - apply use_scan_Some in E as (_ & Hi & Hs). rewrite Nat.sub_0_r in Hi.
    split; [discriminate|]. intros H. exfalso. apply (H key).
    apply (wf_queue _ Hwf). eapply list_elem_of_lookup_2; eauto.
  - split; [|done]. intros _ k Hk.
    pose proof (proj1 (use_scan_None _ _ _) E k) as H.
    apply (wf_queue _ Hwf) in Hk as Hin. specialize (H Hin).
    unfold status_of, unused in *. rewrite Hk in H. discriminate.
Qed.

Lemma use_exhausted us :
  (∀ k, ¬ unused us k) → wf us → use us = (None, false, us).
Proof.
  intros Hno Hwf. unfold use.
  destruct (use_scan (urlStatus us) (queue us) 0) as [[i key]|] eqn:E; [|done].
  apply use_scan_Some in E as (_ & Hi & Hs). rewrite Nat.sub_0_r in Hi.
  exfalso. apply (Hno key). apply (wf_queue _ Hwf).
  eapply list_elem_of_lookup_2; eauto.
Qed.

Lemma exec_op_wf o us : wf us → wf (exec_op o us).2.
Proof.
  intros Hwf. destruct o as [u|]; simpl.
  - pose proof (add_wf u us Hwf). by destruct (add u us).
  - pose proof (use_wf us Hwf). by destruct (use us) as [[? ?] ?].
Qed.

Lemma exec_cons o ops us :
  exec (o :: ops) us =
    ((exec_op o us).1 :: (exec ops (exec_op o us).2).1,
     (exec ops (exec_op o us).2).2).
Proof.
  simpl. destruct (exec_op o us) as [r us']. simpl.
  by destruct (exec ops us') as [rs us''].
Qed.

Lemma exec_wf ops us : wf us → wf (exec ops us).2.
Proof.
  revert us. induction ops as [|o ops IH]; intros us Hwf; [done|].
  rewrite exec_cons. simpl. apply IH. by apply exec_op_wf.
Qed.

Lemma exec_app ops1 ops2 us :
  exec (ops1 ++ ops2) us =
    ((exec ops1 us).1 ++ (exec ops2 (exec ops1 us).2).1,
     (exec ops2 (exec ops1 us).2).2).
Proof.
  revert us. induction ops1 as [|o ops1 IH]; intros us.
  - simpl. by destruct (exec ops2 us).
  - rewrite <- app_comm_cons, !exec_cons. simpl. by rewrite IH.
Qed.

(** Along any run: the keys handed out are pairwise distinct, none of
    them was used before the run, and a key is used afterwards exactly
    when it was used before or was handed out. *)
Lemma exec_acquired ops us0 :
  wf us0 →
  NoDup (acquired (exec ops us0).1)
  ∧ (∀ k, k ∈ acquired (exec ops us0).1 → urlStatus us0 !! k ≠ Some true)
  ∧ (∀ k, urlStatus (exec ops us0).2 !! k = Some true
          ↔ urlStatus us0 !! k = Some true ∨ k ∈ acquired (exec ops us0).1).
Proof.
  revert us0. induction ops as [|o ops IH]; intros us0 Hwf.
  - simpl. split; [constructor|]. split.
    + intros k Hk. inversion Hk.
    + intros k. split; [auto|]. intros [?|Hk]; [done|inversion Hk].
  - rewrite exec_cons. simpl.
    pose proof (exec_op_wf o us0 Hwf) as Hwf1.
    destruct (IH _ Hwf1) as (Hnd & Hfresh & Hused). clear IH.
    destruct o as [u|]; simpl in *.
    + (* add: statuses of existing keys are untouched, new ones are unused *)
      assert (Hst : ∀ k, urlStatus (add u us0).1 !! k = Some true
                         ↔ urlStatus us0 !! k = Some true).
      { intros k. destruct u as [u|]; simpl; [|done].
        destruct (urlStatus us0 !! URL_String u) eqn:E; simpl; [done|].
        destruct (decide (URL_String u = k)) as [<-|Hne].
        - rewrite lookup_insert_eq, E. split; discriminate.
        - by rewrite lookup_insert_ne. }
      destruct (add u us0) as [us1 b]; simpl in *.
      split; [done|]. split.
      * intros k Hk. rewrite <- Hst. by apply Hfresh.
      * intros k. rewrite Hused, Hst. done.
    + destruct (use us0) as [[u found] us1] eqn:Hu; simpl in *.
      destruct found.
      * destruct (use_found _ _ _ _ Hwf Hu eq_refl) as (v & -> & Hun & Hst & _).
        simpl. rewrite Hst in Hfresh, Hused.
        split; [|split].
        -- constructor; [|done]. intros Hin. apply Hfresh in Hin.
           by rewrite lookup_insert_eq in Hin.
        -- intros k Hk. apply elem_of_cons in Hk as [->|Hk].
           ++ unfold unused in Hun. congruence.
           ++ apply Hfresh in Hk. intros Hk'. apply Hk.
              destruct (decide (URL_String v = k)) as [<-|Hne].
              ** by rewrite lookup_insert_eq.
              ** by rewrite lookup_insert_ne.
        -- intros k. rewrite Hused, elem_of_cons.
           destruct (decide (URL_String v = k)) as [<-|Hne].
           ++ rewrite lookup_insert_eq. intuition.
           ++ rewrite lookup_insert_ne by done. intuition congruence.
      * assert (us1 = us0) as ->.
        { unfold use in Hu.
          destruct (use_scan (urlStatus us0) (queue us0) 0) as [[i key]|];
            by inversion Hu. }
        by destruct u.
Qed.

(** One-way status: once used, always used. *)
Lemma exec_used_stays ops us k :
  wf us → urlStatus us !! k = Some true →
  urlStatus (exec ops us).2 !! k = Some true.
Proof.
  intros Hwf Hk. apply (exec_acquired ops us Hwf). by left.
Qed.

(** The keys of the registry after a run: those before plus those
    submitted. *)
Lemma exec_dom ops us0 :
  wf us0 →
  dom (urlStatus (exec ops us0).2)
  = dom (urlStatus us0) ∪ list_to_set (submitted ops).
Proof.
  revert us0. induction ops as [|o ops IH]; intros us0 Hwf.
  - simpl. set_solver.
  - rewrite exec_cons. simpl.
    rewrite (IH _ (exec_op_wf o us0 Hwf)). clear IH.
    destruct o as [u|]; simpl.
    + destruct u as [u|]; simpl; [|done].
      destruct (urlStatus us0 !! URL_String u) eqn:E; simpl.
      * assert (URL_String u ∈ dom (urlStatus us0)) by (apply elem_of_dom; eauto).
        set_solver.
      * rewrite dom_insert_L. set_solver.
    + destruct (use us0) as [[u found] us1] eqn:Hu; simpl.
      destruct found.
      * destruct (use_found _ _ _ _ Hwf Hu eq_refl) as (v & -> & Hun & Hst & _).
        rewrite Hst, dom_insert_L.
        assert (URL_String v ∈ dom (urlStatus us0))
          by (apply elem_of_dom; unfold unused in Hun; eauto).
        set_solver.
      * unfold use in Hu.
        destruct (use_scan (urlStatus us0) (queue us0) 0) as [[i key]|];
          by inversion Hu.
Qed.

Lemma size_list_to_set_remove_dups (l : list string) :
  size (list_to_set l : gset string) = length (remove_dups l).
Proof.
  rewrite <- (size_list_to_set (C := gset string) (remove_dups l))
    by apply NoDup_remove_dups.
  f_equal. apply set_eq. intros x.
  by rewrite !elem_of_list_to_set, elem_of_remove_dups.
Qed.


(** ** The registry contract *)

Lemma acquired_subset_used ops :
  ∀ k, k ∈ acquired (exec ops newUrlStorage).1
       ↔ urlStatus (exec ops newUrlStorage).2 !! k = Some true.
Proof.
  intros k. destruct (exec_acquired ops newUrlStorage wf_new) as (_ & _ & H).
  rewrite H. simpl. rewrite lookup_empty. intuition discriminate.
Qed.

Lemma all_acquired_no_unused ops :
  length (acquired (exec ops newUrlStorage).1)
  = size (urlStatus (exec ops newUrlStorage).2) →
  ∀ k, ¬ unused (exec ops newUrlStorage).2 k.
Proof.
  intros Hlen k Hk.
  destruct (exec_acquired ops newUrlStorage wf_new) as (Hnd & _ & _).
  set (rs := (exec ops newUrlStorage).1) in *.
  set (us := (exec ops newUrlStorage).2) in *.
  assert (Hsub : (list_to_set (acquired rs) : gset string) ⊆ dom (urlStatus us)).
  { intros x Hx. apply elem_of_list_to_set in Hx.
    apply acquired_subset_used in Hx. apply elem_of_dom. eauto. }
  apply set_subseteq_size_eq in Hsub.
  - assert (Hin : k ∈ dom (urlStatus us)) by (apply elem_of_dom; eauto).
    rewrite <- Hsub in Hin. apply elem_of_list_to_set in Hin.
    apply acquired_subset_used in Hin. unfold unused in Hk. fold us in Hin. congruence.
  - rewrite size_dom, size_list_to_set by done. lia.
Qed.

Lemma use_repeat_exhausted us n :
  wf us → (∀ k, ¬ unused us k) →
  exec (replicate n OpUse) us = (replicate n (RetUse None false), us).
Proof.
  intros Hwf Hno. induction n as [|n IH]; [done|].
  simpl. rewrite (use_exhausted us Hno Hwf). by rewrite IH.
Qed.

(** C1. [use] on any registry built by [add] and [use] calls: a successful
    call returns an entry that was unused and marks exactly that entry
    used; the call reports not-found exactly when no unused entry is left
    and then changes nothing.  Over any run the entries handed out are
    pairwise distinct, a used entry stays used whatever is called next,
    and once as many entries were handed out as the registry holds, every
    later [use] reports not-found. *)
Theorem use_hands_out_each_entry_once (ops : list op) :
  let rs := (exec ops newUrlStorage).1 in
  let us := (exec ops newUrlStorage).2 in
  (∀ u found us', use us = (u, found, us') →
     (found = true →
        ∃ v, u = Some v ∧ unused us (URL_String v)
             ∧ urlStatus us' = <[URL_String v := true]> (urlStatus us)
             ∧ urlObjects us' = urlObjects us)
     ∧ (found = false → u = None ∧ us' = us)
     ∧ (found = false ↔ ∀ k, ¬ unused us k))
  ∧ NoDup (acquired rs)
  ∧ (∀ k ops', urlStatus us !! k = Some true →
               urlStatus (exec ops' us).2 !! k = Some true)
  ∧ (length (acquired rs) = size (urlStatus us) →
     ∀ n, exec (replicate n OpUse) us = (replicate n (RetUse None false), us)).
Proof.
  intros rs us.
  assert (Hwf : wf us) by (apply exec_wf, wf_new).
  split; [|split; [|split]].
  - intros u found us' Hu. split; [|split].
    + intros ->. by eapply use_found.
    + intros ->. unfold use in Hu.
      destruct (use_scan (urlStatus us) (queue us) 0) as [[i key]|];
        by inversion Hu.
    + rewrite <- (use_not_found us Hwf). by rewrite Hu.
  - apply (exec_acquired ops newUrlStorage wf_new).
  - intros k ops' Hk. by apply exec_used_stays.
  - intros Hlen n. apply use_repeat_exhausted; [done|].
    by apply all_acquired_no_unused.
Qed.

Lemma exec_objects_stay ops us k :
  wf us → is_Some (urlObjects us !! k) →
  is_Some (urlObjects (exec ops us).2 !! k).
Proof.
  intros Hwf Hk.
  apply (wf_dom _ (exec_wf ops us Hwf)).
  apply elem_of_dom. rewrite (exec_dom ops us Hwf).
  apply elem_of_union_l, elem_of_dom. by apply (wf_dom _ Hwf).
Qed.

Lemma size_objects_status us : wf us → size (urlObjects us) = size (urlStatus us).
Proof.
  intros Hwf. rewrite <- !size_dom. f_equal. apply set_eq. intros k.
  rewrite !elem_of_dom. symmetry. apply (wf_dom _ Hwf).
Qed.

Lemma length_getAllUrls us : length (getAllUrls us) = size (urlObjects us).
Proof.
  unfold getAllUrls. by rewrite length_fmap, length_map_to_list.
Qed.

(** C2. [add] on any registry built by [add] and [use] calls: a nil
    pointer and a URL whose canonical string is already a key return false
    and change nothing; otherwise the URL is stored under its canonical
    string as an unused entry, the count grows by one and the call returns
    true.  After any run the number of entries, and of URLs enumerated by
    [getAllUrls], is the number of distinct canonical strings submitted,
    and a key once present is present after any further calls. *)
Theorem add_inserts_distinct_canonical_strings (ops : list op) :
  let us := (exec ops newUrlStorage).2 in
  add None us = (us, false)
  ∧ (∀ u, is_Some (urlStatus us !! URL_String u) → add (Some u) us = (us, false))
  ∧ (∀ u, urlStatus us !! URL_String u = None →
          (add (Some u) us).2 = true
          ∧ urlObjects (add (Some u) us).1 !! URL_String u = Some u
          ∧ unused (add (Some u) us).1 (URL_String u)
          ∧ (count (add (Some u) us).1).1 = S (count us).1)
  ∧ (count us).1 = length (remove_dups (submitted ops))
  ∧ length (getAllUrls us) = length (remove_dups (submitted ops))
  ∧ (∀ ops' k, is_Some (urlObjects us !! k) →
               is_Some (urlObjects (exec ops' us).2 !! k)
               ∧ is_Some (urlStatus (exec ops' us).2 !! k)).
Proof.
  intros us.
  assert (Hwf : wf us) by (apply exec_wf, wf_new).
  assert (Hsize : size (urlStatus us) = length (remove_dups (submitted ops))).
  { rewrite <- size_dom. unfold us. rewrite (exec_dom ops _ wf_new). simpl.
    rewrite dom_empty_L, union_empty_l_L. apply size_list_to_set_remove_dups. }
  split; [done|]. split; [|split; [|split; [|split]]].
  - intros u [b Hb]. simpl. by rewrite Hb.
  - intros u Hu. simpl. rewrite Hu. simpl.
    rewrite !lookup_insert_eq. unfold unused. simpl. rewrite lookup_insert_eq.
    repeat split; try done. by apply map_size_insert_None.
  - done.
  - by rewrite length_getAllUrls, size_objects_status.
  - intros ops' k Hk.
    pose proof (exec_objects_stay ops' us k Hwf Hk) as H. split; [done|].
    by apply (wf_dom _ (exec_wf ops' us Hwf)).
Qed.

(** ** The crawl loop *)

(** Reduce the projections of a [crawl_state] without unfolding the
    registry operations inside it. *)
Ltac crawl_fields :=
  cbn [cs_storage cs_pc cs_workers cs_acquired cs_spawned] in *.

Section Crawl.

Context (env : Env) (e : tEngine).

Lemma add_used_iff u us k :
  urlStatus (add (Some u) us).1 !! k = Some true ↔ urlStatus us !! k = Some true.
Proof.
  simpl. destruct (urlStatus us !! URL_String u) eqn:E; simpl; [done|].
  destruct (decide (URL_String u = k)) as [<-|Hne].
  - rewrite lookup_insert_eq, E. split; discriminate.
  - by rewrite lookup_insert_ne.
Qed.

Lemma add_objects_inv u us k v :
  urlObjects (add (Some u) us).1 !! k = Some v →
  urlObjects us !! k = Some v ∨ v = u.
Proof.
  simpl. destruct (urlStatus us !! URL_String u) eqn:E; simpl; [auto|].
  destruct (decide (URL_String u = k)) as [<-|Hne].
  - rewrite lookup_insert_eq. intros [= <-]. by right.
  - rewrite lookup_insert_ne by done. auto.
Qed.

Lemma add_objects_stay u us k v :
  wf us → urlObjects us !! k = Some v →
  urlObjects (add (Some u) us).1 !! k = Some v.
Proof.
  intros Hwf Hk. simpl.
  destruct (urlStatus us !! URL_String u) eqn:E; simpl; [done|].
  destruct (decide (URL_String u = k)) as [<-|Hne].
  - assert (is_Some (urlStatus us !! URL_String u)) as [? ?]
      by (apply (wf_dom _ Hwf); eauto).
    congruence.
  - by rewrite lookup_insert_ne.
Qed.

Lemma harv_fold_inv (l : list URL) us :
  wf us →
  (∀ k v, urlObjects us !! k = Some v → reachable env e v) →
  (∀ v, v ∈ l → reachable env e v) →
  let us' := foldl (λ st u, (add (Some u) st).1) us l in
  wf us'
  ∧ (∀ k v, urlObjects us' !! k = Some v → reachable env e v)
  ∧ (∀ k, urlStatus us' !! k = Some true ↔ urlStatus us !! k = Some true).
Proof.
  revert us. induction l as [|u l IH]; intros us Hwf Hr Hl; simpl; [done|].
  destruct (IH (add (Some u) us).1) as (H1 & H2 & H3).
  - by apply add_wf.
  - intros k v Hk. apply add_objects_inv in Hk as [Hk| ->]; [eauto|].
    apply Hl. by left.
  - intros v Hv. apply Hl. by right.
  - split; [done|]. split; [done|]. intros k. rewrite H3. apply add_used_iff.
Qed.

Lemma crawl_init_inv s0 :
  urlStorage e = newUrlStorage → crawl_init env e = Some s0 → crawl_inv env e s0.
Proof.
  intros Hnew Hinit. unfold crawl_init in Hinit.
  destruct (paramax e <? 0)%Z; [discriminate|]. inversion Hinit; subst; clear Hinit.
  unfold harv. rewrite Hnew.
  destruct (harv_fold_inv (harv_adds env (URL_String (url e))) newUrlStorage)
    as (H1 & H2 & H3).
  - apply wf_new.
  - intros k v. simpl. by rewrite lookup_empty.
  - intros v Hv. by apply reach_seed.
  - split; simpl; try done.
    + intros w v Hw. inversion Hw.
    + intros v Hv. inversion Hv.
    + constructor.
Qed.

Lemma use_not_found_same us u us' : use us = (u, false, us') → us' = us.
Proof.
  unfold use. destruct (use_scan (urlStatus us) (queue us) 0) as [[i key]|];
    intros H; by inversion H.
Qed.

Lemma coordinator_step_inv s s' :
  crawl_inv env e s → coordinator_step env e s = Some s' → crawl_inv env e s'.
Proof.
  intros [Hwf Hr Hw Hs Ha Hn Hsp Hret] Hstep. unfold coordinator_step in Hstep.
  destruct (cs_pc s) as [| |u|] eqn:Hpc.
  - destruct (use (cs_storage s)) as [[u found] us'] eqn:Hu.
    destruct found.
    + destruct (use_found _ _ _ _ Hwf Hu eq_refl) as (v & -> & Hun & Hst & Hob).
      inversion Hstep; subst; clear Hstep.
      assert (Hwf' : wf us') by (pose proof (use_wf _ Hwf) as H; by rewrite Hu in H).
      assert (Hvobj : urlObjects (cs_storage s) !! URL_String v = Some v).
      { unfold use in Hu.
        destruct (use_scan (urlStatus (cs_storage s)) (queue (cs_storage s)) 0)
          as [[i key]|] eqn:E; [|by inversion Hu].
        inversion Hu as [[Hv Hus]]. clear Hu.
        pose proof (wf_key _ Hwf _ _ Hv) as Hkey. by rewrite Hkey. }
      split; simpl.
      * done.
      * intros k w. rewrite Hob. apply Hr.
      * done.
      * intros u Hu'. destruct (crawlable (url e) v) eqn:Hc; [|discriminate].
        inversion Hu'; subst. split; [|done]. eapply Hr; eauto.
      * intros w Hin. rewrite Hst, Hob. apply elem_of_app in Hin as [Hin|Hin].
        -- destruct (Ha _ Hin) as [Ha1 Ha2]. split; [|done].
           destruct (decide (URL_String v = URL_String w)) as [->|Hne].
           ++ by rewrite lookup_insert_eq.
           ++ by rewrite lookup_insert_ne.
        -- apply list_elem_of_singleton in Hin as ->.
           by rewrite lookup_insert_eq.
      * rewrite fmap_app. simpl. apply NoDup_app. split; [done|].
        split; [|apply NoDup_singleton].
        intros k Hk Hk'. apply list_elem_of_singleton in Hk' as ->.
        apply list_elem_of_fmap in Hk as (w & Heq & Hin).
        destruct (Ha _ Hin) as [Ha1 _]. unfold unused in Hun. congruence.
      * rewrite filter_app, <- Hsp, filter_cons, filter_nil.
        destruct (crawlable (url e) v) eqn:Hc.
        -- rewrite decide_True by done. by rewrite app_nil_r.
        -- rewrite decide_False by (by intros ?). by rewrite !app_nil_r.
      * by destruct (crawlable (url e) v).
    + apply use_not_found_same in Hu as Heq. subst us'.
      assert (s' = {| cs_storage := cs_storage s; cs_pc := AtCheck;
                      cs_workers := cs_workers s; cs_acquired := cs_acquired s;
                      cs_spawned := cs_spawned s |}) as ->
        by (destruct u; by inversion Hstep).
      split; simpl; try done.
  - inversion Hstep; subst; clear Hstep. split; simpl; try done.
    + intros u Hu. by destruct (cs_workers s).
    + by destruct (cs_workers s).
    + by destruct (cs_workers s).
  - destruct (Z.of_nat (length (cs_workers s)) <? paramax e)%Z; [|discriminate].
    inversion Hstep; subst; clear Hstep.
    destruct (Hs u eq_refl) as [Hru Hcu].
    split; simpl; try done.
    + intros w v Hin Hv. apply elem_of_app in Hin as [Hin|Hin]; [eauto|].
      apply list_elem_of_singleton in Hin as ->.
      eapply reach_link; eauto.
    + by rewrite app_nil_r.
  - discriminate.
Qed.

Opaque add.

Lemma worker_step_inv i s s' :
  crawl_inv env e s → worker_step i s = Some s' → crawl_inv env e s'.
Proof.
  intros [Hwf Hr Hw Hs Ha Hn Hsp Hret] Hstep. unfold worker_step in Hstep.
  destruct (cs_workers s !! i) as [[|u rest]|] eqn:Hi; [| |discriminate];
    injection Hstep as <-.
  - split; crawl_fields; try done.
    + intros w v Hin. apply Hw.
      rewrite delete_take_drop in Hin.
      apply elem_of_app in Hin as [Hin|Hin].
      * by apply (subseteq_take i (cs_workers s)).
      * by apply (subseteq_drop (S i) (cs_workers s)).
    + intros Hp. apply Hret in Hp. by rewrite Hp in Hi.
  - assert (Hru : ∀ v, v ∈ u :: rest → reachable env e v).
    { intros v. apply Hw. eapply list_elem_of_lookup_2; eauto. }
    split; crawl_fields.
    + by apply add_wf.
    + intros k v Hk. apply add_objects_inv in Hk as [Hk| ->]; [eauto|].
      apply Hru. by left.
    + intros w v Hin Hv. apply list_elem_of_lookup in Hin as [j Hj].
      destruct (decide (i = j)) as [<-|Hne].
      * rewrite list_lookup_insert_eq in Hj
          by (eapply lookup_lt_Some; eauto).
        inversion Hj; subst. apply Hru. by right.
      * rewrite list_lookup_insert_ne in Hj by done.
        eapply Hw; [|done]. eapply list_elem_of_lookup_2; eauto.
    + done.
    + intros v Hv. destruct (Ha _ Hv) as [Ha1 Ha2]. split.
      * by apply add_used_iff.
      * by apply add_objects_stay.
    + done.
    + done.
    + intros Hp. apply Hret in Hp. by rewrite Hp in Hi.
Qed.

Transparent add.

Lemma crawl_step_inv a s s' :
  crawl_inv env e s → crawl_step env e a s = Some s' → crawl_inv env e s'.
Proof.
  destruct a; simpl; eauto using coordinator_step_inv, worker_step_inv.
Qed.

Lemma crawl_run_inv sched s :
  crawl_inv env e s → crawl_inv env e (crawl_run env e sched s).
Proof.
  revert s. induction sched as [|a sched IH]; intros s Hinv; [done|].
  simpl. apply IH. destruct (crawl_step env e a s) eqn:E; simpl; [|done].
  by eapply crawl_step_inv.
Qed.

Lemma crawl_run_app sched1 sched2 s :
  crawl_run env e (sched1 ++ sched2) s
  = crawl_run env e sched2 (crawl_run env e sched1 s).
Proof.
  revert s. induction sched1 as [|a sched1 IH]; intros s; [done|].
  simpl. apply IH.
Qed.

End Crawl.

(** ** Termination of the crawl loop *)

Lemma sum_list_insert_worker (ws : list (list URL)) i u rest :
  ws !! i = Some (u :: rest) →
  S (sum_list ((λ w, S (length w)) <$> <[i := rest]> ws))
  = sum_list ((λ w, S (length w)) <$> ws).
Proof.
  revert i. induction ws as [|w ws IH]; intros [|i] Hi; try discriminate.
  - inversion Hi; subst. simpl. lia.
  - specialize (IH i Hi). csimpl in *. lia.
Qed.

Lemma sum_list_delete_worker (ws : list (list URL)) i :
  ws !! i = Some [] →
  S (sum_list ((λ w, S (length w)) <$> delete i ws))
  = sum_list ((λ w, S (length w)) <$> ws).
Proof.
  revert i. induction ws as [|w ws IH]; intros [|i] Hi; try discriminate.
  - inversion Hi; subst. reflexivity.
  - specialize (IH i Hi). csimpl in *. lia.
Qed.

Section Termination.

Context (env : Env) (e : tEngine) (U : list string).
Hypothesis U_nodup : NoDup U.
Hypothesis U_covers : ∀ v, reachable env e v → URL_String v ∈ U.

Lemma potential_ext us us' :
  (∀ k, urlStatus us' !! k = Some true ↔ urlStatus us !! k = Some true) →
  ∀ l : list string,
    sum_list (entry_potential env us' <$> l) = sum_list (entry_potential env us <$> l).
Proof.
  intros Hext l. induction l as [|k l IH]; [done|]. csimpl. rewrite IH. f_equal.
  unfold entry_potential. specialize (Hext k).
  destruct (urlStatus us' !! k) as [[]|], (urlStatus us !! k) as [[]|];
    try done; try (by (destruct Hext as [H1 H2]; try specialize (H1 eq_refl);
                        try specialize (H2 eq_refl); discriminate)).
Qed.

Lemma potential_use us us' k0 (l : list string) :
  NoDup l → k0 ∈ l →
  urlStatus us !! k0 ≠ Some true →
  urlStatus us' = <[k0 := true]> (urlStatus us) →
  sum_list (entry_potential env us' <$> l) + (3 + worker_cost env k0)
  = sum_list (entry_potential env us <$> l).
Proof.
  intros Hnd Hin Hk0 Hst. induction l as [|k l IH]; [inversion Hin|].
  apply NoDup_cons in Hnd as [Hk Hnd]. csimpl.
  destruct (decide (k = k0)) as [->|Hne].
  - assert (Hrest : sum_list (entry_potential env us' <$> l)
                    = sum_list (entry_potential env us <$> l)).
    { clear IH Hin Hnd. induction l as [|k l IH]; [done|]. csimpl.
      rewrite IH by (intros ?; apply Hk; by right). f_equal.
      unfold entry_potential. rewrite Hst, lookup_insert_ne; [done|].
      intros ->. apply Hk. by left. }
    rewrite Hrest. unfold entry_potential at 1 3.
    rewrite Hst, lookup_insert_eq.
    destruct (urlStatus us !! k0) as [[]|]; [done|lia|lia].
  - apply elem_of_cons in Hin as [->|Hin]; [done|].
    rewrite <- (IH Hnd Hin).
    unfold entry_potential at 1 3. rewrite Hst, lookup_insert_ne by done. lia.
Qed.

(** A step that is not a poll strictly decreases the measure; a poll
    leaves it unchanged. *)
Lemma crawl_step_measure a s s' :
  crawl_inv env e s → crawl_step env e a s = Some s' →
  if is_poll env e a s
  then crawl_measure env U s' = crawl_measure env U s
  else crawl_measure env U s' < crawl_measure env U s.
Proof.
  intros Hinv Hstep. destruct Hinv as [Hwf Hr Hw Hs Ha Hn Hsp Hret].
  destruct a as [|i]; simpl in Hstep.
  - unfold coordinator_step in Hstep. unfold is_poll.
    destruct (cs_pc s) as [| |u|] eqn:Hpc.
    + destruct (use (cs_storage s)) as [[u found] us'] eqn:Hu. simpl.
      destruct found; simpl.
      * destruct (use_found _ _ _ _ Hwf Hu eq_refl) as (v & -> & Hun & Hst & Hob).
        injection Hstep as <-.
        assert (Hvobj : urlObjects (cs_storage s) !! URL_String v = Some v).
        { unfold use in Hu.
          destruct (use_scan (urlStatus (cs_storage s)) (queue (cs_storage s)) 0)
            as [[i key]|] eqn:E; [|by inversion Hu].
          inversion Hu as [[Hv Hus]]. clear Hu.
          pose proof (wf_key _ Hwf _ _ Hv) as Hkey. by rewrite Hkey. }
        assert (Hin : URL_String v ∈ U) by (apply U_covers; eauto).
        assert (Hnt : urlStatus (cs_storage s) !! URL_String v ≠ Some true)
          by (unfold unused in Hun; congruence).
        pose proof (potential_use (cs_storage s) us' _ U U_nodup Hin Hnt Hst) as Hpot.
        unfold crawl_measure. crawl_fields. rewrite Hpc.
        destruct (crawlable (url e) v); lia.
      * apply use_not_found_same in Hu as Heq. subst us'.
        assert (s' = {| cs_storage := cs_storage s; cs_pc := AtCheck;
                        cs_workers := cs_workers s; cs_acquired := cs_acquired s;
                        cs_spawned := cs_spawned s |}) as ->
          by (destruct u; by inversion Hstep).
        unfold crawl_measure. crawl_fields. by rewrite Hpc.
    + injection Hstep as <-. unfold crawl_measure. crawl_fields. rewrite Hpc.
      destruct (cs_workers s) as [|w ws] eqn:Hws.
      * rewrite bool_decide_eq_true_2 by done. simpl. lia.
      * rewrite bool_decide_eq_false_2 by done. simpl. lia.
    + destruct (Z.of_nat (length (cs_workers s)) <? paramax e)%Z; [|discriminate].
      injection Hstep as <-. unfold crawl_measure. crawl_fields. rewrite Hpc.
      rewrite fmap_app, sum_list_with_app. unfold worker_cost. csimpl. lia.
    + discriminate.
  - unfold worker_step in Hstep.
    assert (Hnp : is_poll env e (Worker i) s = false) by done. rewrite Hnp.
    destruct (cs_workers s !! i) as [[|u rest]|] eqn:Hi; [| |discriminate];
      injection Hstep as <-.
    + unfold crawl_measure. crawl_fields.
      pose proof (sum_list_delete_worker _ _ Hi). lia.
    + unfold crawl_measure. crawl_fields.
      pose proof (sum_list_insert_worker _ _ _ _ Hi).
      rewrite (potential_ext (cs_storage s) (add (Some u) (cs_storage s)).1)
        by (intros k; apply add_used_iff).
      lia.
Qed.

(** Work done plus work ahead never exceeds the work ahead at the start. *)
Lemma work_steps_bound sched s :
  crawl_inv env e s →
  work_steps env e sched s + crawl_measure env U (crawl_run env e sched s)
  ≤ crawl_measure env U s.
Proof.
  revert s. induction sched as [|a sched IH]; intros s Hinv; simpl; [lia|].
  destruct (crawl_step env e a s) as [s'|] eqn:E; simpl.
  - pose proof (crawl_step_measure a s s' Hinv E) as Hm.
    pose proof (IH s' (crawl_step_inv env e a s s' Hinv E)) as IHs.
    destruct (is_poll env e a s); lia.
  - by apply IH.
Qed.

(** All keys of the registry are among the reachable canonical strings. *)
Lemma crawl_entries_bound s :
  crawl_inv env e s → (count (cs_storage s)).1 ≤ length U.
Proof.
  intros Hinv. simpl. rewrite <- size_dom.
  rewrite <- (size_list_to_set (C := gset string) U U_nodup).
  apply subseteq_size. intros k Hk. apply elem_of_list_to_set.
  apply elem_of_dom in Hk. apply (wf_dom _ (ci_wf env e s Hinv)) in Hk as [v Hv].
  rewrite <- (wf_key _ (ci_wf env e s Hinv) _ _ Hv).
  apply U_covers. eapply ci_reach; eauto.
Qed.

Lemma crawl_drive_returned fuel s :
  cs_pc s = Returned → crawl_drive env e fuel s = s.
Proof. intros H. destruct fuel; simpl; [done|]. by rewrite H. Qed.

(** In a state that has not returned, the actor picked by [next_actor]
    can move when the capacity of [guard] is positive. *)
Lemma next_actor_moves s :
  (0 < paramax e)%Z → crawl_inv env e s → cs_pc s ≠ Returned →
  ∃ s', crawl_step env e (next_actor s) s = Some s'.
Proof.
  intros HP Hinv Hpc. unfold next_actor.
  destruct (cs_workers s) as [|w ws] eqn:Hws.
  - simpl. unfold coordinator_step.
    destruct (cs_pc s) as [| |u|] eqn:E; [| | |done].
    + destruct (use (cs_storage s)) as [[u found] us'] eqn:Hu.
      destruct found.
      * destruct (use_found _ _ _ _ (ci_wf env e s Hinv) Hu eq_refl)
          as (v & -> & _). eauto.
      * destruct u; eauto.
    + eauto.
    + assert ((Z.of_nat (length (cs_workers s)) <? paramax e)%Z = true) as ->
        by (rewrite Hws; apply Z.ltb_lt; simpl; lia).
      eauto.
  - simpl. unfold worker_step. rewrite Hws. simpl. destruct w; eauto.
Qed.

Lemma crawl_drive_more fuel s :
  cs_pc (crawl_drive env e fuel s) = Returned →
  cs_pc (crawl_drive env e (S fuel) s) = Returned.
Proof.
  revert s. induction fuel as [|n IH]; intros s H.
  - simpl in H. simpl. by rewrite H.
  - change (crawl_drive env e (S (S n)) s) with
      (match cs_pc s with
       | Returned => s
       | _ => crawl_drive env e (S n)
                (default s (crawl_step env e (next_actor s) s))
       end).
    simpl in H. destruct (cs_pc s) eqn:E; try done; by apply IH.
Qed.

Lemma crawl_drive_terminates m s :
  (0 < paramax e)%Z → crawl_inv env e s → crawl_measure env U s ≤ m →
  cs_pc (crawl_drive env e (2 * m) s) = Returned.
Proof.
  intros HP. revert s. induction m as [|m IH]; intros s Hinv Hm.
  - destruct (cs_pc s) eqn:E; try (unfold crawl_measure in Hm; rewrite E in Hm; lia).
    by rewrite crawl_drive_returned.
  - destruct (decide (cs_pc s = Returned)) as [Hr|Hnr];
      [by rewrite crawl_drive_returned|].
    replace (2 * S m) with (S (S (2 * m))) by lia.
    destruct (next_actor_moves s HP Hinv Hnr) as [s1 Hs1].
    pose proof (crawl_step_inv env e _ s s1 Hinv Hs1) as Hinv1.
    pose proof (crawl_step_measure _ s s1 Hinv Hs1) as Hm1.
    assert (Hd : crawl_drive env e (S (S (2 * m))) s
                 = crawl_drive env e (S (2 * m)) s1).
    { simpl. destruct (cs_pc s); try done; by rewrite Hs1. }
    rewrite Hd. clear Hd.
    destruct (is_poll env e (next_actor s) s) eqn:Hpoll.
    + (* a poll: the coordinator is alone and finds nothing *)
      unfold next_actor in *. destruct (cs_workers s) as [|w ws] eqn:Hws;
        [|by destruct (cs_pc s)].
      simpl in Hs1. unfold coordinator_step in Hs1. unfold is_poll in Hpoll.
      destruct (cs_pc s) as [| |u|] eqn:E; try done.
      * destruct (use (cs_storage s)) as [[u found] us'] eqn:Hu. simpl in Hpoll.
        destruct found; [done|].
        assert (cs_pc s1 = AtCheck ∧ cs_workers s1 = []) as [Hpc1 Hws1]
          by (destruct u; injection Hs1 as <-; by rewrite Hws).
        destruct (decide (cs_pc s1 = Returned)) as [?|Hnr1]; [congruence|].
        destruct (next_actor_moves s1 HP Hinv1 Hnr1) as [s2 Hs2].
        assert (cs_pc s2 = Returned).
        { unfold next_actor in Hs2. rewrite Hws1 in Hs2. simpl in Hs2.
          unfold coordinator_step in Hs2. rewrite Hpc1, Hws1 in Hs2.
          by injection Hs2 as <-. }
        simpl. rewrite Hpc1, Hs2. simpl. by rewrite crawl_drive_returned.
      * rewrite Hws in Hpoll. by rewrite bool_decide_eq_true_2 in Hpoll.
    + assert (Hle : crawl_measure env U s1 ≤ m) by lia.
      apply crawl_drive_more, IH; done.
Qed.

End Termination.

(** ** The crawl coordinator: theorems *)

Lemma newEngine_fresh env opts e :
  newEngine env opts = EngineOk e →
  urlStorage e = newUrlStorage ∧ docStorage e = ∅
  ∧ docTypes e = opt_Type opts ∧ forallb Is (docTypes e) = true.
Proof.
  unfold newEngine. destruct (forallb Is (opt_Type opts)) eqn:E; [|discriminate].
  destruct (url_ParseRequestURI env (opt_Site opts)); [|discriminate].
  by intros [= <-].
Qed.

Lemma spawned_nodup env e s :
  crawl_inv env e s → NoDup (URL_String <$> cs_spawned s).
Proof.
  intros Hinv.
  assert (Hsub : sublist (cs_spawned s) (cs_acquired s)).
  { etrans; [|apply (sublist_filter (λ v, crawlable (url e) v = true))].
    rewrite <- (ci_spawned env e s Hinv). by apply sublist_inserts_r. }
  eapply sublist_NoDup; [apply (ci_acq_nodup env e s Hinv)|].
  by apply fmap_sublist.
Qed.

Lemma spawned_crawlable env e s v :
  crawl_inv env e s → v ∈ cs_spawned s → crawlable (url e) v = true.
Proof.
  intros Hinv Hv.
  assert (Hin : v ∈ filter (λ v, crawlable (url e) v = true) (cs_acquired s)).
  { rewrite <- (ci_spawned env e s Hinv). apply elem_of_app. by left. }
  by apply list_elem_of_filter in Hin as [? _].
Qed.

Lemma crawl_step_acquired env e a s s' v :
  crawl_step env e a s = Some s' → v ∈ cs_acquired s → v ∈ cs_acquired s'.
Proof.
  intros Hstep Hv. destruct a as [|i]; simpl in Hstep.
  - unfold coordinator_step in Hstep. destruct (cs_pc s).
    + destruct (use (cs_storage s)) as [[[u|] [|]] us']; try discriminate;
        injection Hstep as <-; crawl_fields; try done.
      apply elem_of_app. by left.
    + by injection Hstep as <-.
    + destruct (Z.of_nat (length (cs_workers s)) <? paramax e)%Z; [|discriminate].
      by injection Hstep as <-.
    + discriminate.
  - unfold worker_step in Hstep.
    destruct (cs_workers s !! i) as [[|u rest]|]; [| |discriminate];
      by injection Hstep as <-.
Qed.

Lemma crawl_run_acquired env e sched s v :
  v ∈ cs_acquired s → v ∈ cs_acquired (crawl_run env e sched s).
Proof.
  revert s. induction sched as [|a sched IH]; intros s Hv; [done|].
  simpl. apply IH. destruct (crawl_step env e a s) eqn:E; simpl; [|done].
  by eapply crawl_step_acquired.
Qed.

Lemma fixed_point_returns env e s :
  wf (cs_storage s) → cs_pc s = AtUse → cs_workers s = [] →
  (∀ k, ¬ unused (cs_storage s) k) →
  cs_pc (crawl_run env e [Coordinator; Coordinator] s) = Returned.
Proof.
  intros Hwf Hpc Hws Hno.
  assert (H1 : coordinator_step env e s
               = Some {| cs_storage := cs_storage s; cs_pc := AtCheck;
                         cs_workers := cs_workers s;
                         cs_acquired := cs_acquired s;
                         cs_spawned := cs_spawned s |}).
  { unfold coordinator_step. by rewrite Hpc, (use_exhausted _ Hno Hwf). }
  cbn [crawl_run crawl_step]. rewrite H1. cbn [default from_option].
  unfold coordinator_step. crawl_fields. by rewrite Hws.
Qed.

Lemma elem_of_getAllUrls us v :
  v ∈ getAllUrls us ↔ ∃ k, urlObjects us !! k = Some v.
Proof.
  unfold getAllUrls. rewrite list_elem_of_fmap. split.
  - intros [[k w] [-> Hin]]. exists k. by apply elem_of_map_to_list.
  - intros [k Hk]. exists (k, v). split; [done|]. by apply elem_of_map_to_list.
Qed.

(** C3, as amended.  For an engine made by [newEngine] with a positive
    [paramax] and a site whose URLs reachable from the start page have
    finitely many canonical strings [U]: under every schedule of the
    coordinator and the workers, the registry never holds more than
    [length U] entries, the number of steps other than polls is bounded by
    the measure of the initial state, some actor can always move until the
    loop has returned, letting the goroutines run to completion reaches
    the return, and a coordinator that finds no unused entry and no worker
    in flight returns.  No registry entry is handed to a worker twice, and
    a worker's [add] leaves entries already present untouched. *)
Theorem crawl_terminates (env : Env) (opts : tOpts) (e : tEngine) (U : list string) :
  newEngine env opts = EngineOk e →
  (0 < paramax e)%Z →
  NoDup U →
  (∀ v, reachable env e v → URL_String v ∈ U) →
  ∃ s0, crawl_init env e = Some s0 ∧
    ∀ sched, let s := crawl_run env e sched s0 in
      (count (cs_storage s)).1 ≤ length U
      ∧ work_steps env e sched s0 ≤ crawl_measure env U s0
      ∧ cs_pc (crawl_drive env e (2 * crawl_measure env U s0) s) = Returned
      ∧ (cs_pc s ≠ Returned → is_Some (crawl_step env e (next_actor s) s))
      ∧ (cs_pc s = AtUse → cs_workers s = [] →
         (∀ k, ¬ unused (cs_storage s) k) →
         cs_pc (crawl_run env e [Coordinator; Coordinator] s) = Returned)
      ∧ NoDup (URL_String <$> cs_spawned s)
      ∧ (∀ i s' k, worker_step i s = Some s' →
                   is_Some (urlStatus (cs_storage s) !! k) →
                   urlStatus (cs_storage s') !! k = urlStatus (cs_storage s) !! k
                   ∧ urlObjects (cs_storage s') !! k = urlObjects (cs_storage s) !! k).
Proof.
  intros Hnew HP Hnd Hcov.
  destruct (newEngine_fresh _ _ _ Hnew) as (Hst & _).
  assert (Hinit : ∃ s0, crawl_init env e = Some s0).
  { unfold crawl_init. destruct (paramax e <? 0)%Z eqn:E; [|eauto].
    apply Z.ltb_lt in E. lia. }
  destruct Hinit as [s0 Hs0]. exists s0. split; [done|].
  pose proof (crawl_init_inv env e s0 Hst Hs0) as Hinv0.
  intros sched s.
  pose proof (crawl_run_inv env e sched s0 Hinv0) as Hinv. fold s in Hinv.
  pose proof (work_steps_bound env e U Hnd Hcov sched s0 Hinv0) as Hwork. fold s in Hwork.
  repeat split.
  - by apply (crawl_entries_bound env e U Hnd Hcov).
  - lia.
  - assert (Hle : crawl_measure env U s ≤ crawl_measure env U s0) by lia.
    by apply (crawl_drive_terminates env e U Hnd Hcov).
  - intros Hpc. destruct (next_actor_moves env e s HP Hinv Hpc) as [s' ->]. eauto.
  - intros Hpc Hws Hno. by apply fixed_point_returns; [apply Hinv|..].
  - by eapply spawned_nodup.
  - unfold worker_step in H.
    destruct (cs_workers s !! i) as [[|u rest]|]; [| |discriminate];
      injection H as <-; [done|]. crawl_fields. simpl.
    destruct (urlStatus (cs_storage s) !! URL_String u) eqn:E; simpl; [done|].
    apply lookup_insert_ne. intros <-. destruct H0 as [? ?]. congruence.
  - unfold worker_step in H.
    destruct (cs_workers s !! i) as [[|u rest]|]; [| |discriminate];
      injection H as <-; [done|]. crawl_fields. simpl.
    destruct (urlStatus (cs_storage s) !! URL_String u) eqn:E; simpl; [done|].
    apply lookup_insert_ne. intros <-. destruct H0 as [? ?]. congruence.
Qed.

Lemma crawl_run_objects env e sched s k v :
  crawl_inv env e s → urlObjects (cs_storage s) !! k = Some v →
  urlObjects (cs_storage (crawl_run env e sched s)) !! k = Some v.
Proof.
  revert s. induction sched as [|a sched IH]; intros s Hinv Hk; [done|].
  simpl. destruct (crawl_step env e a s) as [s1|] eqn:E; simpl; [|by apply IH].
  apply IH; [by eapply crawl_step_inv|].
  destruct a as [|i]; simpl in E.
  - unfold coordinator_step in E. destruct (cs_pc s).
    + destruct (use (cs_storage s)) as [[u found] us'] eqn:Hu.
      destruct found.
      * destruct (use_found _ _ _ _ (ci_wf env e s Hinv) Hu eq_refl)
          as (w & -> & _ & _ & Hob).
        injection E as <-. crawl_fields. by rewrite Hob.
      * apply use_not_found_same in Hu as ->.
        destruct u; by injection E as <-.
    + by injection E as <-.
    + destruct (Z.of_nat (length (cs_workers s)) <? paramax e)%Z; [|discriminate].
      by injection E as <-.
    + discriminate.
  - unfold worker_step in E.
    destruct (cs_workers s !! i) as [[|u rest]|]; [| |discriminate];
      injection E as <-; [done|].
    crawl_fields. apply add_objects_stay; [apply (ci_wf env e s Hinv)|done].
Qed.

(** C4. Under every schedule, a URL is handed to an extraction worker only
    if its scheme is [http] or [https] and its hostname equals that of the
    start URL; an acquired URL that passes this filter is spawned or is
    the pending send.  An acquired URL that fails the filter is never
    spawned afterwards, stays marked used, and stays among the URLs that
    [getAllUrls] enumerates; every entry of the registry, whatever its
    host, persists. *)
Theorem crawl_expands_only_same_host_http (env : Env) (opts : tOpts) (e : tEngine) (s0 : crawl_state) :
  newEngine env opts = EngineOk e →
  crawl_init env e = Some s0 →
  ∀ sched, let s := crawl_run env e sched s0 in
    (∀ v, v ∈ cs_spawned s →
          (Scheme v = "http" ∨ Scheme v = "https")
          ∧ Hostname v = Hostname (url e))
    ∧ (∀ v, v ∈ cs_acquired s → crawlable (url e) v = true →
            v ∈ cs_spawned s ∨ cs_pc s = AtSend v)
    ∧ (∀ v, v ∈ cs_acquired s → crawlable (url e) v = false →
            ∀ sched', let s' := crawl_run env e sched' s in
              (v ∉ cs_spawned s')
              ∧ check (Some v) (cs_storage s') = (true, true)
              ∧ v ∈ getAllUrls (cs_storage s'))
    ∧ (∀ k v, urlObjects (cs_storage s) !! k = Some v →
              ∀ sched', v ∈ getAllUrls (cs_storage (crawl_run env e sched' s))).
Proof.
  intros Hnew Hs0 sched s.
  destruct (newEngine_fresh _ _ _ Hnew) as (Hst & _).
  pose proof (crawl_init_inv env e s0 Hst Hs0) as Hinv0.
  pose proof (crawl_run_inv env e sched s0 Hinv0) as Hinv. fold s in Hinv.
  split; [|split; [|split]].
  - intros v Hv. pose proof (spawned_crawlable env e s v Hinv Hv) as Hc.
    unfold crawlable, isValidScheme in Hc.
    apply andb_true_iff in Hc as [Hs Hh]. apply orb_true_iff in Hs.
    rewrite !String.eqb_eq in Hs. apply String.eqb_eq in Hh. auto.
  - intros v Hv Hc.
    assert (Hin : v ∈ filter (λ v, crawlable (url e) v = true) (cs_acquired s))
      by (by apply list_elem_of_filter).
    rewrite <- (ci_spawned env e s Hinv) in Hin.
    apply elem_of_app in Hin as [?|Hin]; [by left|]. right.
    destruct (cs_pc s); try (by inversion Hin).
    by apply list_elem_of_singleton in Hin as ->.
  - intros v Hv Hc sched' s'.
    pose proof (crawl_run_inv env e sched' s Hinv) as Hinv'. fold s' in Hinv'.
    pose proof (crawl_run_acquired env e sched' s v Hv) as Hv'. fold s' in Hv'.
    destruct (ci_acq env e s' Hinv' v Hv') as [Hused Hobj].
    split; [|split].
    + intros Hsp. apply (spawned_crawlable env e s' v Hinv') in Hsp. congruence.
    + simpl. by rewrite Hused.
    + apply elem_of_getAllUrls. eauto.
  - intros k v Hk sched'. apply elem_of_getAllUrls. exists k.
    by apply crawl_run_objects.
Qed.

(** The demo site: every reachable URL has one of the six canonical
    strings of [Demo.universe]. *)
Lemma demo_reachable_universe v :
  reachable Demo.env Demo.engine v → URL_String v ∈ Demo.universe.
Proof.
  intros H. induction H as [v Hv|w v Hw IH Hc Hv].
  - vm_compute in Hv. unfold Demo.universe.
    repeat (apply elem_of_cons in Hv as [->|Hv]; [vm_compute; set_solver|]).
    inversion Hv.
  - unfold Demo.universe in IH.
    repeat (apply elem_of_cons in IH as [IH|IH];
            [rewrite IH in Hv; vm_compute in Hv;
             repeat (apply elem_of_cons in Hv as [->|Hv]; [vm_compute; set_solver|]);
             inversion Hv|]).
    inversion IH.
Qed.

Lemma crawl_terminates_witness :
  newEngine Demo.env Demo.opts = EngineOk Demo.engine
  ∧ (0 < paramax Demo.engine)%Z
  ∧ NoDup Demo.universe
  ∧ (∀ v, reachable Demo.env Demo.engine v → URL_String v ∈ Demo.universe)
  ∧ ∃ s0, crawl_init Demo.env Demo.engine = Some s0 ∧
      ∀ sched, let s := crawl_run Demo.env Demo.engine sched s0 in
        (count (cs_storage s)).1 ≤ length Demo.universe
        ∧ work_steps Demo.env Demo.engine sched s0
          ≤ crawl_measure Demo.env Demo.universe s0
        ∧ cs_pc (crawl_drive Demo.env Demo.engine
                   (2 * crawl_measure Demo.env Demo.universe s0) s) = Returned
        ∧ (cs_pc s ≠ Returned →
           is_Some (crawl_step Demo.env Demo.engine (next_actor s) s))
        ∧ (cs_pc s = AtUse → cs_workers s = [] →
           (∀ k, ¬ unused (cs_storage s) k) →
           cs_pc (crawl_run Demo.env Demo.engine [Coordinator; Coordinator] s)
           = Returned)
        ∧ NoDup (URL_String <$> cs_spawned s)
        ∧ (∀ i s' k, worker_step i s = Some s' →
                     is_Some (urlStatus (cs_storage s) !! k) →
                     urlStatus (cs_storage s') !! k = urlStatus (cs_storage s) !! k
                     ∧ urlObjects (cs_storage s') !! k
                       = urlObjects (cs_storage s) !! k).
Proof.
  assert (H1 : newEngine Demo.env Demo.opts = EngineOk Demo.engine) by reflexivity.
  assert (H2 : (0 < paramax Demo.engine)%Z) by (simpl; lia).
  assert (H3 : NoDup Demo.universe)
    by (apply (bool_decide_unpack _); vm_compute; exact I).
  split; [exact H1|]. split; [exact H2|]. split; [exact H3|].
  split; [exact demo_reachable_universe|].
  exact (crawl_terminates Demo.env Demo.opts Demo.engine Demo.universe
           H1 H2 H3 demo_reachable_universe).
Defined.

Example demo_crawl_returns :
  let s := crawl_drive Demo.env Demo.engine 64 Demo.start in
  cs_pc s = Returned
  ∧ URL_String <$> cs_spawned s
    = ["http://h/a.html"; "http://h/b.pdf?v=1"; "http://h/"; "http://h/doc.pdf"]
  ∧ (count (cs_storage s)) = (6, 6).
Proof. vm_compute. done. Qed.

Lemma crawl_expands_only_same_host_http_witness :
  newEngine Demo.env Demo.opts = EngineOk Demo.engine
  ∧ crawl_init Demo.env Demo.engine = Some Demo.start
  ∧ ∀ sched, let s := crawl_run Demo.env Demo.engine sched Demo.start in
      (∀ v, v ∈ cs_spawned s →
            (Scheme v = "http" ∨ Scheme v = "https")
            ∧ Hostname v = Hostname (url Demo.engine))
      ∧ (∀ v, v ∈ cs_acquired s → crawlable (url Demo.engine) v = true →
              v ∈ cs_spawned s ∨ cs_pc s = AtSend v)
      ∧ (∀ v, v ∈ cs_acquired s → crawlable (url Demo.engine) v = false →
              ∀ sched', let s' := crawl_run Demo.env Demo.engine sched' s in
                (v ∉ cs_spawned s')
                ∧ check (Some v) (cs_storage s') = (true, true)
                ∧ v ∈ getAllUrls (cs_storage s'))
      ∧ (∀ k v, urlObjects (cs_storage s) !! k = Some v →
                ∀ sched', v ∈ getAllUrls
                                (cs_storage (crawl_run Demo.env Demo.engine sched' s))).
Proof.
  split; [reflexivity|]. split; [reflexivity|].
  apply (crawl_expands_only_same_host_http Demo.env Demo.opts Demo.engine Demo.start);
    reflexivity.
Defined.

(** On the demo site the [ftp] URL and the URL on the other host are
    acquired, never spawned, and still enumerated. *)
Example demo_off_host_not_expanded :
  let s := crawl_drive Demo.env Demo.engine 64 Demo.start in
  let off := mkURL "http" "other" "/x.pdf" "" "" in
  off ∈ cs_acquired s ∧ (off ∉ cs_spawned s) ∧ off ∈ getAllUrls (cs_storage s)
  ∧ check (Some off) (cs_storage s) = (true, true).
Proof.
  vm_compute. repeat split; try set_solver.
Qed.

(** C3 as stated fails on the demo site.  Its start page links to itself:
    [harv] runs on the start URL before the loop and again in a worker,
    once the link has put the start URL into the registry.  And under
    [Demo.early_return_schedule] the loop returns while an entry is still
    unused: the coordinator's [use] finds nothing, then a worker adds a new
    URL and ends, then the coordinator reads an empty [guard]. *)
Lemma start_page_revisited_and_early_return :
  let s := crawl_drive Demo.env Demo.engine 64 Demo.start in
  let s' := crawl_run Demo.env Demo.engine Demo.early_return_schedule Demo.start in
  newEngine Demo.env Demo.opts = EngineOk Demo.engine
  ∧ crawl_init Demo.env Demo.engine = Some Demo.start
  ∧ url Demo.engine ∈ harv_adds Demo.env (URL_String (url Demo.engine))
  ∧ cs_pc s = Returned
  ∧ URL_String <$> harvested Demo.engine s
    = ["http://h/"; "http://h/a.html"; "http://h/b.pdf?v=1"; "http://h/";
       "http://h/doc.pdf"]
  ∧ ¬ NoDup (URL_String <$> harvested Demo.engine s)
  ∧ cs_pc s' = Returned
  ∧ cs_workers s' = []
  ∧ unused (cs_storage s') "http://h/b.pdf?v=1".
Proof.
  intros s s'.
  split; [reflexivity|]. split; [reflexivity|].
  split; [apply list_elem_of_lookup; exists 3; vm_compute; reflexivity|].
  split; [vm_compute; reflexivity|].
  assert (Hh : URL_String <$> harvested Demo.engine s
               = ["http://h/"; "http://h/a.html"; "http://h/b.pdf?v=1"; "http://h/";
                  "http://h/doc.pdf"]) by (vm_compute; reflexivity).
  split; [exact Hh|]. split.
  - rewrite Hh. intros Hnd. apply NoDup_cons in Hnd as [Hnin _].
    apply Hnin. apply list_elem_of_lookup. by exists 2.
  - split; [vm_compute; reflexivity|]. split; [vm_compute; reflexivity|].
    vm_compute. reflexivity.
Qed.

(** With [paramax = 0] the channel is unbuffered: once a URL that passes
    the filter is acquired, the send never completes and no worker exists. *)
Example zero_paramax_blocks :
  let e := {| url := Demo.root; urlStorage := newUrlStorage; docStorage := ∅;
              docTypes := ["pdf"]; outputFileName := ""; paramax := 0 |} in
  let s := crawl_run Demo.env e [Coordinator] Demo.start in
  crawl_init Demo.env e = Some Demo.start
  ∧ cs_pc s = AtSend Demo.page_a
  ∧ cs_workers s = []
  ∧ crawl_step Demo.env e Coordinator s = None.
Proof. vm_compute. repeat split. Qed.

(** ** The size limit of downloads *)

Lemma after_copy_nothing src : copied src = 0%Z → after_copy src = src.
Proof.
  intros H. unfold after_copy. rewrite H, !Z.sub_0_r.
  by destruct src as [[? ? ?] ?].
Qed.

(** The copy loop computes its closed form whenever the fuel covers one
    iteration per buffer of bytes and the final read. *)
Lemma copyBuffer_spec fuel b w src :
  (0 < b)%Z → (copied src ≤ (Z.of_nat fuel - 1) * b)%Z → 1 ≤ fuel →
  copyBuffer fuel b w src = Some ((w + copied src)%Z, copy_err src, after_copy src).
Proof.
  intros Hb. revert w src. induction fuel as [|f IH]; intros w src Hfuel Hf; [lia|].
  cbn [copyBuffer]. unfold LimitedReader_Read.
  destruct (Z.leb_spec (lr_N src) 0) as [HN|HN].
  - assert (Hc : copied src = 0%Z) by (unfold copied; lia).
    cbn. rewrite Hc, Z.add_0_r, after_copy_nothing by done. f_equal. f_equal. f_equal.
    unfold copy_err. destruct (Z.ltb_spec 0 (lr_N src)); [lia|done].
  - unfold Body_Read. destruct (Z.leb_spec (body_size (lr_R src)) 0) as [HS|HS].
    + assert (Hc : copied src = 0%Z) by (unfold copied; lia).
      cbn. rewrite Hc, Z.add_0_r. unfold copy_err.
      destruct (Z.ltb_spec 0 (lr_N src)); [|lia].
      destruct (Z.ltb_spec (body_size (lr_R src)) (lr_N src)); [|lia].
      unfold after_copy. rewrite Hc, !Z.sub_0_r.
      destruct src as [[sz pl br] N]; cbn. by destruct br.
    + set (plen := if (b >? lr_N src)%Z then lr_N src else b).
      assert (Hplen : plen = Z.min b (lr_N src)).
      { unfold plen. destruct (Z.gtb_spec b (lr_N src)); lia. }
      set (n := Z.min plen (body_size (lr_R src))).
      assert (Hn : (0 < n)%Z) by (unfold n; lia).
      assert (Hm : copied src = Z.min (body_size (lr_R src)) (lr_N src))
        by (unfold copied; lia).
      cbn. destruct (Z.gtb_spec n 0) as [_|?]; [|lia].
      set (src' := {| lr_R := {| body_size := body_size (lr_R src) - n;
                                 body_payload := body_payload (lr_R src);
                                 body_broken := body_broken (lr_R src) |};
                      lr_N := lr_N src - n |}).
      assert (Hc' : copied src' = (copied src - n)%Z)
        by (unfold copied, src'; cbn; lia).
      rewrite (IH (w + n)%Z src').
      * f_equal. f_equal; [f_equal|].
        -- lia.
        -- unfold copy_err, src'. cbn.
           destruct (Z.ltb_spec 0 (lr_N src)); [|lia].
           destruct (Z.ltb_spec (body_size (lr_R src)) (lr_N src)).
           ++ destruct (Z.ltb_spec 0 (lr_N src - n)); [|lia].
              destruct (Z.ltb_spec (body_size (lr_R src) - n) (lr_N src - n)); [done|lia].
           ++ destruct (Z.ltb_spec (body_size (lr_R src) - n) (lr_N src - n)); [lia|].
              by rewrite !andb_false_r.
        -- unfold after_copy. rewrite Hc'. unfold src'. cbn. f_equal; [f_equal|]; lia.
      * rewrite Hc'.
        assert (Hn2 : n = Z.min b (copied src)) by (unfold n; lia).
        destruct f as [|f']; [cbn in Hfuel; lia|].
        rewrite Nat2Z.inj_succ in *.
        destruct (Z.le_gt_cases b (copied src)).
        -- assert (n = b) by lia. nia.
        -- assert (n = copied src) by lia. nia.
      * destruct f; [|lia]. exfalso. cbn in Hfuel. lia.
Qed.

Lemma copy_bufsize_pos src : (0 < copy_bufsize src)%Z.
Proof.
  unfold copy_bufsize. destruct (Z.gtb_spec (32 * 1024) (lr_N src)); [|lia].
  destruct (Z.ltb_spec (lr_N src) 1); lia.
Qed.

(** [io.Copy] never runs out of fuel. *)
Lemma io_Copy_spec src :
  io_Copy src = Some (copied src, copy_err src, after_copy src).
Proof.
  unfold io_Copy. rewrite copyBuffer_spec.
  - done.
  - apply copy_bufsize_pos.
  - unfold copy_fuel. pose proof (copy_bufsize_pos src) as Hb.
    set (b := copy_bufsize src) in *.
    set (m := Z.min (body_size (lr_R src)) (lr_N src)).
    assert (Hc : copied src = Z.max 0 m) by done. rewrite Hc.
    destruct (Z.le_gt_cases 0 m) as [Hm|Hm].
    + pose proof (Z.div_pos m b Hm Hb) as Hq.
      pose proof (Z.mod_pos_bound m b Hb) as Hr.
      pose proof (Z.div_mod m b ltac:(lia)) as Hd.
      rewrite Nat2Z.inj_add, Z2Nat.id by done. nia.
    + assert (Hq : (m / b < 0)%Z) by (apply Z.div_lt_upper_bound; lia).
      rewrite Z2Nat.nonpos by lia. nia.
  - unfold copy_fuel. lia.
Qed.

Lemma filter_all {A} (P : A → Prop) `{∀ x, Decision (P x)} (l : list A) :
  Forall P l → filter P l = l.
Proof.
  induction 1 as [|x l Hx Hl IH]; [done|].
  rewrite filter_cons, decide_True by done. by rewrite IH.
Qed.

Lemma remove_created fs name n payload :
  fs_ok fs → name = fs_next fs →
  fs_files
    (os_Remove name
       (write_tmp name n payload
          {| fs_files := fs_files fs ++ [mkTmp name 0 ""];
             fs_next := S name; fs_can_create := fs_can_create fs |})).2
  = fs_files fs.
Proof.
  intros Hok ->. unfold os_Remove, write_tmp. cbn [fs_files fs_next fs_can_create].
  set (upd := λ f, if has_name (fs_next fs) f then mkTmp (fs_next fs) n payload else f).
  assert (Hold : upd <$> fs_files fs = fs_files fs).
  { rewrite <- (list_fmap_id (fs_files fs)) at 2. apply Forall_fmap_ext_1.
    eapply Forall_impl; [exact Hok|]. intros f Hf. unfold upd, has_name.
    cbn in *. destruct (Nat.eqb_spec (tmp_name f) (fs_next fs)); [lia|done]. }
  rewrite fmap_app, Hold. cbn [fmap list_fmap].
  assert (Hnew : upd (mkTmp (fs_next fs) 0 "") = mkTmp (fs_next fs) n payload).
  { unfold upd, has_name. cbn. by rewrite Nat.eqb_refl. }
  rewrite Hnew.
  assert (Hex : existsb (has_name (fs_next fs))
                  (fs_files fs ++ [mkTmp (fs_next fs) n payload]) = true).
  { rewrite existsb_app. cbn [existsb]. unfold has_name at 2. cbn [tmp_name].
    by rewrite Nat.eqb_refl, !orb_true_r. }
  rewrite Hex. cbn [snd fs_files]. rewrite filter_app.
  rewrite filter_cons, filter_nil. cbn [tmp_name].
  rewrite decide_False by (intros H; by apply H). rewrite app_nil_r.
  apply filter_all. eapply Forall_impl; [exact Hok|].
  intros f Hf. cbn in *. lia.
Qed.

Lemma readCloser_oversize rc fs :
  fs_ok fs → (maxFileSize ≤ body_size rc)%Z →
  ∃ fs', readCloserToReadSeekerFile rc fs
         = Some (inl (if fs_can_create fs then ErrTooLarge maxFileSize
                      else ErrCreateTemp), fs')
         ∧ fs_files fs' = fs_files fs.
Proof.
  intros Hok Hsize. unfold readCloserToReadSeekerFile, os_CreateTemp.
  destruct (fs_can_create fs) eqn:Hc; [|eauto].
  rewrite io_Copy_spec.
  assert (Hmax : (0 < maxFileSize)%Z) by done.
  assert (Hcop : copied {| lr_R := rc; lr_N := maxFileSize |} = maxFileSize)
    by (unfold copied; cbn [lr_R lr_N]; lia).
  assert (Herr : copy_err {| lr_R := rc; lr_N := maxFileSize |} = None).
  { unfold copy_err. cbn [lr_R lr_N].
    destruct (Z.ltb_spec (body_size rc) maxFileSize); [lia|].
    by rewrite andb_false_r. }
  rewrite Herr. unfold after_copy at 1. cbn [lr_N lr_R]. rewrite Hcop, Z.sub_diag.
  cbn [Z.eqb]. eexists. split; [reflexivity|].
  rewrite <- Hc. by apply remove_created.
Qed.

Lemma readCloser_accepts rc fs :
  fs_can_create fs = true → (0 ≤ body_size rc < maxFileSize)%Z →
  body_broken rc = false →
  ∃ fs', readCloserToReadSeekerFile rc fs
         = Some (inr (mkTmp (fs_next fs) (body_size rc) (body_payload rc)), fs').
Proof.
  intros Hc Hsize Hbr. unfold readCloserToReadSeekerFile, os_CreateTemp.
  rewrite Hc, io_Copy_spec.
  assert (Hcop : copied {| lr_R := rc; lr_N := maxFileSize |} = body_size rc)
    by (unfold copied; cbn [lr_R lr_N]; lia).
  assert (Herr : copy_err {| lr_R := rc; lr_N := maxFileSize |} = None).
  { unfold copy_err. cbn [lr_R lr_N]. rewrite Hbr. by rewrite andb_false_r. }
  rewrite Herr. unfold after_copy at 1. cbn [lr_N lr_R]. rewrite Hcop.
  destruct (Z.eqb_spec (maxFileSize - body_size rc) 0); [lia|]. eauto.
Qed.

Lemma readCloser_total rc fs :
  ∃ res, readCloserToReadSeekerFile rc fs = Some res.
Proof.
  unfold readCloserToReadSeekerFile.
  destruct (os_CreateTemp fs) as [[tmpFile fs1]|]; [|eauto].
  rewrite io_Copy_spec.
  destruct (copy_err _); [eauto|]. destruct (_ =? 0)%Z; eauto.
Qed.

Lemma Do_total env r url fs : ∃ res, Do env r url fs = Some res.
Proof.
  destruct r as [pdf|msox]; cbn [Do].
  - unfold pdf_Do. destruct (client_Get env url) as [resp|]; [|eauto].
    destruct (negb (StatusCode resp =? 200)%Z); [eauto|].
    destruct (readCloser_total (RespBody resp) fs) as [[[err|f] fs'] ->]; [eauto|].
    destruct (api_PDFInfo env (tmp_payload f)); [|eauto].
    destruct (os_Remove (tmp_name f) fs') as [[err|] fs'']; eauto.
  - unfold msox_Do. destruct (client_Get env url) as [resp|]; [|eauto].
    destruct (negb (StatusCode resp =? 200)%Z); [eauto|].
    destruct (readCloser_total (RespBody resp) fs) as [[[err|f] fs'] ->]; [eauto|].
    destruct (zip_OpenReader env (tmp_payload f)) as [files|]; [|eauto].
    destruct (msox_files env files _) as [msox' [err|]]; [eauto|].
    destruct (os_Remove (tmp_name f) fs') as [[err|] fs'']; eauto.
Qed.

Lemma Do_oversize env r url resp fs :
  fs_ok fs → client_Get env url = Some resp → StatusCode resp = 200%Z →
  (maxFileSize ≤ body_size (RespBody resp))%Z →
  ∃ r' err fs', Do env r url fs = Some (r', Some err, fs')
                ∧ fs_files fs' = fs_files fs.
Proof.
  intros Hok Hget Hst Hsize.
  destruct (readCloser_oversize (RespBody resp) fs Hok Hsize) as (fs' & Hrc & Hfs).
  destruct r as [pdf|msox]; cbn [Do].
  - unfold pdf_Do. rewrite Hget, Hst. cbn [Z.eqb Pos.eqb negb]. rewrite Hrc. eauto 6.
  - unfold msox_Do. rewrite Hget, Hst. cbn [Z.eqb Pos.eqb negb]. rewrite Hrc. eauto 6.
Qed.

(** C8. A document fetched with status 200 whose body is longer than
    [maxFileSize]: [Do] of either researcher returns an error and leaves
    the temporary directory as it found it, and the analyser goroutine for
    that URL adds nothing to the result store.  The goroutine treats every
    error of [Do] alike: whenever [Do] returns one, the store is unchanged. *)
Theorem oversized_document_is_dropped (env : Env) (types : list string) (u : URL) (resp : Response) (a : analysis) :
  fs_ok (an_fs a) →
  client_Get env (URL_String u) = Some resp →
  StatusCode resp = 200%Z →
  (maxFileSize < body_size (RespBody resp))%Z →
  forallb Is types = true →
  (∀ r, ∃ r' err fs',
        Do env r (URL_String u) (an_fs a) = Some (r', Some err, fs')
        ∧ fs_files fs' = fs_files (an_fs a))
  ∧ (∃ a', analyse_url env types u a = Finished a'
           ∧ an_docs a' = an_docs a
           ∧ fs_files (an_fs a') = fs_files (an_fs a))
  ∧ (∀ u0 a0 t eng r' err fs',
        match_type types (URL_String u0) = Some t → New t = Some eng →
        Do env eng (URL_String u0) (an_fs a0) = Some (r', Some err, fs') →
        ∃ a', analyse_url env types u0 a0 = Finished a' ∧ an_docs a' = an_docs a0).
Proof.
  intros Hok Hget Hst Hsize Htypes.
  assert (Hdo : ∀ r, ∃ r' err fs',
             Do env r (URL_String u) (an_fs a) = Some (r', Some err, fs')
             ∧ fs_files fs' = fs_files (an_fs a))
    by (intros r; eapply Do_oversize; eauto; lia).
  split; [done|]. split.
  - unfold analyse_url.
    destruct (match_type types (URL_String u)) as [t|] eqn:Hm; [|eauto].
    assert (Hreg : Is t = true).
    { clear -Hm Htypes. induction types as [|t' types IH]; [discriminate|].
      cbn in Htypes. apply andb_true_iff in Htypes as [Ht' Hrest].
      cbn in Hm. destruct (HasSuffix (URL_String u) ("." +:+ t')).
      - by injection Hm as <-.
      - by apply IH. }
    unfold Is in Hreg. unfold New.
    destruct (allFileTypes !! t) as [f|]; [|discriminate].
    destruct (Hdo (f ())) as (r' & err & fs' & -> & Hfs). eauto.
  - intros u0 a0 t eng r' err fs' Hm Hnew Hdo0. unfold analyse_url.
    rewrite Hm, Hnew, Hdo0. eauto.
Qed.

Lemma fs_ok_demo : fs_ok Demo.fs0.
Proof. constructor. Qed.

Lemma oversized_document_is_dropped_witness :
  let u := mkURL "http" "other" "/x.pdf" "" "" in
  let a := mkAnalysis ∅ Demo.fs0 [] in
  fs_ok (an_fs a)
  ∧ client_Get Demo.env (URL_String u)
    = Some (mkResponse 200 (mkBody (maxFileSize + 1) "pdf-big" false))
  ∧ (maxFileSize < maxFileSize + 1)%Z
  ∧ forallb Is ["pdf"; "docx"] = true
  ∧ (∀ r, ∃ r' err fs',
          Do Demo.env r (URL_String u) (an_fs a) = Some (r', Some err, fs')
          ∧ fs_files fs' = fs_files (an_fs a))
  ∧ (∃ a', analyse_url Demo.env ["pdf"; "docx"] u a = Finished a'
           ∧ an_docs a' = an_docs a
           ∧ fs_files (an_fs a') = fs_files (an_fs a)).
Proof.
  intros u a.
  assert (H1 : fs_ok (an_fs a)) by exact fs_ok_demo.
  assert (H2 : client_Get Demo.env (URL_String u)
               = Some (mkResponse 200 (mkBody (maxFileSize + 1) "pdf-big" false)))
    by reflexivity.
  assert (H3 : (maxFileSize < maxFileSize + 1)%Z) by lia.
  assert (H4 : forallb Is ["pdf"; "docx"] = true) by reflexivity.
  pose proof (oversized_document_is_dropped Demo.env ["pdf"; "docx"] u _ a
                H1 H2 eq_refl H3 H4) as (Ha & Hb & _).
  repeat split; assumption.
Defined.

(** C9. A body of [maxFileSize] bytes or more, the ceiling itself
    included, is rejected: the copy through the [LimitedReader] stops after
    [maxFileSize] bytes with the remaining count at zero, the function
    returns the error (the size error whenever the temporary file could be
    created) and no temporary file is left.  A shorter body that reads
    without error is accepted when the temporary file can be created. *)
Theorem size_limit_includes_the_ceiling (rc : Body) (fs : FS) :
  fs_ok fs →
  ((maxFileSize ≤ body_size rc)%Z →
     (∃ lr', io_Copy {| lr_R := rc; lr_N := maxFileSize |}
             = Some (maxFileSize, None, lr') ∧ lr_N lr' = 0%Z)
     ∧ ∃ err fs', readCloserToReadSeekerFile rc fs = Some (inl err, fs')
                  ∧ fs_files fs' = fs_files fs
                  ∧ (fs_can_create fs = true → err = ErrTooLarge maxFileSize))
  ∧ ((0 ≤ body_size rc < maxFileSize)%Z → body_broken rc = false →
     fs_can_create fs = true →
     ∃ fs', readCloserToReadSeekerFile rc fs
            = Some (inr (mkTmp (fs_next fs) (body_size rc) (body_payload rc)), fs')).
Proof.
  intros Hok. split.
  - intros Hsize. split.
    + assert (Hmax : (0 < maxFileSize)%Z) by done.
      assert (Hcop : copied {| lr_R := rc; lr_N := maxFileSize |} = maxFileSize)
        by (unfold copied; cbn [lr_R lr_N]; lia).
      assert (Herr : copy_err {| lr_R := rc; lr_N := maxFileSize |} = None).
      { unfold copy_err. cbn [lr_R lr_N].
        destruct (Z.ltb_spec (body_size rc) maxFileSize); [lia|].
        by rewrite andb_false_r. }
      rewrite io_Copy_spec, Hcop, Herr. eexists. split; [reflexivity|].
      unfold after_copy. cbn [lr_R lr_N]. rewrite Hcop. lia.
    + destruct (readCloser_oversize rc fs Hok Hsize) as (fs' & Hrc & Hfs).
      eexists _, fs'. split; [exact Hrc|]. split; [done|]. by intros ->.
  - intros Hsize Hbr Hc. by apply readCloser_accepts.
Qed.

Lemma size_limit_includes_the_ceiling_witness :
  let rc := mkBody maxFileSize "exactly-the-ceiling" false in
  fs_ok Demo.fs0
  ∧ (maxFileSize ≤ body_size rc)%Z
  ∧ (∃ lr', io_Copy {| lr_R := rc; lr_N := maxFileSize |}
            = Some (maxFileSize, None, lr') ∧ lr_N lr' = 0%Z)
  ∧ ∃ err fs', readCloserToReadSeekerFile rc Demo.fs0 = Some (inl err, fs')
               ∧ fs_files fs' = fs_files Demo.fs0
               ∧ (fs_can_create Demo.fs0 = true → err = ErrTooLarge maxFileSize).
Proof.
  intros rc.
  assert (H1 : fs_ok Demo.fs0) by exact fs_ok_demo.
  assert (H2 : (maxFileSize ≤ body_size rc)%Z) by (simpl; lia).
  split; [exact H1|]. split; [exact H2|].
  exact (proj1 (size_limit_includes_the_ceiling rc Demo.fs0 H1) H2).
Defined.

Example ceiling_sized_body_rejected :
  readCloserToReadSeekerFile (mkBody (100 * 1024 * 1024) "doc" false) Demo.fs0
  = Some (inl (ErrTooLarge 104857600),
          {| fs_files := []; fs_next := 1; fs_can_create := true |}).
Proof. vm_compute. reflexivity. Qed.

Example below_ceiling_body_accepted :
  readCloserToReadSeekerFile (mkBody (100 * 1024 * 1024 - 1) "doc" false) Demo.fs0
  = Some (inr (mkTmp 0 104857599 "doc"),
          {| fs_files := [mkTmp 0 104857599 "doc"]; fs_next := 1;
             fs_can_create := true |}).
Proof. vm_compute. reflexivity. Qed.

Example size_error_text :
  error_text (ErrTooLarge maxFileSize)
  = "file exceeds maximum allowed size of 104857600 bytes".
Proof. vm_compute. reflexivity. Qed.

(** ** Analyser dispatch *)

Lemma getAllUrls_keys us :
  wf us → URL_String <$> getAllUrls us = (map_to_list (urlObjects us)).*1.
Proof.
  intros Hwf. unfold getAllUrls. rewrite <- list_fmap_compose.
  apply Forall_fmap_ext_1, Forall_forall. intros [k v] Hin. cbn.
  apply elem_of_map_to_list in Hin. by apply (wf_key _ Hwf).
Qed.

Lemma range_keys_nodup us (l : list URL) :
  wf us → l ≡ₚ getAllUrls us → NoDup (URL_String <$> l).
Proof.
  intros Hwf Hp. rewrite Hp, getAllUrls_keys by done.
  apply NoDup_fst_map_to_list.
Qed.

Lemma match_type_Some types s t :
  match_type types s = Some t ↔
  ∃ i, types !! i = Some t ∧ HasSuffix s ("." +:+ t) = true
       ∧ ∀ j t', j < i → types !! j = Some t' → HasSuffix s ("." +:+ t') = false.
Proof.
  induction types as [|t0 types IH]; cbn [match_type].
  - split; [discriminate|]. by intros (i & Hi & _).
  - destruct (HasSuffix s ("." +:+ t0)) eqn:E.
    + split.
      * intros [= <-]. exists 0. repeat split; [done|]. intros j t' Hj. lia.
      * intros ([|i] & Hi & Hs & Hfirst).
        -- by injection Hi as ->.
        -- specialize (Hfirst 0 t0 ltac:(lia) eq_refl). congruence.
    + rewrite IH. split.
      * intros (i & Hi & Hs & Hfirst). exists (S i). repeat split; [done..|].
        intros [|j] t' Hj Hl; [by injection Hl as <-|].
        apply (Hfirst j); [lia|done].
      * intros ([|i] & Hi & Hs & Hfirst).
        -- injection Hi as ->. congruence.
        -- exists i. repeat split; [done..|]. intros j t' Hj Hl.
           apply (Hfirst (S j)); [lia|done].
Qed.

Lemma match_type_None types s :
  match_type types s = None ↔ ∀ t, t ∈ types → HasSuffix s ("." +:+ t) = false.
Proof.
  induction types as [|t0 types IH]; cbn [match_type].
  - split; [|done]. intros _ t Ht. inversion Ht.
  - destruct (HasSuffix s ("." +:+ t0)) eqn:E.
    + split; [discriminate|]. intros H. specialize (H t0 ltac:(left)). congruence.
    + rewrite IH. split.
      * intros H t Ht. apply elem_of_cons in Ht as [->|Ht]; auto.
      * intros H t Ht. apply H. by right.
Qed.

Lemma match_type_registered types s t :
  forallb Is types = true → match_type types s = Some t → Is t = true.
Proof.
  intros Hreg (i & Hi & _)%match_type_Some.
  rewrite forallb_forall in Hreg. apply Hreg.
  apply list_elem_of_In. eapply list_elem_of_lookup_2; eauto.
Qed.

(** The registered types. *)
Lemma Is_registered t :
  Is t = true ↔ t = "pdf" ∨ t = "docx" ∨ t = "xlsx" ∨ t = "pptx".
Proof.
  unfold Is, allFileTypes. cbn [list_to_map foldr fst snd uncurry].
  split.
  - intros H.
    destruct (decide (t = "pdf")) as [->|H1]; [auto|].
    destruct (decide (t = "docx")) as [->|H2]; [auto|].
    destruct (decide (t = "xlsx")) as [->|H3]; [auto|].
    destruct (decide (t = "pptx")) as [->|H4]; [auto|].
    rewrite !lookup_insert_ne, lookup_empty in H by done. discriminate.
  - intros [-> | [-> | [-> | ->]]]; reflexivity.
Qed.

(** One goroutine body, for requested types that are all registered. *)
Lemma analyse_url_spec env types u a :
  forallb Is types = true →
  match match_type types (URL_String u) with
  | None => analyse_url env types u a = Finished a
  | Some t =>
      ∃ eng r err fs',
        New t = Some eng
        ∧ Do env eng (URL_String u) (an_fs a) = Some (r, err, fs')
        ∧ analyse_url env types u a
          = Finished {| an_docs := match err with
                                   | None => <[URL_String u := r]> (an_docs a)
                                   | Some _ => an_docs a
                                   end;
                        an_fs := fs';
                        an_calls := an_calls a ++ [(t, URL_String u)] |}
  end.
Proof.
  intros Hreg. unfold analyse_url.
  destruct (match_type types (URL_String u)) as [t|] eqn:Hm; [|done].
  pose proof (match_type_registered _ _ _ Hreg Hm) as Ht.
  unfold Is in Ht. unfold New.
  destruct (allFileTypes !! t) as [f|]; [|discriminate].
  destruct (Do_total env (f ()) (URL_String u) (an_fs a)) as [[[r err] fs'] Hdo].
  rewrite Hdo. eauto 8.
Qed.

Lemma analyse_url_total env types u a :
  forallb Is types = true → ∃ a', analyse_url env types u a = Finished a'.
Proof.
  intros Hreg. pose proof (analyse_url_spec env types u a Hreg) as H.
  destruct (match_type types (URL_String u)); [|eauto].
  destruct H as (eng & r & err & fs' & _ & _ & ->). eauto.
Qed.

Lemma analyse_all_total env types order a :
  forallb Is types = true → ∃ a', analyse_all env types order a = Finished a'.
Proof.
  intros Hreg. revert a. induction order as [|u order IH]; intros a; [by eexists|].
  cbn [analyse_all].
  destruct (analyse_url_total env types u a Hreg) as [a1 ->]. apply IH.
Qed.

Lemma analyse_all_app env types l1 l2 a :
  analyse_all env types (l1 ++ l2) a
  = match analyse_all env types l1 a with
    | Finished a1 => analyse_all env types l2 a1
    | other => other
    end.
Proof.
  revert a. induction l1 as [|u l1 IH]; intros a; [done|].
  cbn [app analyse_all]. destruct (analyse_url env types u a); done.
Qed.

(** A goroutine body touches no key but its own URL's, and logs its own
    dispatch. *)
Lemma analyse_url_effect env types u a a' :
  analyse_url env types u a = Finished a' →
  (∀ key, key ≠ URL_String u → an_docs a' !! key = an_docs a !! key)
  ∧ an_calls a' = an_calls a ++ option_list (dispatch types u).
Proof.
  unfold analyse_url, dispatch.
  destruct (match_type types (URL_String u)) as [t|].
  - destruct (New t) as [eng|]; [|discriminate].
    destruct (Do env eng (URL_String u) (an_fs a)) as [[[r err] fs']|];
      [|discriminate].
    intros [= <-]. cbn. split; [|done]. intros key Hne.
    destruct err; [done|]. by rewrite lookup_insert_ne.
  - intros [= <-]. cbn. by rewrite app_nil_r.
Qed.

Lemma analyse_all_effect env types order a a' :
  analyse_all env types order a = Finished a' →
  (∀ key, key ∉ URL_String <$> order → an_docs a' !! key = an_docs a !! key)
  ∧ an_calls a' = an_calls a ++ dispatches types order.
Proof.
  revert a. induction order as [|u order IH]; intros a.
  - intros [= <-]. cbn. by rewrite app_nil_r.
  - cbn [analyse_all]. destruct (analyse_url env types u a) as [a1| | |] eqn:E;
      try discriminate.
    intros Hrest. destruct (analyse_url_effect _ _ _ _ _ E) as [Hd1 Hc1].
    destruct (IH _ Hrest) as [Hd2 Hc2]. split.
    + intros key Hkey. rewrite fmap_cons, not_elem_of_cons in Hkey.
      destruct Hkey as [Hne Hnin]. rewrite Hd2, Hd1; done.
    + rewrite Hc2, Hc1, <- app_assoc. f_equal. unfold dispatches. cbn [omap list_omap].
      by destruct (dispatch types u).
Qed.

Lemma dispatches_cons types v order :
  dispatches types (v :: order)
  = option_list (dispatch types v) ++ dispatches types order.
Proof.
  unfold dispatches. cbn [omap list_omap]. by destruct (dispatch types v).
Qed.

Lemma calls_for_own types v :
  calls_for (URL_String v) (option_list (dispatch types v))
  = option_list (dispatch types v).
Proof.
  unfold dispatch, calls_for.
  destruct (match_type types (URL_String v)) as [t|]; [|done].
  change (option_list (Some (t, URL_String v))) with [(t, URL_String v)].
  by rewrite filter_cons, decide_True.
Qed.

Lemma calls_for_other types v key :
  key ≠ URL_String v → calls_for key (option_list (dispatch types v)) = [].
Proof.
  intros Hne. unfold dispatch, calls_for.
  destruct (match_type types (URL_String v)) as [t|]; [|done].
  change (option_list (Some (t, URL_String v))) with [(t, URL_String v)].
  rewrite filter_cons, decide_False; [done|].
  cbn. congruence.
Qed.

Lemma calls_for_absent types order key :
  key ∉ URL_String <$> order → calls_for key (dispatches types order) = [].
Proof.
  induction order as [|x order IH]; [done|].
  rewrite fmap_cons, not_elem_of_cons. intros [Hne Hw].
  rewrite dispatches_cons. unfold calls_for in *.
  rewrite filter_app. fold (calls_for key (option_list (dispatch types x))).
  by rewrite calls_for_other, IH.
Qed.

Lemma calls_for_dispatches types order u :
  NoDup (URL_String <$> order) → u ∈ order →
  calls_for (URL_String u) (dispatches types order)
  = option_list (dispatch types u).
Proof.
  intros Hnd Hin. induction order as [|v order IH]; [inversion Hin|].
  rewrite fmap_cons in Hnd. apply NoDup_cons in Hnd as [Hv Hnd].
  rewrite dispatches_cons. unfold calls_for at 1. rewrite filter_app.
  fold (calls_for (URL_String u) (option_list (dispatch types v))).
  fold (calls_for (URL_String u) (dispatches types order)).
  destruct (decide (URL_String u = URL_String v)) as [Heq|Hne].
  - rewrite Heq, calls_for_own, calls_for_absent, app_nil_r by done.
    unfold dispatch. by rewrite Heq.
  - rewrite calls_for_other by done. cbn [app]. apply IH; [done|].
    apply elem_of_cons in Hin as [->|?]; done.
Qed.

(** A string ending in [.pdf] ends in no other registered extension. *)
Lemma pdf_suffix_only s t :
  HasSuffix s ".pdf" = true → Is t = true → HasSuffix s ("." +:+ t) = true →
  t = "pdf".
Proof.
  intros Hpdf Ht Hs. apply Is_registered in Ht as [-> | [-> | [-> | ->]]]; [done|..].
  all: apply HasSuffix_last_byte in Hpdf; [|done].
  all: apply HasSuffix_last_byte in Hs; [|done].
  all: rewrite Hpdf in Hs; discriminate.
Qed.

Lemma match_type_pdf types s :
  forallb Is types = true → "pdf" ∈ types → HasSuffix s ".pdf" = true →
  match_type types s = Some "pdf".
Proof.
  intros Hreg Hin Hs.
  destruct (match_type types s) as [t|] eqn:Hm.
  - pose proof (match_type_registered _ _ _ Hreg Hm) as Ht.
    apply match_type_Some in Hm as (i & _ & Hst & _).
    f_equal. by eapply pdf_suffix_only.
  - pose proof (proj1 (match_type_None _ _) Hm "pdf" Hin) as H.
    change ("." +:+ "pdf") with ".pdf" in H. congruence.
Qed.

(** The analyser, for an engine whose requested types are registered and
    whose [paramax] is positive: it finishes, and its state is that of the
    goroutine bodies run in [order]. *)
Lemma analyser_finishes env e order fs :
  forallb Is (docTypes e) = true → (0 < paramax e)%Z →
  ∃ a, analyse_all env (docTypes e) order (mkAnalysis (docStorage e) fs [])
       = Finished a
       ∧ analyser env e order fs
         = Finished ({| url := url e; urlStorage := urlStorage e;
                        docStorage := an_docs a; docTypes := docTypes e;
                        outputFileName := outputFileName e;
                        paramax := paramax e |}, an_fs a, an_calls a, None).
Proof.
  intros Hreg HP.
  destruct (analyse_all_total env (docTypes e) order
              (mkAnalysis (docStorage e) fs []) Hreg) as [a Ha].
  exists a. split; [done|]. unfold analyser.
  destruct (Z.ltb_spec (paramax e) 0); [lia|].
  destruct (Z.eqb_spec (paramax e) 0); [lia|]. cbn [andb]. by rewrite Ha.
Qed.

(** C5. For an engine whose requested types are registered and whose
    [paramax] is positive, analysing the URLs of a registry in any order:
    the type chosen for a string is the first requested type, in list
    order, whose dotted form is a suffix of the string, and there is none
    exactly when no requested type matches; a string ending in [.pdf] goes
    to [pdf] whenever [pdf] is requested.  The analyser finishes, and for
    every URL of the registry the calls made for it are the single call
    with the chosen type when there is one and no call otherwise. *)
Theorem dispatch_by_first_matching_suffix (env : Env) (e : tEngine) (ops : list op) (order : list URL) (fs : FS) :
  forallb Is (docTypes e) = true →
  (0 < paramax e)%Z →
  urlStorage e = (exec ops newUrlStorage).2 →
  order ≡ₚ getAllUrls (urlStorage e) →
  (∀ s t, match_type (docTypes e) s = Some t ↔
          ∃ i, docTypes e !! i = Some t ∧ HasSuffix s ("." +:+ t) = true
               ∧ ∀ j t', j < i → docTypes e !! j = Some t' →
                         HasSuffix s ("." +:+ t') = false)
  ∧ (∀ s, match_type (docTypes e) s = None ↔
          ∀ t, t ∈ docTypes e → HasSuffix s ("." +:+ t) = false)
  ∧ (∀ s, "pdf" ∈ docTypes e → HasSuffix s ".pdf" = true →
          match_type (docTypes e) s = Some "pdf")
  ∧ ∃ e' fs' calls,
      analyser env e order fs = Finished (e', fs', calls, None)
      ∧ ∀ u, u ∈ order →
             calls_for (URL_String u) calls
             = match match_type (docTypes e) (URL_String u) with
               | Some t => [(t, URL_String u)]
               | None => []
               end.
Proof.
  intros Hreg HP Hus Hord.
  split; [intros s t; apply match_type_Some|].
  split; [intros s; apply match_type_None|].
  split; [intros s; by apply match_type_pdf|].
  destruct (analyser_finishes env e order fs Hreg HP) as (a & Ha & ->).
  eexists _, _, _. split; [reflexivity|]. intros u Hu.
  destruct (analyse_all_effect _ _ _ _ _ Ha) as [_ Hcalls]. cbn in Hcalls.
  rewrite Hcalls, calls_for_dispatches.
  - unfold dispatch. by destruct (match_type (docTypes e) (URL_String u)).
  - eapply range_keys_nodup; [|exact Hord]. rewrite Hus. apply exec_wf, wf_new.
  - done.
Qed.

(** What the analyser leaves for the URL at each position of [order]. *)
Lemma analyser_at_each_position (env : Env) (e : tEngine) (ops : list op) (order : list URL) (fs : FS) :
  forallb Is (docTypes e) = true →
  (0 < paramax e)%Z →
  urlStorage e = (exec ops newUrlStorage).2 →
  docStorage e = ∅ →
  order ≡ₚ getAllUrls (urlStorage e) →
  ∃ e' fs' calls,
    analyser env e order fs = Finished (e', fs', calls, None)
    ∧ ∀ pre u post, order = pre ++ u :: post →
        ∃ a1 a2,
          analyse_all env (docTypes e) pre (mkAnalysis ∅ fs []) = Finished a1
          ∧ analyse_url env (docTypes e) u a1 = Finished a2
          ∧ length (calls_for (URL_String u) calls) ≤ 1
          ∧ docStorage e' !! URL_String u = an_docs a2 !! URL_String u
          ∧ match match_type (docTypes e) (URL_String u) with
            | None =>
                calls_for (URL_String u) calls = []
                ∧ docStorage e' !! URL_String u = None
            | Some t =>
                ∃ eng r err fs1,
                  New t = Some eng
                  ∧ Do env eng (URL_String u) (an_fs a1) = Some (r, err, fs1)
                  ∧ calls_for (URL_String u) calls = [(t, URL_String u)]
                  ∧ docStorage e' !! URL_String u
                    = match err with None => Some r | Some _ => None end
            end.
Proof.
  intros Hreg HP Hus Hds Hord.
  destruct (analyser_finishes env e order fs Hreg HP) as (a & Ha & ->).
  rewrite Hds in Ha.
  eexists _, _, _. split; [reflexivity|]. cbn [docStorage].
  intros pre u post Horder.
  assert (Hnd : NoDup (URL_String <$> order)).
  { eapply range_keys_nodup; [|exact Hord]. rewrite Hus. apply exec_wf, wf_new. }
  rewrite Horder, fmap_app, fmap_cons in Hnd.
  apply NoDup_app in Hnd as (_ & Hpre & Hpost).
  apply NoDup_cons in Hpost as [Hpost _].
  assert (Hnpre : URL_String u ∉ URL_String <$> pre).
  { intros Hin. apply (Hpre _ Hin). by left. }
  rewrite Horder, analyse_all_app in Ha.
  destruct (analyse_all_total env (docTypes e) pre (mkAnalysis ∅ fs []) Hreg)
    as [a1 Ha1].
  rewrite Ha1 in Ha. cbn [analyse_all] in Ha.
  destruct (analyse_url_total env (docTypes e) u a1 Hreg) as [a2 Ha2].
  rewrite Ha2 in Ha.
  exists a1, a2. split; [done|]. split; [done|].
  destruct (analyse_all_effect _ _ _ _ _ Ha1) as [Hd1 Hc1].
  destruct (analyse_all_effect _ _ _ _ _ Ha) as [Hd2 Hc2].
  destruct (analyse_url_effect _ _ _ _ _ Ha2) as [_ Hcu].
  cbn [an_docs an_calls] in Hd1, Hc1.
  assert (Hcalls : calls_for (URL_String u) (an_calls a)
                   = option_list (dispatch (docTypes e) u)).
  { rewrite Hc2, Hcu, Hc1. cbn [app]. unfold calls_for.
    rewrite !filter_app.
    fold (calls_for (URL_String u) (dispatches (docTypes e) pre)).
    fold (calls_for (URL_String u) (option_list (dispatch (docTypes e) u))).
    fold (calls_for (URL_String u) (dispatches (docTypes e) post)).
    by rewrite !calls_for_absent, calls_for_own, app_nil_r by done. }
  assert (Hfinal : an_docs a !! URL_String u = an_docs a2 !! URL_String u)
    by (by apply Hd2).
  assert (Hbefore : an_docs a1 !! URL_String u = None)
    by (rewrite Hd1 by done; apply lookup_empty).
  split; [|split; [done|]].
  - rewrite Hcalls. unfold dispatch.
    destruct (match_type (docTypes e) (URL_String u)); cbn; lia.
  - pose proof (analyse_url_spec env (docTypes e) u a1 Hreg) as Hspec.
    rewrite Hcalls. unfold dispatch.
    destruct (match_type (docTypes e) (URL_String u)) as [t|].
    + destruct Hspec as (eng & r & err & fs1 & Hnew & Hdo & Hres).
      rewrite Ha2 in Hres. injection Hres as ->.
      exists eng, r, err, fs1. split; [done|]. split; [done|]. split; [done|].
      rewrite Hfinal. cbn [an_docs].
      destruct err; [done|]. apply lookup_insert_eq.
    + rewrite Ha2 in Hspec. injection Hspec as ->. split; [done|]. congruence.
Qed.

(** C6. For an engine with an empty result store, registered types and a
    positive [paramax]: the analyser finishes and returns a nil error
    whatever the [Do] calls returned, and its store has entries only under
    canonical strings of URLs of the registry.  For every URL of the
    registry, at whatever position [order] puts it: [Do] is called for it
    at most once; if no type matches or [Do] returned an error the final
    store has no entry under its canonical string; if [Do] returned nil the
    final store holds under that string the researcher [Do] left, and that
    is the very entry present right after the URL's own goroutine. *)
Theorem analyser_records_exactly_the_successes (env : Env) (e : tEngine) (ops : list op) (order : list URL) (fs : FS) :
  forallb Is (docTypes e) = true →
  (0 < paramax e)%Z →
  urlStorage e = (exec ops newUrlStorage).2 →
  docStorage e = ∅ →
  order ≡ₚ getAllUrls (urlStorage e) →
  ∃ e' fs' calls,
    analyser env e order fs = Finished (e', fs', calls, None)
    ∧ (∀ key, key ∉ URL_String <$> order → docStorage e' !! key = None)
    ∧ ∀ pre u post, order = pre ++ u :: post →
        ∃ a1 a2,
          analyse_all env (docTypes e) pre (mkAnalysis ∅ fs []) = Finished a1
          ∧ analyse_url env (docTypes e) u a1 = Finished a2
          ∧ length (calls_for (URL_String u) calls) ≤ 1
          ∧ docStorage e' !! URL_String u = an_docs a2 !! URL_String u
          ∧ match match_type (docTypes e) (URL_String u) with
            | None =>
                calls_for (URL_String u) calls = []
                ∧ docStorage e' !! URL_String u = None
            | Some t =>
                ∃ eng r err fs1,
                  New t = Some eng
                  ∧ Do env eng (URL_String u) (an_fs a1) = Some (r, err, fs1)
                  ∧ calls_for (URL_String u) calls = [(t, URL_String u)]
                  ∧ docStorage e' !! URL_String u
                    = match err with None => Some r | Some _ => None end
            end.
Proof.
  intros Hreg HP Hus Hds Hord.
  destruct (analyser_at_each_position env e ops order fs Hreg HP Hus Hds Hord)
    as (e' & fs' & calls & Han & Hall).
  exists e', fs', calls. split; [done|]. split; [|done].
  destruct (analyser_finishes env e order fs Hreg HP) as (a & Ha & Han').
  rewrite Han in Han'. injection Han' as -> _ _.
  destruct (analyse_all_effect _ _ _ _ _ Ha) as [Hd _].
  intros key Hkey. cbn [docStorage]. rewrite Hd by done.
  cbn [an_docs]. rewrite Hds. apply lookup_empty.
Qed.

Lemma dispatch_by_first_matching_suffix_witness :
  let e := Demo.crawled in
  let order := getAllUrls (urlStorage e) in
  forallb Is (docTypes e) = true
  ∧ (0 < paramax e)%Z
  ∧ urlStorage e = (exec Demo.found_ops newUrlStorage).2
  ∧ order ≡ₚ getAllUrls (urlStorage e)
  ∧ ∃ e' fs' calls,
      analyser Demo.env e order Demo.fs0 = Finished (e', fs', calls, None)
      ∧ ∀ u, u ∈ order →
             calls_for (URL_String u) calls
             = match match_type (docTypes e) (URL_String u) with
               | Some t => [(t, URL_String u)]
               | None => []
               end.
Proof.
  intros e order.
  assert (H1 : forallb Is (docTypes e) = true) by reflexivity.
  assert (H2 : (0 < paramax e)%Z) by (simpl; lia).
  assert (H3 : urlStorage e = (exec Demo.found_ops newUrlStorage).2) by reflexivity.
  assert (H4 : order ≡ₚ getAllUrls (urlStorage e)) by reflexivity.
  pose proof (dispatch_by_first_matching_suffix Demo.env e Demo.found_ops order
                Demo.fs0 H1 H2 H3 H4) as (_ & _ & _ & H).
  repeat split; assumption.
Defined.

Example demo_dispatches :
  let e := Demo.crawled in
  match analyser Demo.env e (getAllUrls (urlStorage e)) Demo.fs0 with
  | Finished (e', fs', calls, err) =>
      calls_for "http://h/doc.pdf" calls = [("pdf", "http://h/doc.pdf")]
      ∧ calls_for "http://h/a.html" calls = []
      ∧ calls_for "http://h/b.pdf?v=1" calls = []
      ∧ length calls = 3 ∧ err = None
  | _ => False
  end.
Proof. vm_compute. repeat split. Qed.

Lemma analyser_records_exactly_the_successes_witness :
  let e := Demo.crawled in
  let order := getAllUrls (urlStorage e) in
  forallb Is (docTypes e) = true
  ∧ (0 < paramax e)%Z
  ∧ urlStorage e = (exec Demo.found_ops newUrlStorage).2
  ∧ docStorage e = ∅
  ∧ order ≡ₚ getAllUrls (urlStorage e)
  ∧ ∃ e' fs' calls,
      analyser Demo.env e order Demo.fs0 = Finished (e', fs', calls, None)
      ∧ (∀ key, key ∉ URL_String <$> order → docStorage e' !! key = None)
      ∧ ∀ pre u post, order = pre ++ u :: post →
          ∃ a1 a2,
            analyse_all Demo.env (docTypes e) pre (mkAnalysis ∅ Demo.fs0 [])
            = Finished a1
            ∧ analyse_url Demo.env (docTypes e) u a1 = Finished a2
            ∧ length (calls_for (URL_String u) calls) ≤ 1
            ∧ docStorage e' !! URL_String u = an_docs a2 !! URL_String u
            ∧ match match_type (docTypes e) (URL_String u) with
              | None =>
                  calls_for (URL_String u) calls = []
                  ∧ docStorage e' !! URL_String u = None
              | Some t =>
                  ∃ eng r err fs1,
                    New t = Some eng
                    ∧ Do Demo.env eng (URL_String u) (an_fs a1)
                      = Some (r, err, fs1)
                    ∧ calls_for (URL_String u) calls = [(t, URL_String u)]
                    ∧ docStorage e' !! URL_String u
                      = match err with None => Some r | Some _ => None end
              end.
Proof.
  intros e order.
  assert (H1 : forallb Is (docTypes e) = true) by reflexivity.
  assert (H2 : (0 < paramax e)%Z) by (simpl; lia).
  assert (H3 : urlStorage e = (exec Demo.found_ops newUrlStorage).2) by reflexivity.
  assert (H4 : docStorage e = ∅) by reflexivity.
  assert (H5 : order ≡ₚ getAllUrls (urlStorage e)) by reflexivity.
  repeat (split; [assumption|]).
  exact (analyser_records_exactly_the_successes Demo.env e Demo.found_ops order
           Demo.fs0 H1 H2 H3 H4 H5).
Defined.

(** On the demo registry: the parsable document is recorded, the oversized
    one and the one answered with an error page are not. *)
Example demo_results :
  let e := Demo.crawled in
  match analyser Demo.env e (getAllUrls (urlStorage e)) Demo.fs0 with
  | Finished (e', fs', calls, err) =>
      is_Some (docStorage e' !! "http://h/doc.pdf")
      ∧ docStorage e' !! "http://other/x.pdf" = None
      ∧ calls_for "http://other/x.pdf" calls = [("pdf", "http://other/x.pdf")]
      ∧ fs_files fs' = []
  | _ => False
  end.
Proof. vm_compute. repeat split. eauto. Qed.

(** With [paramax = 0] the first send on [guard] blocks for good. *)
Example zero_paramax_analyser :
  let e := {| url := Demo.root; urlStorage := urlStorage Demo.crawled;
              docStorage := ∅; docTypes := ["pdf"]; outputFileName := "";
              paramax := 0 |} in
  analyser Demo.env e (getAllUrls (urlStorage e)) Demo.fs0 = Deadlocked.
Proof. vm_compute. reflexivity. Qed.

(** ** The result emitter *)

Lemma Join_cons (x : string) (rest : list string) :
  Join (x :: rest) "," = x +:+ comma_each rest.
Proof.
  revert x. induction rest as [|y rest IH]; intros x.
  - cbn. by rewrite str_app_nil_r.
  - change (Join (x :: y :: rest) ",")
      with (x +:+ "," +:+ Join (y :: rest) ",").
    by rewrite IH.
Qed.

(** The loop appends the elements to the buffer, with a comma before each
    one but the first written. *)
Lemma output_loop_spec env docs urls isFirst buf :
  output_loop env docs urls isFirst buf
  = buf +:+ (if isFirst
             then Join (OutJSON env <$> recorded docs urls) ","
             else comma_each (OutJSON env <$> recorded docs urls)).
Proof.
  revert isFirst buf. induction urls as [|u urls IH]; intros isFirst buf.
  - cbn. destruct isFirst; by rewrite str_app_nil_r.
  - cbn [output_loop]. unfold recorded in *. cbn [omap list_omap].
    destruct (docs !! URL_String u) as [rr|]; [|apply IH].
    rewrite IH, fmap_cons. destruct isFirst.
    + by rewrite Join_cons, str_app_assoc.
    + cbn [comma_each]. by rewrite !str_app_assoc.
Qed.

(** C7. Whatever the store and the enumeration order, [output] either
    fails to create the output file and writes nothing, or writes to its
    sink exactly ["["], then the serialisations of the recorded results in
    the order the URLs were enumerated, joined by [","], then ["]"].  With
    no recorded result, and so with an empty store, the bytes are ["[]"]. *)
Theorem output_is_one_json_array (env : Env) (e : tEngine) (urls : list URL) :
  let elems := OutJSON env <$> recorded (docStorage e) urls in
  let bytes := "[" +:+ Join elems "," +:+ "]" in
  ((outputFileName e = "" ∧ output env e urls = inr (Stdout, bytes))
   ∨ (outputFileName e ≠ "" ∧ os_Create env (outputFileName e) = true
      ∧ output env e urls = inr (FileSink (outputFileName e), bytes))
   ∨ (outputFileName e ≠ "" ∧ os_Create env (outputFileName e) = false
      ∧ output env e urls = inl ErrCreate))
  ∧ (elems = [] → bytes = "[]")
  ∧ (docStorage e = ∅ → elems = []).
Proof.
  intros elems bytes.
  assert (Hbytes : output_loop env (docStorage e) urls true "[" +:+ "]" = bytes).
  { rewrite output_loop_spec. unfold bytes, elems. by rewrite str_app_assoc. }
  split; [|split].
  - unfold output. rewrite Hbytes.
    destruct (String.eqb_spec (outputFileName e) "") as [Hn|Hn]; [by left|].
    right. destruct (os_Create env (outputFileName e)); [by left|by right].
  - unfold bytes. by intros ->.
  - intros Hempty. unfold elems, recorded. rewrite Hempty.
    clear. induction urls as [|u urls IH]; [done|].
    cbn [omap list_omap]. by rewrite lookup_empty.
Qed.

Example demo_output :
  let e := Demo.crawled in
  match analyser Demo.env e (getAllUrls (urlStorage e)) Demo.fs0 with
  | Finished (e', _, _, _) =>
      output Demo.env e' (getAllUrls (urlStorage e'))
      = inr (Stdout,
             "[{url:http://h/doc.pdf?x=.pdf,title:Title},{url:http://h/doc.pdf,title:Title}]")
  | _ => False
  end.
Proof. vm_compute. reflexivity. Qed.

Example demo_run :
  run Demo.env Demo.engine 64 Demo.fs0
  = Finished (inr (Stdout, "[{url:http://h/doc.pdf,title:Title}]")).
Proof. vm_compute. reflexivity. Qed.

Example demo_output_empty :
  output Demo.env Demo.crawled (getAllUrls (urlStorage Demo.crawled))
  = inr (Stdout, "[]").
Proof. vm_compute. reflexivity. Qed.

(** ** Suffix matching and query strings *)

Lemma registered_no_query_byte t c :
  Is t = true → c = "?"%char ∨ c = "#"%char →
  ContainsByte c ("." +:+ t) = false.
Proof.
  intros [-> | [-> | [-> | ->]]]%Is_registered [-> | ->]; reflexivity.
Qed.

Lemma nonempty_true (s : string) : s ≠ "" → nonempty s = true.
Proof. by destruct s. Qed.

(** With a query or a fragment, the canonical string ends with a
    delimiter byte followed by the tail. *)
Lemma URL_String_tail u :
  RawQuery u ≠ "" ∨ Fragment u ≠ "" →
  ∃ head c, (c = "?"%char ∨ c = "#"%char)
            ∧ URL_String u = head +:+ String c (URL_tail u).
Proof.
  intros H. unfold URL_String, URL_tail, query_part, fragment_part.
  destruct (Fragment u) as [|cf f] eqn:Ef.
  - destruct H as [Hq|Hf]; [|done]. rewrite (nonempty_true _ Hq). cbn [nonempty].
    exists (scheme_part u +:+ authority_part u +:+ path_part u), "?"%char.
    split; [by left|]. rewrite str_app_nil_r, !str_app_assoc. reflexivity.
  - cbn [nonempty].
    exists (scheme_part u +:+ authority_part u +:+ path_part u
            +:+ (if nonempty (RawQuery u) then "?" +:+ RawQuery u else "")),
           "#"%char.
    split; [by right|]. rewrite !str_app_assoc. reflexivity.
Qed.

Lemma match_type_tail types u :
  forallb Is types = true → RawQuery u ≠ "" ∨ Fragment u ≠ "" →
  match_type types (URL_String u) = match_type types (URL_tail u).
Proof.
  intros Hreg Hq. destruct (URL_String_tail u Hq) as (head & c & Hc & ->).
  induction types as [|t types IH]; [done|].
  cbn in Hreg. apply andb_true_iff in Hreg as [Ht Hreg].
  cbn [match_type]. rewrite HasSuffix_after_byte
    by (by apply registered_no_query_byte).
  by rewrite IH.
Qed.

(** C10, as amended.  The suffix test reads the whole canonical string.
    For a URL with a non-empty query string the chosen type is the one
    chosen for the text after the last delimiter alone (the query string,
    or the fragment when there is one), whatever the path ends in: when
    that text ends in no requested extension no [Do] call is made and no
    result is recorded, and when it ends in one the call is made. *)
Theorem query_string_decides_dispatch (env : Env) (e : tEngine) (ops : list op) (order : list URL) (fs : FS) (u : URL) :
  forallb Is (docTypes e) = true →
  (0 < paramax e)%Z →
  urlStorage e = (exec ops newUrlStorage).2 →
  docStorage e = ∅ →
  order ≡ₚ getAllUrls (urlStorage e) →
  u ∈ order →
  RawQuery u ≠ "" →
  match_type (docTypes e) (URL_String u) = match_type (docTypes e) (URL_tail u)
  ∧ (Fragment u = "" → URL_tail u = RawQuery u)
  ∧ ∃ e' fs' calls,
      analyser env e order fs = Finished (e', fs', calls, None)
      ∧ (match_type (docTypes e) (URL_tail u) = None →
         calls_for (URL_String u) calls = []
         ∧ docStorage e' !! URL_String u = None
         ∧ recorded (docStorage e') [u] = [])
      ∧ (∀ t, match_type (docTypes e) (URL_tail u) = Some t →
              calls_for (URL_String u) calls = [(t, URL_String u)]).
Proof.
  intros Hreg HP Hus Hds Hord Hu Hq.
  pose proof (match_type_tail (docTypes e) u Hreg (or_introl Hq)) as Hm.
  split; [done|]. split; [intros Hf; unfold URL_tail; by rewrite Hf|].
  destruct (analyser_at_each_position env e ops order fs
              Hreg HP Hus Hds Hord) as (e' & fs' & calls & Han & Hall).
  exists e', fs', calls. split; [done|].
  apply list_elem_of_split in Hu as (pre & post & Horder).
  destruct (Hall pre u post Horder) as (a1 & a2 & _ & _ & _ & _ & Hcase).
  rewrite Hm in Hcase. split.
  - intros Hnone. rewrite Hnone in Hcase. destruct Hcase as [Hc Hd].
    repeat split; [done..|]. unfold recorded. cbn [omap list_omap]. by rewrite Hd.
  - intros t Ht. rewrite Ht in Hcase.
    by destruct Hcase as (eng & r & err & fs1 & _ & _ & Hc & _).
Qed.

Lemma demo_order_members :
  Demo.versioned_pdf ∈ getAllUrls (urlStorage Demo.crawled)
  ∧ Demo.query_pdf ∈ getAllUrls (urlStorage Demo.crawled).
Proof.
  split; apply elem_of_getAllUrls.
  - exists (URL_String Demo.versioned_pdf). vm_compute. reflexivity.
  - exists (URL_String Demo.query_pdf). vm_compute. reflexivity.
Qed.

Lemma query_string_decides_dispatch_witness :
  let e := Demo.crawled in
  let order := getAllUrls (urlStorage e) in
  let u := Demo.versioned_pdf in
  forallb Is (docTypes e) = true
  ∧ (0 < paramax e)%Z
  ∧ urlStorage e = (exec Demo.found_ops newUrlStorage).2
  ∧ docStorage e = ∅
  ∧ order ≡ₚ getAllUrls (urlStorage e)
  ∧ u ∈ order
  ∧ RawQuery u ≠ ""
  ∧ match_type (docTypes e) (URL_String u) = match_type (docTypes e) (URL_tail u)
  ∧ (Fragment u = "" → URL_tail u = RawQuery u)
  ∧ ∃ e' fs' calls,
      analyser Demo.env e order Demo.fs0 = Finished (e', fs', calls, None)
      ∧ (match_type (docTypes e) (URL_tail u) = None →
         calls_for (URL_String u) calls = []
         ∧ docStorage e' !! URL_String u = None
         ∧ recorded (docStorage e') [u] = [])
      ∧ (∀ t, match_type (docTypes e) (URL_tail u) = Some t →
              calls_for (URL_String u) calls = [(t, URL_String u)]).
Proof.
  intros e order u.
  assert (H1 : forallb Is (docTypes e) = true) by reflexivity.
  assert (H2 : (0 < paramax e)%Z) by (simpl; lia).
  assert (H3 : urlStorage e = (exec Demo.found_ops newUrlStorage).2) by reflexivity.
  assert (H4 : docStorage e = ∅) by reflexivity.
  assert (H5 : order ≡ₚ getAllUrls (urlStorage e)) by reflexivity.
  assert (H6 : u ∈ order) by exact (proj1 demo_order_members).
  assert (H7 : RawQuery u ≠ "") by discriminate.
  repeat (split; [assumption|]).
  exact (query_string_decides_dispatch Demo.env e Demo.found_ops order Demo.fs0 u
           H1 H2 H3 H4 H5 H6 H7).
Defined.

(** C10 as stated fails here.
    The URL [http://h/doc.pdf?x=.pdf] has a path ending in [.pdf] and a
    non-empty query string, [pdf] is requested, and yet the analyser
    calls the pdf researcher for it, records the result and emits it. *)
Lemma query_suffix_still_dispatched :
  let e := Demo.crawled in
  let order := getAllUrls (urlStorage e) in
  let u := Demo.query_pdf in
  HasSuffix (Path u) ".pdf" = true
  ∧ RawQuery u = "x=.pdf"
  ∧ docTypes e = ["pdf"; "docx"]
  ∧ u ∈ order
  ∧ match_type (docTypes e) (URL_String u) = Some "pdf"
  ∧ ∃ e' fs' calls,
      analyser Demo.env e order Demo.fs0 = Finished (e', fs', calls, None)
      ∧ calls_for (URL_String u) calls = [("pdf", "http://h/doc.pdf?x=.pdf")]
      ∧ is_Some (docStorage e' !! URL_String u)
      ∧ output Demo.env e' order
        = inr (Stdout,
               "[{url:http://h/doc.pdf?x=.pdf,title:Title},{url:http://h/doc.pdf,title:Title}]").
Proof.
  intros e order u.
  split; [reflexivity|]. split; [reflexivity|]. split; [reflexivity|].
  split; [exact (proj2 demo_order_members)|]. split; [reflexivity|].
  destruct (analyser Demo.env e order Demo.fs0) as [[[[e' fs'] calls] err]| | |] eqn:E;
    vm_compute in E; try discriminate.
  injection E as <- <- <- <-.
  eexists _, _, _. split; [reflexivity|].
  split; [vm_compute; reflexivity|]. split; [vm_compute; eauto|].
  vm_compute. reflexivity.
Qed.

Example versioned_pdf_not_dispatched :
  match_type ["pdf"; "docx"; "xlsx"; "pptx"] "https://h/doc.pdf?v=1" = None
  ∧ URL_String (mkURL "https" "h" "/doc.pdf" "v=1" "") = "https://h/doc.pdf?v=1".
Proof. split; reflexivity. Qed.

Example fragment_hides_extension :
  match_type ["pdf"] (URL_String (mkURL "https" "h" "/doc.pdf" "" "page=2")) = None.
Proof. reflexivity. Qed.

(** * Further properties of the code *)

(** ** urlstorage.go: [count], [check], [getAllUrls], order of [use] *)

Lemma used_entries_size ops :
  size (filter (λ kv : string * bool, kv.2 = true)
          (urlStatus (exec ops newUrlStorage).2))
  = length (acquired (exec ops newUrlStorage).1).
Proof.
  destruct (exec_acquired ops newUrlStorage wf_new) as (Hnd & _ & _).
  rewrite <- size_dom.
  rewrite <- (size_list_to_set (C := gset string) _ Hnd).
  f_equal. apply set_eq. intros k.
  rewrite elem_of_list_to_set, acquired_subset_used, elem_of_dom. split.
  - intros [x Hx]. apply map_lookup_filter_Some in Hx as [Hx Hp].
    cbn in Hp. by subst x.
  - intros Hk. exists true. by apply map_lookup_filter_Some.
Qed.

Lemma unused_entries_size us :
  wf us →
  size (filter (λ kv : string * bool, ¬ kv.2 = true) (urlStatus us))
  = length (queue us).
Proof.
  intros Hwf. rewrite <- size_dom.
  rewrite <- (size_list_to_set (C := gset string) _ (wf_nodup _ Hwf)).
  f_equal. apply set_eq. intros k.
  rewrite elem_of_list_to_set, (wf_queue _ Hwf), elem_of_dom. unfold unused. split.
  - intros [x Hx]. apply map_lookup_filter_Some in Hx as [Hx Hp].
    cbn in Hp. destruct x; [done|done].
  - intros Hk. exists false. apply map_lookup_filter_Some. split; [done|].
    cbn. discriminate.
Qed.

Lemma status_size_split us :
  size (urlStatus us)
  = size (filter (λ kv : string * bool, kv.2 = true) (urlStatus us))
    + size (filter (λ kv : string * bool, ¬ kv.2 = true) (urlStatus us)).
Proof.
  rewrite <- map_size_disj_union by apply map_disjoint_filter_complement.
  by rewrite map_filter_union_complement.
Qed.

(** X1. After any run of [add] and [use] calls on a new registry, [count]
    returns the number of distinct canonical strings submitted and the
    number of successful [use] calls, and the entries not yet used are
    exactly as many as the queue is long. *)
Theorem count_tracks_history (ops : list op) :
  let rs := (exec ops newUrlStorage).1 in
  let us := (exec ops newUrlStorage).2 in
  count us = (length (remove_dups (submitted ops)), length (acquired rs))
  ∧ length (acquired rs) + length (queue us) = length (remove_dups (submitted ops))
  ∧ (count us).2 ≤ (count us).1.
Proof.
  intros rs us.
  assert (Hwf : wf us) by (apply exec_wf, wf_new).
  assert (Htotal : size (urlStatus us) = length (remove_dups (submitted ops))).
  { rewrite <- size_dom. unfold us. rewrite (exec_dom ops _ wf_new). simpl.
    rewrite dom_empty_L, union_empty_l_L. apply size_list_to_set_remove_dups. }
  pose proof (used_entries_size ops) as Hused. fold us rs in Hused.
  pose proof (unused_entries_size us Hwf) as Hunused.
  pose proof (status_size_split us) as Hsplit.
  unfold count. cbn [fst snd]. rewrite Hused, Htotal.
  split; [done|]. split; lia.
Qed.

(** X2. [check] reads the history of the registry: a nil pointer and a URL
    whose canonical string was never submitted give [(false, false)]; a
    submitted one exists, and is used exactly when some [use] call has
    returned it. *)
Theorem check_reports_history (ops : list op) (u : URL) :
  let rs := (exec ops newUrlStorage).1 in
  let us := (exec ops newUrlStorage).2 in
  check None us = (false, false)
  ∧ check (Some u) us
    = if bool_decide (URL_String u ∈ submitted ops)
      then (true, bool_decide (URL_String u ∈ acquired rs))
      else (false, false).
Proof.
  intros rs us. split; [done|]. unfold check.
  assert (Hdom : ∀ k, is_Some (urlStatus us !! k) ↔ k ∈ submitted ops).
  { intros k. rewrite <- elem_of_dom. unfold us.
    rewrite (exec_dom ops _ wf_new). simpl.
    rewrite dom_empty_L, union_empty_l_L. apply elem_of_list_to_set. }
  pose proof (acquired_subset_used ops (URL_String u)) as Hacq. fold rs us in Hacq.
  destruct (urlStatus us !! URL_String u) as [used|] eqn:E.
  - rewrite bool_decide_eq_true_2 by (apply Hdom; eauto). f_equal.
    destruct used.
    + by rewrite bool_decide_eq_true_2 by (by apply Hacq).
    + rewrite bool_decide_eq_false_2; [done|]. intros H. apply Hacq in H. congruence.
  - rewrite bool_decide_eq_false_2; [done|]. intros H. apply Hdom in H as [? ?].
    congruence.
Qed.

Lemma exec_objects_keep ops us k v :
  wf us → urlObjects us !! k = Some v →
  urlObjects (exec ops us).2 !! k = Some v.
Proof.
  revert us. induction ops as [|o ops IH]; intros us Hwf Hk; [done|].
  rewrite exec_cons. cbn [snd]. apply IH; [by apply exec_op_wf|].
  destruct o as [u|]; cbn [exec_op].
  - destruct u as [u|]; [|done].
    pose proof (add_objects_stay u us k v Hwf Hk) as H.
    by destruct (add (Some u) us).
  - destruct (use us) as [[u found] us'] eqn:Hu. cbn [snd].
    unfold use in Hu.
    destruct (use_scan (urlStatus us) (queue us) 0) as [[i key]|];
      by inversion Hu; subst.
Qed.

Lemma exec_objects_submitted ops us k v :
  urlObjects (exec ops us).2 !! k = Some v →
  urlObjects us !! k = Some v ∨ v ∈ submitted_urls ops.
Proof.
  revert us. induction ops as [|o ops IH]; intros us Hk; [by left|].
  rewrite exec_cons in Hk. cbn [snd] in Hk. apply IH in Hk as [Hk|Hk].
  - destruct o as [u|]; cbn [exec_op] in Hk.
    + destruct u as [u|]; [|by left].
      assert (Hk' : urlObjects (add (Some u) us).1 !! k = Some v)
        by (by destruct (add (Some u) us)).
      apply add_objects_inv in Hk' as [?| ->]; [by left|]. right. by left.
    + left. destruct (use us) as [[u found] us'] eqn:Hu. cbn [snd] in Hk.
      unfold use in Hu.
      destruct (use_scan (urlStatus us) (queue us) 0) as [[i key]|];
        by inversion Hu; subst.
  - right. destruct o as [[u|]|]; cbn [submitted_urls]; [by right|done|done].
Qed.

Lemma submitted_app ops1 ops2 :
  submitted (ops1 ++ ops2) = submitted ops1 ++ submitted ops2.
Proof.
  induction ops1 as [|[[u|]|] ops1 IH]; cbn [app submitted]; [done|..].
  - by rewrite IH.
  - done.
  - done.
Qed.

(** X3. [getAllUrls] on a registry built by any run: the canonical strings
    of the URLs it returns are pairwise distinct and are exactly the
    strings submitted, every URL returned is one that was submitted, and
    under each string it is the first URL submitted with that string that
    is returned, whatever was added or used afterwards. *)
Theorem getAllUrls_returns_first_submitted (ops : list op) :
  let us := (exec ops newUrlStorage).2 in
  NoDup (URL_String <$> getAllUrls us)
  ∧ (∀ k, k ∈ URL_String <$> getAllUrls us ↔ k ∈ submitted ops)
  ∧ (∀ v, v ∈ getAllUrls us → v ∈ submitted_urls ops)
  ∧ (∀ ops1 v ops2, ops = ops1 ++ OpAdd (Some v) :: ops2 →
                    URL_String v ∉ submitted ops1 → v ∈ getAllUrls us).
Proof.
  intros us.
  assert (Hwf : wf us) by (apply exec_wf, wf_new).
  split; [|split; [|split]].
  - rewrite getAllUrls_keys by done. apply NoDup_fst_map_to_list.
  - intros k. rewrite getAllUrls_keys by done.
    rewrite <- (elem_of_list_to_set (C := gset string) k (submitted ops)).
    assert (Hd : dom (urlStatus us) = list_to_set (submitted ops)).
    { unfold us. rewrite (exec_dom ops _ wf_new). simpl.
      by rewrite dom_empty_L, union_empty_l_L. }
    rewrite <- Hd, elem_of_dom, (wf_dom _ Hwf). split.
    + intros Hin. apply list_elem_of_fmap in Hin as ([k' v] & -> & Hin).
      apply elem_of_map_to_list in Hin. cbn. eauto.
    + intros [v Hv]. apply list_elem_of_fmap. exists (k, v). split; [done|].
      by apply elem_of_map_to_list.
  - intros v Hv. apply elem_of_getAllUrls in Hv as [k Hk].
    apply exec_objects_submitted in Hk as [Hk|Hk]; [|done].
    simpl in Hk. by rewrite lookup_empty in Hk.
  - intros ops1 v ops2 -> Hfresh. apply elem_of_getAllUrls. exists (URL_String v).
    unfold us. rewrite exec_app. cbn [snd]. rewrite exec_cons. cbn [snd].
    set (us1 := (exec ops1 newUrlStorage).2).
    assert (Hwf1 : wf us1) by (apply exec_wf, wf_new).
    assert (Hnone : urlStatus us1 !! URL_String v = None).
    { apply not_elem_of_dom. unfold us1. rewrite (exec_dom ops1 _ wf_new). simpl.
      rewrite dom_empty_L, union_empty_l_L. by rewrite elem_of_list_to_set. }
    apply exec_objects_keep.
    + apply (exec_op_wf (OpAdd (Some v)) us1 Hwf1).
    + cbn [exec_op add]. rewrite Hnone. cbn. apply lookup_insert_eq.
Qed.

Lemma swap_remove_head (k z : string) (init : list string) :
  swap_remove 0 (k :: init ++ [z]) = z :: init.
Proof.
  unfold swap_remove.
  change (k :: init ++ [z]) with ((k :: init) ++ [z]).
  rewrite last_snoc. cbn [app insert list_insert length].
  rewrite length_app. cbn [length].
  replace (S (length init + 1) - 1) with (length (z :: init)) by (cbn; lia).
  change (z :: init ++ [z]) with ((z :: init) ++ [z]).
  apply take_app_length.
Qed.

Lemma use_takes_head us k rest :
  wf us → queue us = k :: rest →
  ∃ v, urlObjects us !! k = Some v ∧ URL_String v = k
       ∧ use us = (Some v, true,
                   {| urlStatus := <[k := true]> (urlStatus us);
                      urlObjects := urlObjects us;
                      queue := swap_remove 0 (k :: rest) |}).
Proof.
  intros Hwf Hq.
  assert (Hun : unused us k) by (apply (wf_queue _ Hwf); rewrite Hq; by left).
  destruct (proj1 (wf_dom _ Hwf k)) as [v Hv]; [unfold unused in Hun; eauto|].
  exists v. split; [done|]. split; [by apply (wf_key _ Hwf)|].
  unfold use. rewrite Hq. cbn [use_scan]. unfold status_of.
  unfold unused in Hun. rewrite Hun. cbn. by rewrite Hv.
Qed.

Lemma use_drains_in_order n :
  ∀ us k rest, wf us → queue us = k :: rest → length rest = n →
    acquired (exec (replicate (S n) OpUse) us).1 = k :: reverse rest
    ∧ queue (exec (replicate (S n) OpUse) us).2 = [].
Proof.
  induction n as [|n IH]; intros us k rest Hwf Hq Hlen.
  - destruct rest; [|discriminate].
    destruct (use_takes_head us k [] Hwf Hq) as (v & Hv & Hkey & Hu).
    cbn [replicate exec exec_op]. rewrite Hu. cbn. by rewrite Hkey.
  - destruct (exists_last (l := rest)) as (init & z & ->);
      [by destruct rest|].
    rewrite length_app in Hlen. cbn in Hlen.
    destruct (use_takes_head us k _ Hwf Hq) as (v & Hv & Hkey & Hu).
    pose proof (use_wf us Hwf) as Hwf1. rewrite Hu in Hwf1. cbn [snd] in Hwf1.
    rewrite swap_remove_head in Hu, Hwf1.
    change (replicate (S (S n)) OpUse) with (OpUse :: replicate (S n) OpUse).
    rewrite exec_cons. cbn [exec_op]. rewrite Hu. cbn [fst snd].
    destruct (IH _ z init Hwf1 eq_refl ltac:(lia)) as [Hacq Hqueue].
    split; [|done]. cbn [acquired]. rewrite Hacq, Hkey.
    by rewrite reverse_snoc.
Qed.

(** X4. Consecutive [use] calls on a registry built by any run hand out the
    pending entries in this order: the head of the queue first, then the
    others from the last queued to the second, because each call moves the
    last key into the freed slot; after as many calls as the queue is long
    the queue is empty. *)
Theorem use_order_is_head_then_backwards (ops : list op) :
  let us := (exec ops newUrlStorage).2 in
  let after := exec (replicate (length (queue us)) OpUse) us in
  acquired after.1 = use_order (queue us)
  ∧ queue after.2 = []
  ∧ (∀ k z init, queue us = k :: init ++ [z] → queue (use us).2 = z :: init).
Proof.
  intros us after.
  assert (Hwf : wf us) by (apply exec_wf, wf_new).
  split; [|split].
  - unfold after. destruct (queue us) as [|k rest] eqn:Hq; [done|].
    by apply (use_drains_in_order (length rest) us k rest).
  - unfold after. destruct (queue us) as [|k rest] eqn:Hq; [done|].
    by apply (use_drains_in_order (length rest) us k rest).
  - intros k z init Hq.
    destruct (use_takes_head us k _ Hwf Hq) as (v & _ & _ & ->).
    cbn [snd queue]. apply swap_remove_head.
Qed.

Example use_order_of_four :
  let u (p : string) := mkURL "http" "h" p "" "" in
  acquired (exec [OpAdd (Some (u "/1")); OpAdd (Some (u "/2"));
                  OpAdd (Some (u "/3")); OpAdd (Some (u "/4"));
                  OpUse; OpUse; OpUse; OpUse; OpUse] newUrlStorage).1
  = ["http://h/1"; "http://h/4"; "http://h/3"; "http://h/2"].
Proof. vm_compute. reflexivity. Qed.

(** ** crawler.go: [harv] *)

Lemma fold_add_status (l : list URL) us :
  let us' := foldl (λ st u, (add (Some u) st).1) us l in
  (∀ k b, urlStatus us !! k = Some b → urlStatus us' !! k = Some b)
  ∧ (∀ k, urlStatus us !! k = None →
          urlStatus us' !! k
          = if decide (k ∈ URL_String <$> l) then Some false else None).
Proof.
  revert us. induction l as [|u l IH]; intros us; cbn [foldl].
  - split; [done|]. intros k Hk. by rewrite decide_False by set_solver.
  - destruct (IH (add (Some u) us).1) as [IH1 IH2]. split.
    + intros k b Hk. apply IH1. cbn [add].
      destruct (urlStatus us !! URL_String u) eqn:E; cbn; [done|].
      rewrite lookup_insert_ne; [done|]. intros Heq. rewrite Heq in E. congruence.
    + intros k Hk. csimpl.
      destruct (decide (k = URL_String u)) as [->|Hne].
      * rewrite decide_True by set_solver. apply IH1. cbn [add]. rewrite Hk. cbn.
        apply lookup_insert_eq.
      * rewrite IH2.
        -- destruct (decide (k ∈ URL_String <$> l)).
           ++ by rewrite decide_True by set_solver.
           ++ by rewrite decide_False by set_solver.
        -- cbn [add]. destruct (urlStatus us !! URL_String u) eqn:E; cbn; [done|].
           by rewrite lookup_insert_ne.
Qed.

Lemma fold_add_wf (l : list URL) us :
  wf us → wf (foldl (λ st u, (add (Some u) st).1) us l).
Proof.
  revert us. induction l as [|u l IH]; intros us Hwf; cbn [foldl]; [done|].
  apply IH. by apply add_wf.
Qed.

Lemma fold_add_objects_stay (l : list URL) us k v :
  wf us → urlObjects us !! k = Some v →
  urlObjects (foldl (λ st u, (add (Some u) st).1) us l) !! k = Some v.
Proof.
  revert us. induction l as [|u l IH]; intros us Hwf Hk; cbn [foldl]; [done|].
  apply IH; [by apply add_wf|]. by apply add_objects_stay.
Qed.

Lemma fold_add_noop (l : list URL) us :
  (∀ v, v ∈ l → is_Some (urlStatus us !! URL_String v)) →
  foldl (λ st u, (add (Some u) st).1) us l = us.
Proof.
  induction l as [|u l IH]; intros Hl; cbn [foldl]; [done|].
  destruct (Hl u) as [b Hb]; [by left|].
  assert (Hadd : (add (Some u) us).1 = us) by (cbn [add]; by rewrite Hb).
  rewrite Hadd. apply IH. intros v Hv. apply Hl. by right.
Qed.

(** X5. [harv] only ever adds to the registry: every entry keeps its
    status (a used entry stays used) and its URL object, an entry it
    creates is unused, the registry stays well formed, a failed or
    non-200 GET changes nothing, and harvesting the same page again
    changes nothing. *)
Theorem harv_only_adds_unused_entries (env : Env) (baseUrl : URL) (ops : list op) :
  let us := (exec ops newUrlStorage).2 in
  let us' := harv env baseUrl us in
  wf us'
  ∧ (∀ k b, urlStatus us !! k = Some b → urlStatus us' !! k = Some b)
  ∧ (∀ k v, urlObjects us !! k = Some v → urlObjects us' !! k = Some v)
  ∧ (∀ k, urlStatus us !! k = None → is_Some (urlStatus us' !! k) →
          urlStatus us' !! k = Some false ∧ k ∈ queue us')
  ∧ ((∀ resp, client_Get env (URL_String baseUrl) = Some resp →
              StatusCode resp ≠ 200%Z) → us' = us)
  ∧ harv env baseUrl us' = us'.
Proof.
  intros us us'.
  assert (Hwf : wf us) by (apply exec_wf, wf_new).
  assert (Hwf' : wf us') by (by apply fold_add_wf).
  destruct (fold_add_status (harv_adds env (URL_String baseUrl)) us) as [Hold Hnew].
  fold (harv env baseUrl us) in Hold, Hnew. fold us' in Hold, Hnew.
  split; [done|]. split; [done|].
  split; [intros k v; by apply fold_add_objects_stay|].
  split; [|split].
  - intros k Hk [b Hb]. rewrite (Hnew k Hk) in Hb |- *.
    destruct (decide _); [|done]. split; [done|].
    apply (wf_queue _ Hwf'). unfold unused. rewrite (Hnew k Hk).
    by rewrite decide_True.
  - intros Hfail. unfold us', harv, harv_adds.
    destruct (client_Get env (URL_String baseUrl)) as [resp|]; [|done].
    specialize (Hfail resp eq_refl).
    destruct (Z.eqb_spec (StatusCode resp) 200); [done|done].
  - apply fold_add_noop. intros v Hv.
    destruct (urlStatus us !! URL_String v) as [b|] eqn:E.
    + exists b. by apply Hold.
    + rewrite (Hnew _ E). rewrite decide_True; [done|].
      apply list_elem_of_fmap. by exists v.
Qed.

Lemma elem_of_harv_attrs env baseStr attr v :
  v ∈ harv_attrs env baseStr attr
  ↔ ∃ val, ("href", val) ∈ attr ∧ resolveUrl env baseStr val = Some v.
Proof.
  induction attr as [|[key val] attr IH]; cbn [harv_attrs].
  - split; [by intros ?%elem_of_nil|]. by intros (? & ?%elem_of_nil & _).
  - destruct (String.eqb_spec key "href") as [->|Hne].
    + destruct (resolveUrl env baseStr val) as [u|] eqn:E.
      * rewrite elem_of_cons, IH. split.
        -- intros [->|(val' & Hin & Hres)].
           ++ exists val. split; [by left|done].
           ++ exists val'. split; [by right|done].
        -- intros (val' & Hin & Hres). apply elem_of_cons in Hin as [[= <-]|Hin].
           ++ left. congruence.
           ++ right. eauto.
      * rewrite IH. split.
        -- intros (val' & Hin & Hres). exists val'. split; [by right|done].
        -- intros (val' & Hin & Hres). apply elem_of_cons in Hin as [[= <-]|Hin].
           ++ congruence.
           ++ eauto.
    + rewrite IH. split.
      * intros (val' & Hin & Hres). exists val'. split; [by right|done].
      * intros (val' & Hin & Hres). apply elem_of_cons in Hin as [[= ? ?]|Hin].
        -- by subst.
        -- eauto.
Qed.

Lemma elem_of_harv_tokens env baseStr toks v :
  v ∈ harv_tokens env baseStr toks
  ↔ ∃ attr val, StartTagToken "a" attr ∈ toks ∧ ("href", val) ∈ attr
                ∧ resolveUrl env baseStr val = Some v.
Proof.
  induction toks as [|[data attr|] toks IH]; cbn [harv_tokens].
  - split; [by intros ?%elem_of_nil|]. by intros (? & ? & ?%elem_of_nil & _).
  - rewrite elem_of_app, IH. destruct (String.eqb_spec data "a") as [->|Hne].
    + rewrite elem_of_harv_attrs. split.
      * intros [(val & Hin & Hres)|(attr' & val & Hin & Hattr & Hres)].
        -- exists attr, val. split; [by left|done].
        -- exists attr', val. split; [by right|done].
      * intros (attr' & val & Hin & Hattr & Hres).
        apply elem_of_cons in Hin as [[= <-]|Hin]; [left|right]; eauto.
    + split.
      * intros [?%elem_of_nil|(attr' & val & Hin & Hattr & Hres)]; [done|].
        exists attr', val. split; [by right|done].
      * intros (attr' & val & Hin & Hattr & Hres).
        apply elem_of_cons in Hin as [[= ? ?]|Hin]; [by subst|right; eauto].
  - rewrite IH. split.
    + intros (attr' & val & Hin & Hattr & Hres).
      exists attr', val. split; [by right|done].
    + intros (attr' & val & Hin & Hattr & Hres).
      apply elem_of_cons in Hin as [[=]|Hin]. eauto.
Qed.

(** X6. The entries [harv] creates are exactly the links of the page: a
    canonical string is in the registry afterwards if and only if it was
    there before or the GET returned status 200 and some [href] attribute
    of some [a] start tag of the page resolves to a URL with that string.
    Neither the scheme nor the host of the link is looked at. *)
Theorem harv_registers_exactly_the_links (env : Env) (baseUrl : URL) (ops : list op) (k : string) :
  let us := (exec ops newUrlStorage).2 in
  let base := URL_String baseUrl in
  is_Some (urlObjects (harv env baseUrl us) !! k)
  ↔ is_Some (urlObjects us !! k)
    ∨ ∃ resp attr val v,
        client_Get env base = Some resp ∧ StatusCode resp = 200%Z
        ∧ StartTagToken "a" attr ∈ html_Tokens env (body_payload (RespBody resp))
        ∧ ("href", val) ∈ attr
        ∧ resolveUrl env base val = Some v
        ∧ URL_String v = k.
Proof.
  intros us base. unfold base. clear base.
  assert (Hwf : wf us) by (apply exec_wf, wf_new).
  assert (Hwf' : wf (harv env baseUrl us)) by (by apply fold_add_wf).
  destruct (fold_add_status (harv_adds env (URL_String baseUrl)) us) as [Hold Hnew].
  fold (harv env baseUrl us) in Hold, Hnew.
  rewrite <- (wf_dom _ Hwf'), <- (wf_dom _ Hwf).
  assert (Hadds : k ∈ URL_String <$> harv_adds env (URL_String baseUrl)
                  ↔ ∃ resp attr val v,
                      client_Get env (URL_String baseUrl) = Some resp ∧ StatusCode resp = 200%Z
                      ∧ StartTagToken "a" attr
                          ∈ html_Tokens env (body_payload (RespBody resp))
                      ∧ ("href", val) ∈ attr
                      ∧ resolveUrl env (URL_String baseUrl) val = Some v
                      ∧ URL_String v = k).
  { rewrite list_elem_of_fmap. unfold harv_adds.
    destruct (client_Get env (URL_String baseUrl)) as [resp|].
    - destruct (Z.eqb_spec (StatusCode resp) 200) as [H200|H200].
      + split.
        * intros (v & -> & Hv). apply elem_of_harv_tokens in Hv
            as (attr & val & Htok & Hattr & Hres).
          by exists resp, attr, val, v.
        * intros (resp' & attr & val & v & [= <-] & _ & Htok & Hattr & Hres & <-).
          exists v. split; [done|]. apply elem_of_harv_tokens. eauto.
      + split; [by intros (? & _ & ?%elem_of_nil)|].
        by intros (resp' & attr & val & v & [= <-] & ? & _).
    - split; [by intros (? & _ & ?%elem_of_nil)|].
      by intros (resp' & attr & val & v & [=] & _). }
  rewrite <- Hadds.
  destruct (urlStatus us !! k) as [b|] eqn:E.
  - rewrite (Hold k b E). split; [by left; eauto|by eauto].
  - rewrite (Hnew k E). destruct (decide _) as [Hin|Hnin].
    + split; [by right|by eauto].
    + split; [by intros [? ?]|]. intros [[? ?]|?]; done.
Qed.

(** ** researchers: temporary files, [Do], the archive loop *)

Lemma write_created fs n payload :
  fs_ok fs →
  fs_files
    (write_tmp (fs_next fs) n payload
       {| fs_files := fs_files fs ++ [mkTmp (fs_next fs) 0 ""];
          fs_next := S (fs_next fs); fs_can_create := fs_can_create fs |})
  = fs_files fs ++ [mkTmp (fs_next fs) n payload].
Proof.
  intros Hok. unfold write_tmp. cbn [fs_files fs_next fs_can_create].
  rewrite fmap_app. cbn [fmap list_fmap]. unfold has_name at 2. cbn [tmp_name].
  rewrite Nat.eqb_refl. f_equal.
  rewrite <- (list_fmap_id (fs_files fs)) at 2. apply Forall_fmap_ext_1.
  eapply Forall_impl; [exact Hok|]. intros f Hf. unfold has_name.
  cbn in *. destruct (Nat.eqb_spec (tmp_name f) (fs_next fs)); [lia|done].
Qed.

Lemma fs_ok_grow fs files :
  fs_ok fs → files = fs_files fs →
  ∀ fs', fs_files fs' = files → fs_next fs' = S (fs_next fs) → fs_ok fs'.
Proof.
  intros Hok -> fs' Hfiles Hnext. unfold fs_ok. rewrite Hfiles, Hnext.
  eapply Forall_impl; [exact Hok|]. intros f Hf. cbn in *. lia.
Qed.

Lemma os_Remove_fields name fs :
  fs_next (os_Remove name fs).2 = fs_next fs
  ∧ fs_can_create (os_Remove name fs).2 = fs_can_create fs.
Proof. unfold os_Remove. by destruct (existsb _ _). Qed.

Lemma readCloser_cases (rc : Body) (fs : FS) :
  fs_ok fs →
  ∃ res fs',
    readCloserToReadSeekerFile rc fs = Some (res, fs')
    ∧ res = (if negb (fs_can_create fs) then inl ErrCreateTemp
             else if (maxFileSize <=? body_size rc)%Z
                  then inl (ErrTooLarge maxFileSize)
             else if body_broken rc then inl ErrUnexpectedEOF
             else inr (mkTmp (fs_next fs) (Z.max 0 (body_size rc)) (body_payload rc)))
    ∧ fs_ok fs'
    ∧ fs_can_create fs' = fs_can_create fs
    ∧ match res with
      | inl _ => fs_files fs' = fs_files fs
      | inr f => fs_files fs' = fs_files fs ++ [f]
      end.
Proof.
  intros Hok. unfold readCloserToReadSeekerFile, os_CreateTemp.
  destruct (fs_can_create fs) eqn:Hc; cbn [negb].
  2:{ exists (inl ErrCreateTemp), fs. by rewrite Hc. }
  rewrite io_Copy_spec.
  set (src := {| lr_R := rc; lr_N := maxFileSize |}).
  set (fs1 := {| fs_files := fs_files fs ++ [mkTmp (fs_next fs) 0 ""];
                 fs_next := S (fs_next fs); fs_can_create := true |}).
  assert (Hmax : (0 < maxFileSize)%Z) by done.
  assert (Hrm : ∀ n p, fs_files (os_Remove (fs_next fs)
                                   (write_tmp (fs_next fs) n p fs1)).2
                       = fs_files fs).
  { intros n p. unfold fs1. rewrite <- Hc. by apply remove_created. }
  assert (Hrm_ok : ∀ n p, fs_ok (os_Remove (fs_next fs)
                                   (write_tmp (fs_next fs) n p fs1)).2).
  { intros n p. eapply (fs_ok_grow fs); [done|done|apply Hrm|].
    by rewrite (proj1 (os_Remove_fields _ _)). }
  assert (Hrm_c : ∀ n p, fs_can_create (os_Remove (fs_next fs)
                                   (write_tmp (fs_next fs) n p fs1)).2 = true).
  { intros n p. by rewrite (proj2 (os_Remove_fields _ _)). }
  destruct (Z.leb_spec maxFileSize (body_size rc)) as [Hbig|Hsmall].
  - assert (Hcop : copied src = maxFileSize)
      by (unfold copied, src; cbn [lr_R lr_N]; lia).
    assert (Herr : copy_err src = None).
    { unfold copy_err, src. cbn [lr_R lr_N].
      destruct (Z.ltb_spec (body_size rc) maxFileSize); [lia|].
      by rewrite andb_false_r. }
    rewrite Herr. unfold after_copy at 1. cbn [lr_N lr_R].
    fold src. rewrite Hcop. unfold src at 1. cbn [lr_N]. rewrite Z.sub_diag.
    cbn [Z.eqb]. eexists _, _. split; [reflexivity|]. split; [done|].
    split; [apply Hrm_ok|]. split; [apply Hrm_c|]. apply Hrm.
  - assert (Hcop : copied src = Z.max 0 (body_size rc))
      by (unfold copied, src; cbn [lr_R lr_N]; lia).
    destruct (body_broken rc) eqn:Hbr.
    + assert (Herr : copy_err src = Some ErrUnexpectedEOF).
      { unfold copy_err, src. cbn [lr_R lr_N]. rewrite Hbr.
        destruct (Z.ltb_spec (body_size rc) maxFileSize); [|lia]. done. }
      rewrite Herr. eexists _, _. split; [reflexivity|]. split; [done|].
      split; [apply Hrm_ok|]. split; [apply Hrm_c|]. apply Hrm.
    + assert (Herr : copy_err src = None).
      { unfold copy_err, src. cbn [lr_R lr_N]. rewrite Hbr.
        by rewrite andb_false_r. }
      rewrite Herr. unfold after_copy at 1. cbn [lr_N lr_R].
      fold src. rewrite Hcop. unfold src at 1. cbn [lr_N].
      destruct (Z.eqb_spec (maxFileSize - Z.max 0 (body_size rc)) 0); [lia|].
      assert (Hfiles : fs_files (write_tmp (fs_next fs) (Z.max 0 (body_size rc))
                                   (body_payload rc) fs1)
                       = fs_files fs
                         ++ [mkTmp (fs_next fs) (Z.max 0 (body_size rc))
                               (body_payload rc)]).
      { unfold fs1. rewrite <- Hc. by apply write_created. }
      eexists _, _. split; [reflexivity|]. split; [done|].
      split; [|split; [done|exact Hfiles]].
      unfold fs_ok. rewrite Hfiles. cbn [fs_next write_tmp fs1].
      apply Forall_app. split.
      * eapply Forall_impl; [exact Hok|]. intros f Hf. cbn in *. lia.
      * apply Forall_singleton. cbn. lia.
Qed.



Example broken_body_leaves_no_file :
  readCloserToReadSeekerFile (mkBody 10 "cut short" true) Demo.fs0
  = Some (inl ErrUnexpectedEOF,
          {| fs_files := []; fs_next := 1; fs_can_create := true |}).
Proof. vm_compute. reflexivity. Qed.

Lemma readCloser_inr rc fs f fs' :
  readCloserToReadSeekerFile rc fs = Some (inr f, fs') →
  tmp_payload f = body_payload rc ∧ tmp_name f = fs_next fs
  ∧ (body_size rc < maxFileSize)%Z ∧ body_broken rc = false.
Proof.
  unfold readCloserToReadSeekerFile, os_CreateTemp.
  destruct (fs_can_create fs); [|discriminate]. rewrite io_Copy_spec.
  set (src := {| lr_R := rc; lr_N := maxFileSize |}).
  assert (Hmax : (0 < maxFileSize)%Z) by done.
  destruct (copy_err src) eqn:Herr; [discriminate|].
  unfold after_copy at 1. cbn [lr_N lr_R].
  destruct (Z.eqb_spec (lr_N src - copied src) 0) as [Hz|Hz]; [discriminate|].
  intros [= <- <-]. cbn [tmp_payload tmp_name]. split; [done|]. split; [done|].
  unfold copied, src in Hz. cbn [lr_R lr_N] in Hz.
  assert (Hlt : (body_size rc < maxFileSize)%Z) by lia. split; [done|].
  unfold copy_err, src in Herr. cbn [lr_R lr_N] in Herr.
  destruct (Z.ltb_spec (body_size rc) maxFileSize); [|lia].
  by destruct (body_broken rc).
Qed.

Lemma remove_last fs fs' f :
  fs_ok fs → fs_files fs' = fs_files fs ++ [f] → tmp_name f = fs_next fs →
  (os_Remove (fs_next fs) fs').1 = None
  ∧ fs_files (os_Remove (fs_next fs) fs').2 = fs_files fs.
Proof.
  intros Hok Hfiles Hname. unfold os_Remove. rewrite Hfiles.
  assert (Hex : existsb (has_name (fs_next fs)) (fs_files fs ++ [f]) = true).
  { rewrite existsb_app. cbn [existsb]. unfold has_name at 2. rewrite Hname.
    by rewrite Nat.eqb_refl, !orb_true_r. }
  rewrite Hex. cbn [fst snd fs_files]. split; [done|].
  rewrite filter_app, filter_cons, filter_nil.
  rewrite decide_False by (intros H; by apply H). rewrite app_nil_r.
  apply filter_all. eapply Forall_impl; [exact Hok|].
  intros g Hg. cbn in *. lia.
Qed.

Lemma msox_files_header env files msox :
  msox_docType (msox_files env files msox).1 = msox_docType msox
  ∧ msox_Url (msox_files env files msox).1 = msox_Url msox.
Proof.
  revert msox. induction files as [|[name data] files IH]; intros msox;
    cbn [msox_files]; [done|].
  destruct (String.eqb name "docProps/core.xml").
  - destruct (xml_Decode_core env data _); [|done].
    destruct (IH (mkMsox (msox_docType msox) (msox_Url msox) t
                    (msox_AppProperty msox))) as [-> ->]. done.
  - destruct (String.eqb name "docProps/app.xml"); [|apply IH].
    destruct (xml_Decode_app env data _); [|done].
    destruct (IH (mkMsox (msox_docType msox) (msox_Url msox)
                    (msox_CoreProperty msox) t)) as [-> ->]. done.
Qed.

Lemma msox_files_error env files msox m err :
  msox_files env files msox = (m, Some err) → err = ErrParse.
Proof.
  revert msox. induction files as [|[name data] files IH]; intros msox;
    cbn [msox_files]; [discriminate|].
  destruct (String.eqb name "docProps/core.xml").
  - destruct (xml_Decode_core env data _); [apply IH|congruence].
  - destruct (String.eqb name "docProps/app.xml"); [|apply IH].
    destruct (xml_Decode_app env data _); [apply IH|congruence].
Qed.

Lemma pdf_Do_cases env pdf url fs p err fs' :
  fs_ok fs → pdf_Do env pdf url fs = Some (p, err, fs') →
  fs_ok fs'
  ∧ (err = Some ErrParse →
     ∃ resp, client_Get env url = Some resp ∧ StatusCode resp = 200%Z
             ∧ p = pdf_begin pdf url
             ∧ fs_files fs'
               = fs_files fs ++ [mkTmp (fs_next fs)
                                   (Z.max 0 (body_size (RespBody resp)))
                                   (body_payload (RespBody resp))])
  ∧ (err ≠ Some ErrParse → fs_files fs' = fs_files fs)
  ∧ err ≠ Some ErrRemove.
Proof.
  intros Hok. unfold pdf_Do.
  destruct (client_Get env url) as [resp|] eqn:Hget.
  2:{ intros [= <- <- <-]. by repeat split. }
  destruct (Z.eqb_spec (StatusCode resp) 200) as [H200|H200]; cbn [negb].
  2:{ intros [= <- <- <-]. by repeat split. }
  destruct (readCloser_cases (RespBody resp) fs Hok)
    as (res & fs1 & -> & Hres & Hok1 & Hc & Hfiles).
  destruct res as [e|f].
  - intros [= <- <- <-]. split; [done|].
    assert (He : e ≠ ErrParse ∧ e ≠ ErrRemove).
    { destruct (negb (fs_can_create fs)); [by inversion Hres|].
      destruct (maxFileSize <=? _)%Z; [by inversion Hres|].
      destruct (body_broken _); by inversion Hres. }
    destruct He as [He1 He2].
    split; [intros [= ?]; done|]. split; [done|]. intros [= ?]; done.
  - assert (Hf : f = mkTmp (fs_next fs) (Z.max 0 (body_size (RespBody resp)))
                       (body_payload (RespBody resp))).
    { destruct (negb (fs_can_create fs)); [discriminate|].
      destruct (maxFileSize <=? _)%Z; [discriminate|].
      destruct (body_broken _); [discriminate|]. by inversion Hres. }
    destruct (api_PDFInfo env (tmp_payload f)) as [info|].
    + assert (Hname : tmp_name f = fs_next fs) by (by rewrite Hf).
      destruct (remove_last fs fs1 f Hok Hfiles Hname) as [Hnone Hrm].
      rewrite Hname.
      pose proof (os_Remove_fields (fs_next fs) fs1) as [Hnext _].
      destruct (os_Remove (fs_next fs) fs1) as [[e|] fs2]; [discriminate|].
      cbn [fst snd] in *. intros [= <- <- <-].
      split; [|by repeat split].
      unfold fs_ok. rewrite Hrm, Hnext.
      eapply Forall_impl; [exact Hok|]. intros g Hg. cbn in *.
      assert (fs_next fs ≤ fs_next fs1); [|lia].
      unfold fs_ok in Hok1. rewrite Hfiles in Hok1.
      pose proof (proj1 (Forall_app _ _ _) Hok1) as [_ Hlast].
      pose proof (proj1 (Forall_singleton _ _) Hlast) as Hlt. cbn in Hlt. lia.
    + intros [= <- <- <-]. split; [done|]. split; [|split; [done|done]].
      intros _. exists resp. by rewrite <- Hf.
Qed.

Lemma msox_Do_cases env msox url fs m err fs' :
  fs_ok fs → msox_Do env msox url fs = Some (m, err, fs') →
  fs_ok fs'
  ∧ (err = Some ErrParse →
     ∃ resp, client_Get env url = Some resp ∧ StatusCode resp = 200%Z
             ∧ fs_files fs'
               = fs_files fs ++ [mkTmp (fs_next fs)
                                   (Z.max 0 (body_size (RespBody resp)))
                                   (body_payload (RespBody resp))])
  ∧ (err ≠ Some ErrParse → fs_files fs' = fs_files fs)
  ∧ err ≠ Some ErrRemove.
Proof.
  intros Hok. unfold msox_Do.
  destruct (client_Get env url) as [resp|] eqn:Hget.
  2:{ intros [= <- <- <-]. by repeat split. }
  destruct (Z.eqb_spec (StatusCode resp) 200) as [H200|H200]; cbn [negb].
  2:{ intros [= <- <- <-]. by repeat split. }
  destruct (readCloser_cases (RespBody resp) fs Hok)
    as (res & fs1 & -> & Hres & Hok1 & Hc & Hfiles).
  destruct res as [e|f].
  - intros [= <- <- <-]. split; [done|].
    assert (He : e ≠ ErrParse ∧ e ≠ ErrRemove).
    { destruct (negb (fs_can_create fs)); [by inversion Hres|].
      destruct (maxFileSize <=? _)%Z; [by inversion Hres|].
      destruct (body_broken _); by inversion Hres. }
    destruct He as [He1 He2].
    split; [intros [= ?]; done|]. split; [done|]. intros [= ?]; done.
  - assert (Hf : f = mkTmp (fs_next fs) (Z.max 0 (body_size (RespBody resp)))
                       (body_payload (RespBody resp))).
    { destruct (negb (fs_can_create fs)); [discriminate|].
      destruct (maxFileSize <=? _)%Z; [discriminate|].
      destruct (body_broken _); [discriminate|]. by inversion Hres. }
    destruct (zip_OpenReader env (tmp_payload f)) as [files|].
    2:{ intros [= <- <- <-]. split; [done|]. split; [|split; [done|done]].
      intros _. exists resp. by rewrite <- Hf. }
    destruct (msox_files env files _) as [m' [e|]] eqn:Hloop.
    { apply msox_files_error in Hloop as ->.
      intros [= <- <- <-]. split; [done|]. split; [|split; [done|done]].
      intros _. exists resp. by rewrite <- Hf. }
    assert (Hname : tmp_name f = fs_next fs) by (by rewrite Hf).
    destruct (remove_last fs fs1 f Hok Hfiles Hname) as [Hnone Hrm].
    rewrite Hname.
    pose proof (os_Remove_fields (fs_next fs) fs1) as [Hnext _].
    destruct (os_Remove (fs_next fs) fs1) as [[e|] fs2]; [discriminate|].
    cbn [fst snd] in *. intros [= <- <- <-].
    split; [|by repeat split].
    unfold fs_ok. rewrite Hrm, Hnext.
    eapply Forall_impl; [exact Hok|]. intros g Hg. cbn in *.
    assert (fs_next fs ≤ fs_next fs1); [|lia].
    unfold fs_ok in Hok1. rewrite Hfiles in Hok1.
    pose proof (proj1 (Forall_app _ _ _) Hok1) as [_ Hlast].
    pose proof (proj1 (Forall_singleton _ _) Hlast) as Hlt. cbn in Hlt. lia.
Qed.

(** X8. [Do] of either researcher leaves a temporary file behind in exactly
    one situation: when the download succeeded and the parser (pdfcpu, zip
    or xml) then returned an error; the error return skips [os.Remove], so
    the directory holds one file more, the downloaded body.  On success
    and on every other error the directory holds the files it held before;
    the file is there when [os.Remove] is called, so that call does not
    report a missing file. *)
Theorem Do_leaves_file_only_on_parse_error (env : Env) (r : Researcher) (url : string) (fs : FS) (r' : Researcher) (err : option error) (fs' : FS) :
  fs_ok fs →
  Do env r url fs = Some (r', err, fs') →
  fs_ok fs'
  ∧ (err = Some ErrParse →
     ∃ resp, client_Get env url = Some resp ∧ StatusCode resp = 200%Z
             ∧ fs_files fs'
               = fs_files fs ++ [mkTmp (fs_next fs)
                                   (Z.max 0 (body_size (RespBody resp)))
                                   (body_payload (RespBody resp))])
  ∧ (err ≠ Some ErrParse → fs_files fs' = fs_files fs)
  ∧ err ≠ Some ErrRemove.
Proof.
  intros Hok. destruct r as [pdf|msox]; cbn [Do].
  - destruct (pdf_Do env pdf url fs) as [[[p e] fs1]|] eqn:Hdo; [|discriminate].
    intros [= <- <- <-].
    destruct (pdf_Do_cases env pdf url fs p e fs1 Hok Hdo) as (H1 & H2 & H3 & H4).
    split; [done|]. split; [|done].
    intros He. destruct (H2 He) as (resp & ? & ? & _ & ?). eauto.
  - destruct (msox_Do env msox url fs) as [[[m e] fs1]|] eqn:Hdo; [|discriminate].
    intros [= <- <- <-].
    by apply (msox_Do_cases env msox url fs m e fs1 Hok Hdo).
Qed.

Lemma Do_leaves_file_only_on_parse_error_witness :
  let url := "http://h/a.html" in
  let p := pdf_begin newPdf url in
  let fs' := {| fs_files := [mkTmp 0 80 "page-a"]; fs_next := 1;
                fs_can_create := true |} in
  fs_ok Demo.fs0
  ∧ Do Demo.env (RPdf newPdf) url Demo.fs0 = Some (RPdf p, Some ErrParse, fs')
  ∧ fs_ok fs'
  ∧ (Some ErrParse = Some ErrParse →
     ∃ resp, client_Get Demo.env url = Some resp ∧ StatusCode resp = 200%Z
             ∧ fs_files fs'
               = fs_files Demo.fs0 ++ [mkTmp (fs_next Demo.fs0)
                                         (Z.max 0 (body_size (RespBody resp)))
                                         (body_payload (RespBody resp))])
  ∧ (Some ErrParse ≠ Some ErrParse → fs_files fs' = fs_files Demo.fs0)
  ∧ Some ErrParse ≠ Some ErrRemove.
Proof.
  assert (Hdo : Do Demo.env (RPdf newPdf) "http://h/a.html" Demo.fs0
                = Some (RPdf (pdf_begin newPdf "http://h/a.html"), Some ErrParse,
                        {| fs_files := [mkTmp 0 80 "page-a"]; fs_next := 1;
                           fs_can_create := true |}))
    by (vm_compute; reflexivity).
  split; [exact fs_ok_demo|]. split; [exact Hdo|].
  exact (Do_leaves_file_only_on_parse_error Demo.env (RPdf newPdf)
           "http://h/a.html" Demo.fs0 _ _ _ fs_ok_demo Hdo).
Defined.

(** X9. What a researcher made by [New] holds after [Do]: a [tPdf] comes
    only from type [pdf], has [docType] [pdf] and the URL, never a file
    name or a version, no metadata at all when [Do] returned an error, and
    on success the seven fields of the parser's result for the body; a
    [tMsox] comes from [docx], [xlsx] or [pptx] alike and has [docType]
    [msox] and the URL, so the requested type is not recorded. *)
Theorem Do_result_fields (env : Env) (t : string) (eng : Researcher) (url : string) (fs : FS) (r : Researcher) (err : option error) (fs' : FS) :
  New t = Some eng →
  Do env eng url fs = Some (r, err, fs') →
  match r with
  | RPdf p =>
      t = "pdf" ∧ pdf_docType p = "pdf" ∧ pdf_Url p = url
      ∧ pdf_FileName p = "" ∧ pdf_Version p = ""
      ∧ (err ≠ None → p = pdf_begin newPdf url)
      ∧ (err = None →
         ∃ resp info,
           client_Get env url = Some resp ∧ StatusCode resp = 200%Z
           ∧ (body_size (RespBody resp) < maxFileSize)%Z
           ∧ body_broken (RespBody resp) = false
           ∧ api_PDFInfo env (body_payload (RespBody resp)) = Some info
           ∧ p = pdf_store (pdf_begin newPdf url) info)
  | RMsox m =>
      (t = "docx" ∨ t = "xlsx" ∨ t = "pptx")
      ∧ msox_docType m = "msox" ∧ msox_Url m = url
  end.
Proof.
  intros Hnew Hdo.
  assert (Hreg : Is t = true) by (unfold Is, New in *; by destruct (allFileTypes !! t)).
  apply Is_registered in Hreg.
  assert (Heng : eng = if String.eqb t "pdf" then RPdf newPdf else RMsox newMsox).
  { destruct Hreg as [-> | [-> | [-> | ->]]]; vm_compute in Hnew;
      injection Hnew as <-; reflexivity. }
  destruct (String.eqb_spec t "pdf") as [->|Hne]; subst eng; cbn [Do] in Hdo.
  - destruct (pdf_Do env newPdf url fs) as [[[p e] fs1]|] eqn:Hp; [|discriminate].
    injection Hdo as <- <- <-. unfold pdf_Do in Hp.
    destruct (client_Get env url) as [resp|] eqn:Hget.
    2:{ injection Hp as <- <- <-. by repeat split. }
    destruct (Z.eqb_spec (StatusCode resp) 200) as [H200|H200]; cbn [negb] in Hp.
    2:{ injection Hp as <- <- <-. by repeat split. }
    destruct (readCloserToReadSeekerFile (RespBody resp) fs)
      as [[[e0|f] fs1']|] eqn:Hrc; [| |discriminate].
    { injection Hp as <- <- <-. by repeat split. }
    apply readCloser_inr in Hrc as (Hpay & _ & Hsize & Hbr).
    destruct (api_PDFInfo env (tmp_payload f)) as [info|] eqn:Hinfo.
    2:{ injection Hp as <- <- <-. by repeat split. }
    destruct (os_Remove (tmp_name f) fs1') as [[e0|] fs2].
    { injection Hp as <- <- <-. by repeat split. }
    injection Hp as <- <- <-. repeat split; try done.
    intros _. exists resp, info. rewrite <- Hpay. by repeat split.
  - assert (Ht : t = "docx" ∨ t = "xlsx" ∨ t = "pptx")
      by (destruct Hreg as [-> | ?]; done).
    destruct (msox_Do env newMsox url fs) as [[[m e] fs1]|] eqn:Hm; [|discriminate].
    injection Hdo as <- <- <-. split; [done|]. unfold msox_Do in Hm.
    destruct (client_Get env url) as [resp|].
    2:{ by injection Hm as <- <- <-. }
    destruct (negb (StatusCode resp =? 200)%Z).
    { by injection Hm as <- <- <-. }
    destruct (readCloserToReadSeekerFile (RespBody resp) fs)
      as [[[e0|f] fs1']|]; [| |discriminate].
    { by injection Hm as <- <- <-. }
    destruct (zip_OpenReader env (tmp_payload f)) as [files|].
    2:{ by injection Hm as <- <- <-. }
    pose proof (msox_files_header env files
                  (mkMsox "msox" url (msox_CoreProperty newMsox)
                     (msox_AppProperty newMsox))) as [Hty Hurl].
    destruct (msox_files env files _) as [m' [e0|]].
    { by injection Hm as <- <- <-. }
    destruct (os_Remove (tmp_name f) fs1') as [[e0|] fs2];
      by injection Hm as <- <- <-.
Qed.

Lemma Do_result_fields_witness :
  let url := "http://h/doc.pdf" in
  let p := pdf_store (pdf_begin newPdf url)
             (mkPDFInfo "Title" "Author" "" "" "" "" "") in
  let fs' := {| fs_files := []; fs_next := 1; fs_can_create := true |} in
  New "pdf" = Some (RPdf newPdf)
  ∧ Do Demo.env (RPdf newPdf) url Demo.fs0 = Some (RPdf p, None, fs')
  ∧ "pdf" = "pdf" ∧ pdf_docType p = "pdf" ∧ pdf_Url p = url
  ∧ pdf_FileName p = "" ∧ pdf_Version p = ""
  ∧ ((None : option error) ≠ None → p = pdf_begin newPdf url)
  ∧ ((None : option error) = None →
     ∃ resp info,
       client_Get Demo.env url = Some resp ∧ StatusCode resp = 200%Z
       ∧ (body_size (RespBody resp) < maxFileSize)%Z
       ∧ body_broken (RespBody resp) = false
       ∧ api_PDFInfo Demo.env (body_payload (RespBody resp)) = Some info
       ∧ p = pdf_store (pdf_begin newPdf url) info).
Proof.
  assert (Hnew : New "pdf" = Some (RPdf newPdf)) by reflexivity.
  assert (Hdo : Do Demo.env (RPdf newPdf) "http://h/doc.pdf" Demo.fs0
                = Some (RPdf (pdf_store (pdf_begin newPdf "http://h/doc.pdf")
                                (mkPDFInfo "Title" "Author" "" "" "" "" "")),
                        None,
                        {| fs_files := []; fs_next := 1; fs_can_create := true |}))
    by (vm_compute; reflexivity).
  split; [exact Hnew|]. split; [exact Hdo|].
  exact (Do_result_fields Demo.env "pdf" (RPdf newPdf) "http://h/doc.pdf"
           Demo.fs0 _ _ _ Hnew Hdo).
Defined.

(** X10. The loop of [tMsox.Do] over the archive reads only entries named
    [docProps/core.xml] and [docProps/app.xml]: the result is the one for
    the archive with every other entry left out, [docType] and [Url] are
    not touched, and an archive with neither entry ends the loop without
    error and with the properties as they were. *)
Theorem msox_files_reads_only_property_parts (env : Env) (files : list (string * string)) (msox : tMsox) :
  let parts := filter (λ f : string * string,
                         f.1 = "docProps/core.xml" ∨ f.1 = "docProps/app.xml")
                 files in
  msox_files env files msox = msox_files env parts msox
  ∧ msox_docType (msox_files env files msox).1 = msox_docType msox
  ∧ msox_Url (msox_files env files msox).1 = msox_Url msox
  ∧ (parts = [] → msox_files env files msox = (msox, None)).
Proof.
  intros parts.
  assert (Heq : msox_files env files msox = msox_files env parts msox).
  { unfold parts. clear parts. revert msox.
    induction files as [|[name data] files IH]; intros msox; [done|].
    rewrite filter_cons. cbn [fst msox_files].
    destruct (String.eqb_spec name "docProps/core.xml") as [->|Hcore].
    - rewrite decide_True by (by left). cbn [msox_files String.eqb].
      change (String.eqb "docProps/core.xml" "docProps/core.xml") with true.
      cbn iota. destruct (xml_Decode_core env data _); [apply IH|done].
    - destruct (String.eqb_spec name "docProps/app.xml") as [->|Happ].
      + rewrite decide_True by (by right). cbn [msox_files].
        change (String.eqb "docProps/app.xml" "docProps/core.xml") with false.
        change (String.eqb "docProps/app.xml" "docProps/app.xml") with true.
        cbn iota. destruct (xml_Decode_app env data _); [apply IH|done].
      + rewrite decide_False by (intros [?|?]; done). apply IH. }
  split; [done|]. pose proof (msox_files_header env files msox) as [H1 H2].
  split; [done|]. split; [done|]. intros Hnil. by rewrite Heq, Hnil.
Qed.

(** ** engine.go: the analyser's result and the order of its goroutines *)

Lemma readCloser_can_create rc fs res fs' :
  readCloserToReadSeekerFile rc fs = Some (res, fs') →
  fs_can_create fs' = fs_can_create fs.
Proof.
  unfold readCloserToReadSeekerFile, os_CreateTemp.
  destruct (fs_can_create fs) eqn:Hc; [|intros [= <- <-]; done].
  rewrite io_Copy_spec. destruct (copy_err _).
  - intros [= <- <-]. by rewrite (proj2 (os_Remove_fields _ _)).
  - destruct (_ =? 0)%Z; intros [= <- <-]; [|done].
    by rewrite (proj2 (os_Remove_fields _ _)).
Qed.

Lemma Do_can_create env r url fs r' err fs' :
  Do env r url fs = Some (r', err, fs') →
  fs_can_create fs' = fs_can_create fs.
Proof.
  destruct r as [pdf|msox]; cbn [Do].
  - destruct (pdf_Do env pdf url fs) as [[[p e] fs1]|] eqn:Hdo; [|discriminate].
    intros [= <- <- <-]. unfold pdf_Do in Hdo.
    destruct (client_Get env url) as [resp|]; [|by injection Hdo as <- <- <-].
    destruct (negb _); [by injection Hdo as <- <- <-|].
    destruct (readCloserToReadSeekerFile (RespBody resp) fs)
      as [[[e0|f] fs2]|] eqn:Hrc; [| |discriminate];
      apply readCloser_can_create in Hrc.
    + by injection Hdo as <- <- <-.
    + destruct (api_PDFInfo env _); [|by injection Hdo as <- <- <-].
      pose proof (os_Remove_fields (tmp_name f) fs2) as [_ Hrm].
      destruct (os_Remove (tmp_name f) fs2) as [[e0|] fs3];
        injection Hdo as <- <- <-; cbn [snd] in Hrm; congruence.
  - destruct (msox_Do env msox url fs) as [[[m e] fs1]|] eqn:Hdo; [|discriminate].
    intros [= <- <- <-]. unfold msox_Do in Hdo.
    destruct (client_Get env url) as [resp|]; [|by injection Hdo as <- <- <-].
    destruct (negb _); [by injection Hdo as <- <- <-|].
    destruct (readCloserToReadSeekerFile (RespBody resp) fs)
      as [[[e0|f] fs2]|] eqn:Hrc; [| |discriminate];
      apply readCloser_can_create in Hrc.
    + by injection Hdo as <- <- <-.
    + destruct (zip_OpenReader env _) as [files|]; [|by injection Hdo as <- <- <-].
      destruct (msox_files env files _) as [m' [e0|]];
        [by injection Hdo as <- <- <-|].
      pose proof (os_Remove_fields (tmp_name f) fs2) as [_ Hrm].
      destruct (os_Remove (tmp_name f) fs2) as [[e0|] fs3];
        injection Hdo as <- <- <-; cbn [snd] in Hrm; congruence.
Qed.

Lemma Do_fs_ok env r url fs r' err fs' :
  fs_ok fs → Do env r url fs = Some (r', err, fs') → fs_ok fs'.
Proof.
  intros Hok. destruct r as [pdf|msox]; cbn [Do].
  - destruct (pdf_Do env pdf url fs) as [[[p e] fs1]|] eqn:Hdo; [|discriminate].
    intros [= <- <- <-]. by apply (pdf_Do_cases env pdf url fs p e fs1 Hok Hdo).
  - destruct (msox_Do env msox url fs) as [[[m e] fs1]|] eqn:Hdo; [|discriminate].
    intros [= <- <- <-]. by apply (msox_Do_cases env msox url fs m e fs1 Hok Hdo).
Qed.

(** The researcher and the error of [Do] do not depend on which files the
    temporary directory holds. *)
Lemma Do_indep env r url fs1 fs2 :
  fs_ok fs1 → fs_ok fs2 → fs_can_create fs1 = fs_can_create fs2 →
  ∃ r' err fs1' fs2',
    Do env r url fs1 = Some (r', err, fs1')
    ∧ Do env r url fs2 = Some (r', err, fs2').
Proof.
  intros Hok1 Hok2 Hc.
  assert (Hrc : ∀ rc,
    ∃ res1 g1 res2 g2,
      readCloserToReadSeekerFile rc fs1 = Some (res1, g1)
      ∧ readCloserToReadSeekerFile rc fs2 = Some (res2, g2)
      ∧ match res1, res2 with
        | inl e1, inl e2 => e1 = e2
        | inr f1, inr f2 =>
            tmp_payload f1 = tmp_payload f2
            ∧ (os_Remove (tmp_name f1) g1).1 = None
            ∧ (os_Remove (tmp_name f2) g2).1 = None
        | _, _ => False
        end).
  { intros rc.
    destruct (readCloser_cases rc fs1 Hok1) as (res1 & g1 & E1 & Hres1 & _ & _ & Hf1).
    destruct (readCloser_cases rc fs2 Hok2) as (res2 & g2 & E2 & Hres2 & _ & _ & Hf2).
    exists res1, g1, res2, g2. split; [done|]. split; [done|].
    rewrite <- Hc in Hres2.
    destruct (negb (fs_can_create fs1)); [by subst|].
    destruct (maxFileSize <=? body_size rc)%Z; [by subst|].
    destruct (body_broken rc); [by subst|]. subst res1 res2.
    cbn [tmp_payload tmp_name]. split; [done|]. split.
    - by apply (remove_last fs1 g1 _ Hok1 Hf1).
    - by apply (remove_last fs2 g2 _ Hok2 Hf2). }
  destruct r as [pdf|msox]; cbn [Do]; [unfold pdf_Do|unfold msox_Do].
  - destruct (client_Get env url) as [resp|]; [|eauto 8].
    destruct (negb _); [eauto 8|].
    destruct (Hrc (RespBody resp)) as (res1 & g1 & res2 & g2 & -> & -> & Hres).
    destruct res1 as [e1|f1], res2 as [e2|f2]; try done.
    + subst e2. eauto 8.
    + destruct Hres as (-> & Hrm1 & Hrm2).
      destruct (api_PDFInfo env (tmp_payload f2)); [|eauto 8].
      destruct (os_Remove (tmp_name f1) g1) as [[?|] ?]; [discriminate|].
      destruct (os_Remove (tmp_name f2) g2) as [[?|] ?]; [discriminate|].
      eauto 8.
  - destruct (client_Get env url) as [resp|]; [|eauto 8].
    destruct (negb _); [eauto 8|].
    destruct (Hrc (RespBody resp)) as (res1 & g1 & res2 & g2 & -> & -> & Hres).
    destruct res1 as [e1|f1], res2 as [e2|f2]; try done.
    + subst e2. eauto 8.
    + destruct Hres as (-> & Hrm1 & Hrm2).
      destruct (zip_OpenReader env (tmp_payload f2)) as [files|]; [|eauto 8].
      destruct (msox_files env files _) as [m' [e0|]]; [eauto 8|].
      destruct (os_Remove (tmp_name f1) g1) as [[?|] ?]; [discriminate|].
      destruct (os_Remove (tmp_name f2) g2) as [[?|] ?]; [discriminate|].
      eauto 8.
Qed.

Lemma analyse_url_uniform env types u a :
  forallb Is types = true → fs_ok (an_fs a) →
  ∃ b, analyse_url env types u a = Finished b
       ∧ an_docs b
         = match stored_for env types (fs_can_create (an_fs a)) u with
           | Some r => <[URL_String u := r]> (an_docs a)
           | None => an_docs a
           end
       ∧ fs_ok (an_fs b)
       ∧ fs_can_create (an_fs b) = fs_can_create (an_fs a)
       ∧ an_calls b = an_calls a ++ option_list (dispatch types u).
Proof.
  intros Htypes Hok. unfold stored_for, dispatch, analyse_url.
  destruct (match_type types (URL_String u)) as [t|] eqn:Hm.
  2:{ exists a. by rewrite app_nil_r. }
  pose proof (match_type_registered types _ t Htypes Hm) as Hreg.
  assert (Hnew : ∃ eng, New t = Some eng).
  { unfold Is, New in *. destruct (allFileTypes !! t); [eauto|done]. }
  destruct Hnew as [eng ->].
  set (fs0 := {| fs_files := []; fs_next := 0;
                 fs_can_create := fs_can_create (an_fs a) |}).
  assert (Hok0 : fs_ok fs0) by apply Forall_nil_2.
  destruct (Do_indep env eng (URL_String u) (an_fs a) fs0 Hok Hok0 eq_refl)
    as (r' & err & fs1 & fs2 & Hdo & Hdo0).
  cbn [an_docs an_fs an_calls]. fold fs0. rewrite Hdo, Hdo0.
  eexists. split; [reflexivity|]. cbn [an_docs an_fs an_calls].
  split; [|split; [|split]].
  - destruct err; [done|]. by rewrite lookup_insert_eq.
  - by apply (Do_fs_ok _ _ _ _ _ _ _ Hok Hdo).
  - by apply (Do_can_create _ _ _ _ _ _ _ Hdo).
  - done.
Qed.

Lemma analyse_all_lookup env types order a :
  forallb Is types = true → fs_ok (an_fs a) → NoDup (URL_String <$> order) →
  ∃ b, analyse_all env types order a = Finished b
       ∧ (∀ u, u ∈ order →
               an_docs b !! URL_String u
               = match stored_for env types (fs_can_create (an_fs a)) u with
                 | Some r => Some r
                 | None => an_docs a !! URL_String u
                 end)
       ∧ (∀ k, k ∉ URL_String <$> order → an_docs b !! k = an_docs a !! k)
       ∧ an_calls b = an_calls a ++ dispatches types order.
Proof.
  intros Htypes. revert a. induction order as [|u order IH]; intros a Hok Hnd.
  - exists a. cbn [analyse_all]. split; [done|]. split; [by intros ? ?%elem_of_nil|].
    split; [done|]. by rewrite app_nil_r.
  - csimpl in Hnd. apply NoDup_cons in Hnd as [Hu Hnd].
    destruct (analyse_url_uniform env types u a Htypes Hok)
      as (a1 & Hstep & Hdocs & Hok1 & Hc & Hcalls).
    destruct (IH a1 Hok1 Hnd) as (b & Hall & Hin & Hout & Hcalls').
    exists b. cbn [analyse_all]. rewrite Hstep. split; [done|].
    assert (Hother : ∀ k, k ≠ URL_String u → an_docs a1 !! k = an_docs a !! k).
    { intros k Hk. rewrite Hdocs. destruct (stored_for _ _ _ u); [|done].
      by rewrite lookup_insert_ne. }
    split; [|split].
    + intros v Hv. apply elem_of_cons in Hv as [->|Hv].
      * rewrite Hout by done. rewrite Hdocs.
        destruct (stored_for _ _ _ u); [|done]. by rewrite lookup_insert_eq.
      * rewrite (Hin v Hv), Hc. destruct (stored_for _ _ _ v); [done|].
        apply Hother. intros Heq. apply Hu. rewrite <- Heq.
        apply list_elem_of_fmap. by exists v.
    + intros k Hk. csimpl in Hk. apply not_elem_of_cons in Hk as [Hk1 Hk2].
      rewrite Hout by done. by apply Hother.
    + rewrite Hcalls', Hcalls, dispatches_cons. by rewrite app_assoc.
Qed.

(** X11. The analyser's result does not depend on the order in which its
    goroutines take the mutex, nor on which files the temporary directory
    holds: for two orders of the same URLs with distinct canonical strings
    it finishes with the same engine, in particular the same result store,
    and makes the same [Do] calls up to order. *)
Theorem analyser_result_independent_of_order (env : Env) (e : tEngine) (order1 order2 : list URL) (fs1 fs2 : FS) :
  forallb Is (docTypes e) = true →
  (0 < paramax e)%Z →
  NoDup (URL_String <$> order1) →
  order1 ≡ₚ order2 →
  fs_ok fs1 → fs_ok fs2 → fs_can_create fs1 = fs_can_create fs2 →
  ∃ e' fs1' fs2' calls1 calls2,
    analyser env e order1 fs1 = Finished (e', fs1', calls1, None)
    ∧ analyser env e order2 fs2 = Finished (e', fs2', calls2, None)
    ∧ calls1 ≡ₚ calls2.
Proof.
  intros Htypes Hpar Hnd Hperm Hok1 Hok2 Hc.
  assert (Hnd2 : NoDup (URL_String <$> order2)) by (by rewrite <- Hperm).
  destruct (analyse_all_lookup env (docTypes e) order1
              (mkAnalysis (docStorage e) fs1 []) Htypes Hok1 Hnd)
    as (b1 & Hall1 & Hin1 & Hout1 & Hcalls1).
  destruct (analyse_all_lookup env (docTypes e) order2
              (mkAnalysis (docStorage e) fs2 []) Htypes Hok2 Hnd2)
    as (b2 & Hall2 & Hin2 & Hout2 & Hcalls2).
  cbn [an_docs an_fs an_calls] in *.
  assert (Hdocs : an_docs b1 = an_docs b2).
  { apply map_eq. intros k.
    destruct (decide (k ∈ URL_String <$> order1)) as [Hk|Hk].
    - apply list_elem_of_fmap in Hk as (u & -> & Hu).
      rewrite (Hin1 u Hu), (Hin2 u) by (by rewrite <- Hperm). by rewrite Hc.
    - rewrite Hout1 by done. rewrite Hout2; [done|]. by rewrite <- Hperm. }
  unfold analyser.
  destruct (Z.ltb_spec (paramax e) 0); [lia|].
  destruct (Z.eqb_spec (paramax e) 0); [lia|]. cbn [andb].
  rewrite Hall1, Hall2, Hdocs. eexists _, _, _, _, _.
  split; [reflexivity|]. split; [reflexivity|].
  rewrite Hcalls1, Hcalls2. cbn [app]. unfold dispatches. by rewrite Hperm.
Qed.

(** ** engine.go: [crawl] *)

Section CrawlMore.

Context (env : Env) (e : tEngine).

Lemma crawl_step_bounded a s s' :
  workers_bounded e s → crawl_step env e a s = Some s' → workers_bounded e s'.
Proof.
  intros (Hb1 & Hb2 & Hb3) Hstep. destruct a as [|i]; cbn [crawl_step] in Hstep.
  - unfold coordinator_step in Hstep. destruct (cs_pc s) as [| |u|].
    + destruct (use (cs_storage s)) as [[[u|] [|]] us'];
        try discriminate; by injection Hstep as <-.
    + by injection Hstep as <-.
    + destruct (Z.ltb_spec (Z.of_nat (length (cs_workers s))) (paramax e));
        [|discriminate].
      injection Hstep as <-. unfold workers_bounded; crawl_fields.
      rewrite !length_app. cbn [length]. split; [lia|]. split; [lia|]. lia.
    + discriminate.
  - unfold worker_step in Hstep.
    destruct (cs_workers s !! i) as [[|u rest]|] eqn:Hi; [| |discriminate];
      injection Hstep as <-; unfold workers_bounded; crawl_fields.
    + rewrite length_delete by eauto. split; [lia|]. split; [lia|done].
    + rewrite length_insert. done.
Qed.

Lemma crawl_run_bounded sched s :
  workers_bounded e s → workers_bounded e (crawl_run env e sched s).
Proof.
  revert s. induction sched as [|a sched IH]; intros s Hb; [done|].
  cbn [crawl_run]. apply IH.
  destruct (crawl_step env e a s) eqn:E; cbn [default]; [|done].
  by eapply crawl_step_bounded.
Qed.

Lemma add_status_mono u us k :
  is_Some (urlStatus us !! k) → is_Some (urlStatus (add (Some u) us).1 !! k).
Proof.
  intros Hk. cbn [add]. destruct (urlStatus us !! URL_String u); cbn; [done|].
  by apply lookup_insert_is_Some'; right.
Qed.

Lemma add_status_new u us :
  is_Some (urlStatus (add (Some u) us).1 !! URL_String u).
Proof.
  cbn [add]. destruct (urlStatus us !! URL_String u) eqn:E; cbn.
  - by rewrite E.
  - by rewrite lookup_insert_eq.
Qed.

Lemma crawl_init_closure s0 :
  urlStorage e = newUrlStorage → crawl_init env e = Some s0 →
  crawl_closure env e s0 ∧ quiet s0.
Proof.
  intros Hnew Hinit. unfold crawl_init in Hinit.
  destruct (paramax e <? 0)%Z; [discriminate|]. injection Hinit as <-.
  destruct (fold_add_status (harv_adds env (URL_String (url e))) newUrlStorage)
    as [_ Hst].
  split; [split|]; crawl_fields.
  - intros v Hv. unfold harv. rewrite Hnew, Hst by done.
    rewrite decide_True; [done|]. apply list_elem_of_fmap. by exists v.
  - by intros u v ?%elem_of_nil.
  - intros k. unfold harv. rewrite Hnew, Hst by done. by destruct (decide _).
  - intros [?|?]; discriminate.
Qed.

Lemma coordinator_step_closure s s' :
  crawl_inv env e s → crawl_closure env e s →
  coordinator_step env e s = Some s' → crawl_closure env e s'.
Proof.
  intros Hinv [Hseed Hlinks Hused] Hstep. unfold coordinator_step in Hstep.
  destruct (cs_pc s) as [| |u|] eqn:Hpc.
  - destruct (use (cs_storage s)) as [[u found] us'] eqn:Hu. destruct found.
    + destruct (use_found _ _ _ _ (ci_wf _ _ _ Hinv) Hu eq_refl)
        as (v & -> & Hun & Hst & Hob).
      injection Hstep as <-. split; crawl_fields.
      * intros w Hw. rewrite Hst. apply lookup_insert_is_Some'. right. eauto.
      * intros w x Hw Hx. destruct (Hlinks w x Hw Hx) as [Hreg|Hfl]; [|by right].
        left. rewrite Hst. apply lookup_insert_is_Some'. by right.
      * intros k. rewrite Hst. destruct (decide (URL_String v = k)) as [<-|Hne].
        -- intros _. exists v. split; [|done]. apply elem_of_app. right. by left.
        -- rewrite lookup_insert_ne by done. intros Hk.
           destruct (Hused k Hk) as (w & Hw & <-). exists w. split; [|done].
           apply elem_of_app. by left.
    + apply use_not_found_same in Hu as Heq. subst us'.
      assert (s' = {| cs_storage := cs_storage s; cs_pc := AtCheck;
                      cs_workers := cs_workers s; cs_acquired := cs_acquired s;
                      cs_spawned := cs_spawned s |}) as ->
        by (destruct u; by injection Hstep as <-).
      by split.
  - injection Hstep as <-. by split.
  - destruct (Z.of_nat (length (cs_workers s)) <? paramax e)%Z; [|discriminate].
    injection Hstep as <-. split; crawl_fields; [done| |done].
    intros w x Hw Hx. apply elem_of_app in Hw as [Hw|Hw].
    + destruct (Hlinks w x Hw Hx) as [Hreg|(f & Hf & Hxf)]; [by left|].
      right. exists f. split; [|done]. apply elem_of_app. by left.
    + apply list_elem_of_singleton in Hw as ->. right.
      exists (harv_adds env (URL_String u)). split; [|done].
      apply elem_of_app. right. by left.
  - discriminate.
Qed.

Opaque add.

Lemma worker_step_closure i s s' :
  crawl_closure env e s → worker_step i s = Some s' → crawl_closure env e s'.
Proof.
  intros [Hseed Hlinks Hused] Hstep. unfold worker_step in Hstep.
  destruct (cs_workers s !! i) as [[|u rest]|] eqn:Hi; [| |discriminate];
    injection Hstep as <-; split; crawl_fields; try done.
  - intros w x Hw Hx. destruct (Hlinks w x Hw Hx) as [Hreg|(f & Hf & Hxf)];
      [by left|].
    right. exists f. split; [|done].
    rewrite <- (take_drop_middle _ _ _ Hi) in Hf. rewrite delete_take_drop.
    apply elem_of_app in Hf as [Hf|Hf]; apply elem_of_app; [by left|].
    apply elem_of_cons in Hf as [->|Hf]; [by apply elem_of_nil in Hxf|by right].
  - intros v Hv. by apply add_status_mono, Hseed.
  - intros w x Hw Hx. destruct (Hlinks w x Hw Hx) as [Hreg|(f & Hf & Hxf)].
    + left. by apply add_status_mono.
    + apply list_elem_of_lookup in Hf as [j Hj].
      destruct (decide (i = j)) as [<-|Hne].
      * assert (f = u :: rest) as -> by congruence.
        apply elem_of_cons in Hxf as [->|Hxf].
        -- left. apply add_status_new.
        -- right. exists rest. split; [|done].
           apply list_elem_of_lookup. exists i.
           apply list_lookup_insert_eq. by eapply lookup_lt_Some.
      * right. exists f. split; [|done]. apply list_elem_of_lookup. exists j.
        by rewrite list_lookup_insert_ne.
  - intros k Hk. apply Hused. by apply add_used_iff in Hk.
Qed.

Transparent add.

Lemma crawl_step_closure a s s' :
  crawl_inv env e s → crawl_closure env e s →
  crawl_step env e a s = Some s' → crawl_closure env e s'.
Proof.
  destruct a; cbn [crawl_step];
    eauto using coordinator_step_closure, worker_step_closure.
Qed.

Lemma drive_step_quiet s :
  crawl_inv env e s → quiet s → cs_pc s ≠ Returned →
  quiet (default s (crawl_step env e (next_actor s) s)).
Proof.
  intros Hinv Hq Hpc. unfold next_actor.
  destruct (cs_workers s) as [|w ws] eqn:Hw; cbn [crawl_step].
  - unfold coordinator_step. destruct (cs_pc s) as [| |u|] eqn:Hp.
    + destruct (use (cs_storage s)) as [[u found] us'] eqn:Hu. destruct found.
      * destruct u as [u|]; cbn [default]; [|done].
        intros [H|H]; crawl_fields; [by destruct (crawlable (url e) u)|].
        by destruct (crawlable (url e) u).
      * pose proof (proj1 (use_not_found _ (ci_wf _ _ _ Hinv))) as Hnone.
        rewrite Hu in Hnone. specialize (Hnone eq_refl).
        apply use_not_found_same in Hu as ->.
        destruct u; cbn [default]; intros _; crawl_fields; by rewrite Hw.
    + cbn [default]. intros _. crawl_fields. rewrite Hw.
      destruct Hq as [_ Hno]; [by left|done].
    + destruct (Z.of_nat (length (cs_workers s)) <? paramax e)%Z;
        cbn [default]; [|done].
      intros [H|H]; discriminate.
    + done.
  - unfold worker_step. rewrite Hw. cbn [lookup list_lookup].
    assert (Hbusy : cs_pc s ≠ AtCheck).
    { intros Hp. destruct Hq as [Hnil _]; [by left|]. congruence. }
    destruct w as [|u rest]; cbn [default]; intros [H|H]; crawl_fields; done.
Qed.

Lemma crawl_drive_closure fuel s :
  crawl_inv env e s → crawl_closure env e s → quiet s →
  let s' := crawl_drive env e fuel s in
  crawl_inv env e s' ∧ crawl_closure env e s' ∧ quiet s'.
Proof.
  revert s. induction fuel as [|n IH]; intros s Hinv Hcl Hq; [done|].
  cbn [crawl_drive].
  destruct (decide (cs_pc s = Returned)) as [Hp|Hp].
  { rewrite Hp. done. }
  assert (Hnext : crawl_drive env e (S n) s
                  = crawl_drive env e n
                      (default s (crawl_step env e (next_actor s) s)))
    by (cbn [crawl_drive]; by destruct (cs_pc s)).
  cbn [crawl_drive] in Hnext. rewrite Hnext. apply IH.
  - destruct (crawl_step env e (next_actor s) s) eqn:E; cbn [default]; [|done].
    by eapply crawl_step_inv.
  - destruct (crawl_step env e (next_actor s) s) eqn:E; cbn [default]; [|done].
    by eapply crawl_step_closure.
  - by apply drive_step_quiet.
Qed.

End CrawlMore.

(** X12. Under every schedule the number of [harv] goroutines in flight
    never exceeds [paramax], the capacity of [guard], nor the number of
    pages handed to workers so far; with [paramax] zero no page beyond the
    start page is ever harvested. *)
Theorem crawl_keeps_at_most_paramax_workers (env : Env) (e : tEngine) (s0 : crawl_state) (sched : list actor) :
  crawl_init env e = Some s0 →
  let s := crawl_run env e sched s0 in
  (Z.of_nat (length (cs_workers s)) ≤ paramax e)%Z
  ∧ length (cs_workers s) ≤ length (cs_spawned s)
  ∧ (paramax e = 0%Z → cs_spawned s = [] ∧ cs_workers s = []).
Proof.
  intros Hinit s.
  assert (Hb0 : workers_bounded e s0).
  { unfold crawl_init in Hinit.
    destruct (Z.ltb_spec (paramax e) 0); [discriminate|].
    injection Hinit as <-. unfold workers_bounded. crawl_fields.
    cbn [length]. split; [lia|]. split; [lia|done]. }
  destruct (crawl_run_bounded env e sched s0 Hb0) as (H1 & H2 & H3).
  fold s in H1, H2, H3. split; [done|]. split; [done|].
  intros Hz. split; [apply H3; lia|].
  rewrite Hz in H1. destruct (cs_workers s); [done|]. cbn [length] in H1. lia.
Qed.

Lemma crawl_keeps_at_most_paramax_workers_witness :
  let s := crawl_run Demo.env Demo.engine Demo.early_return_schedule Demo.start in
  crawl_init Demo.env Demo.engine = Some Demo.start
  ∧ (Z.of_nat (length (cs_workers s)) ≤ paramax Demo.engine)%Z
  ∧ length (cs_workers s) ≤ length (cs_spawned s)
  ∧ (paramax Demo.engine = 0%Z → cs_spawned s = [] ∧ cs_workers s = []).
Proof.
  assert (Hinit : crawl_init Demo.env Demo.engine = Some Demo.start)
    by reflexivity.
  split; [exact Hinit|].
  exact (crawl_keeps_at_most_paramax_workers Demo.env Demo.engine Demo.start
           Demo.early_return_schedule Hinit).
Defined.

Lemma registered_iff us k :
  wf us → k ∈ URL_String <$> getAllUrls us ↔ is_Some (urlStatus us !! k).
Proof.
  intros Hwf. rewrite getAllUrls_keys by done. rewrite (wf_dom _ Hwf). split.
  - intros Hin. apply list_elem_of_fmap in Hin as ([k' v] & -> & Hin).
    apply elem_of_map_to_list in Hin. cbn. eauto.
  - intros [v Hv]. apply list_elem_of_fmap. exists (k, v). split; [done|].
    by apply elem_of_map_to_list.
Qed.

(** X13. [crawl] with its goroutines scheduled one at a time (a worker runs
    to its end before the coordinator moves) returns, and whenever it
    returns the registry is a fixed point of link following: the links of
    the start page are registered, the links of every registered page
    with scheme http or https on the start host are registered, every
    registered URL is reachable from the start page, and every entry has
    been used, so the queue is empty. *)
Theorem crawl_sequential_fixed_point (env : Env) (opts : tOpts) (e : tEngine) (U : list string) :
  newEngine env opts = EngineOk e →
  (0 < paramax e)%Z →
  NoDup U →
  (∀ v, reachable env e v → URL_String v ∈ U) →
  (∃ s0 e1, crawl_init env e = Some s0
            ∧ crawl env e (2 * crawl_measure env U s0) = Some e1)
  ∧ ∀ fuel e1, crawl env e fuel = Some e1 →
      let us := urlStorage e1 in
      (∀ v, v ∈ harv_adds env (URL_String (url e)) →
            URL_String v ∈ URL_String <$> getAllUrls us)
      ∧ (∀ w v, w ∈ getAllUrls us → crawlable (url e) w = true →
                v ∈ harv_adds env (URL_String w) →
                URL_String v ∈ URL_String <$> getAllUrls us)
      ∧ (∀ v, v ∈ getAllUrls us → reachable env e v)
      ∧ queue us = []
      ∧ (count us).1 = (count us).2.
Proof.
  intros Hnew Hpar Hnd Hcov.
  destruct (newEngine_fresh env opts e Hnew) as (Hus & _).
  assert (Hinit : ∃ s0, crawl_init env e = Some s0).
  { unfold crawl_init. destruct (Z.ltb_spec (paramax e) 0); [lia|eauto]. }
  destruct Hinit as [s0 Hinit].
  pose proof (crawl_init_inv env e s0 Hus Hinit) as Hinv0.
  destruct (crawl_init_closure env e s0 Hus Hinit) as [Hcl0 Hq0].
  split.
  - exists s0.
    pose proof (crawl_drive_terminates env e U Hnd Hcov (crawl_measure env U s0)
                  s0 Hpar Hinv0 (le_n _)) as Hret.
    unfold crawl. rewrite Hinit. cbn zeta. rewrite Hret. eauto.
  - intros fuel e1 Hcrawl. unfold crawl in Hcrawl. rewrite Hinit in Hcrawl.
    cbn zeta in Hcrawl.
    destruct (crawl_drive_closure env e fuel s0 Hinv0 Hcl0 Hq0)
      as (Hinv & Hcl & Hq).
    set (s := crawl_drive env e fuel s0) in *.
    destruct (cs_pc s) eqn:Hpc; try discriminate. injection Hcrawl as <-.
    cbn [urlStorage]. destruct Hq as [Hnil Hno]; [by right|].
    pose proof (ci_wf _ _ _ Hinv) as Hwf.
    assert (Hall : ∀ k b, urlStatus (cs_storage s) !! k = Some b → b = true).
    { intros k [|] Hk; [done|]. by destruct (Hno k). }
    split; [|split; [|split; [|split]]].
    + intros v Hv. apply registered_iff; [done|]. by apply (cc_seed _ _ _ Hcl).
    + intros w v Hw Hc Hv. apply registered_iff; [done|].
      apply elem_of_getAllUrls in Hw as [k Hk].
      pose proof (wf_key _ Hwf _ _ Hk) as Hkey. subst k.
      destruct (proj2 (wf_dom _ Hwf (URL_String w))) as [b Hb]; [eauto|].
      pose proof (Hall _ _ Hb) as ->.
      destruct (cc_used _ _ _ Hcl _ Hb) as (w' & Hacq & Heq).
      destruct (ci_acq _ _ _ Hinv w' Hacq) as [_ Hobj].
      rewrite Heq, Hk in Hobj. injection Hobj as <-.
      assert (Hsp : w ∈ cs_spawned s).
      { pose proof (ci_spawned _ _ _ Hinv) as Hsp. rewrite Hpc, app_nil_r in Hsp.
        rewrite Hsp. by apply list_elem_of_filter. }
      destruct (cc_links _ _ _ Hcl w v Hsp Hv) as [Hreg|(f & Hf & _)]; [done|].
      rewrite Hnil in Hf. by apply elem_of_nil in Hf.
    + intros v Hv. apply elem_of_getAllUrls in Hv as [k Hk].
      by apply (ci_reach _ _ _ Hinv k).
    + destruct (queue (cs_storage s)) as [|k q] eqn:Hqu; [done|].
      destruct (Hno k). apply (wf_queue _ Hwf). rewrite Hqu. by left.
    + unfold count. cbn [fst snd]. f_equal. symmetry. apply map_filter_id.
      intros k b Hk. cbn. by apply (Hall k).
Qed.

Lemma crawl_sequential_fixed_point_witness :
  newEngine Demo.env Demo.opts = EngineOk Demo.engine
  ∧ (0 < paramax Demo.engine)%Z
  ∧ NoDup Demo.universe
  ∧ (∀ v, reachable Demo.env Demo.engine v → URL_String v ∈ Demo.universe)
  ∧ (∃ s0 e1, crawl_init Demo.env Demo.engine = Some s0
              ∧ crawl Demo.env Demo.engine
                  (2 * crawl_measure Demo.env Demo.universe s0) = Some e1)
  ∧ ∀ fuel e1, crawl Demo.env Demo.engine fuel = Some e1 →
      let us := urlStorage e1 in
      (∀ v, v ∈ harv_adds Demo.env (URL_String (url Demo.engine)) →
            URL_String v ∈ URL_String <$> getAllUrls us)
      ∧ (∀ w v, w ∈ getAllUrls us → crawlable (url Demo.engine) w = true →
                v ∈ harv_adds Demo.env (URL_String w) →
                URL_String v ∈ URL_String <$> getAllUrls us)
      ∧ (∀ v, v ∈ getAllUrls us → reachable Demo.env Demo.engine v)
      ∧ queue us = []
      ∧ (count us).1 = (count us).2.
Proof.
  assert (H1 : newEngine Demo.env Demo.opts = EngineOk Demo.engine) by reflexivity.
  assert (H2 : (0 < paramax Demo.engine)%Z) by (simpl; lia).
  assert (H3 : NoDup Demo.universe)
    by (apply (bool_decide_unpack _); vm_compute; exact I).
  split; [exact H1|]. split; [exact H2|]. split; [exact H3|].
  split; [exact demo_reachable_universe|].
  exact (crawl_sequential_fixed_point Demo.env Demo.opts Demo.engine
           Demo.universe H1 H2 H3 demo_reachable_universe).
Defined.

Lemma analyser_result_independent_of_order_witness :
  let e := Demo.crawled in
  let order1 := getAllUrls (urlStorage e) in
  let order2 := reverse order1 in
  let fs2 := {| fs_files := [mkTmp 3 5 "left over"]; fs_next := 7;
                fs_can_create := true |} in
  forallb Is (docTypes e) = true
  ∧ (0 < paramax e)%Z
  ∧ NoDup (URL_String <$> order1)
  ∧ order1 ≡ₚ order2
  ∧ fs_ok Demo.fs0 ∧ fs_ok fs2
  ∧ fs_can_create Demo.fs0 = fs_can_create fs2
  ∧ ∃ e' fs1' fs2' calls1 calls2,
      analyser Demo.env e order1 Demo.fs0 = Finished (e', fs1', calls1, None)
      ∧ analyser Demo.env e order2 fs2 = Finished (e', fs2', calls2, None)
      ∧ calls1 ≡ₚ calls2.
Proof.
  assert (H1 : forallb Is (docTypes Demo.crawled) = true) by reflexivity.
  assert (H2 : (0 < paramax Demo.crawled)%Z) by (simpl; lia).
  assert (H3 : NoDup (URL_String <$> getAllUrls (urlStorage Demo.crawled)))
    by (apply (bool_decide_unpack _); vm_compute; exact I).
  assert (H4 : getAllUrls (urlStorage Demo.crawled)
               ≡ₚ reverse (getAllUrls (urlStorage Demo.crawled)))
    by (symmetry; apply reverse_Permutation).
  assert (H5 : fs_ok {| fs_files := [mkTmp 3 5 "left over"]; fs_next := 7;
                        fs_can_create := true |})
    by (apply Forall_singleton; cbn; lia).
  split; [exact H1|]. split; [exact H2|]. split; [exact H3|].
  split; [exact H4|]. split; [exact fs_ok_demo|]. split; [exact H5|].
  split; [reflexivity|].
  exact (analyser_result_independent_of_order Demo.env Demo.crawled _ _
           Demo.fs0 _ H1 H2 H3 H4 fs_ok_demo H5 eq_refl).
Defined.

(** ** engine.go: [run], [newEngine]; main.go *)




Lemma Is_typeChoices t : Is t = true ↔ t ∈ typeChoices.
Proof.
  rewrite Is_registered. unfold typeChoices.
  rewrite !elem_of_cons, elem_of_nil. tauto.
Qed.

Lemma forallb_Is_true (l : list string) :
  forallb Is l = true ↔ ∀ t, t ∈ l → t ∈ typeChoices.
Proof.
  induction l as [|x l IH]; cbn [forallb].
  - split; [by intros _ ? ?%elem_of_nil|done].
  - rewrite andb_true_iff, IH, Is_typeChoices. split.
    + intros [Hx Hl] t Ht. apply elem_of_cons in Ht as [->|Ht]; eauto.
    + intros H. split; [apply H; by left|]. intros t Ht. apply H. by right.
Qed.

Lemma forallb_Is_false (l : list string) :
  forallb Is l = false → ∃ t, t ∈ l ∧ t ∉ typeChoices.
Proof.
  induction l as [|x l IH]; cbn [forallb]; [discriminate|].
  destruct (Is x) eqn:Hx; cbn [andb].
  - intros H. destruct (IH H) as (t & Ht & Hn). exists t. split; [by right|done].
  - intros _. exists x. split; [by left|]. rewrite <- Is_typeChoices. congruence.
Qed.

(** X15. [newEngine] checks the types first and the site second, and never
    [paramax]: it returns nil with the format error exactly when some
    requested type is not one of pdf, docx, xlsx, pptx, whatever the site
    is; otherwise an engine without URL and the URL error when the site
    does not parse; otherwise an engine with a new registry, an empty result
    store and the options copied.  A negative [paramax] passes and makes
    [crawl] panic when it creates [guard]. *)
Theorem newEngine_checks_types_then_site (env : Env) (opts : tOpts) :
  match newEngine env opts with
  | EngineNil err =>
      err = ErrUnknownFormat ∧ ∃ t, t ∈ opt_Type opts ∧ t ∉ typeChoices
  | EngineNoUrl err =>
      err = ErrInvalidURL
      ∧ (∀ t, t ∈ opt_Type opts → t ∈ typeChoices)
      ∧ url_ParseRequestURI env (opt_Site opts) = None
  | EngineOk e =>
      (∀ t, t ∈ opt_Type opts → t ∈ typeChoices)
      ∧ url_ParseRequestURI env (opt_Site opts) = Some (url e)
      ∧ urlStorage e = newUrlStorage ∧ docStorage e = ∅
      ∧ docTypes e = opt_Type opts
      ∧ outputFileName e = opt_Output opts
      ∧ paramax e = opt_Paramax opts
      ∧ (crawl_init env e = None ↔ (opt_Paramax opts < 0)%Z)
      ∧ (∀ order fs, analyser env e order fs = Panicked
                     ↔ (opt_Paramax opts < 0)%Z)
  end.
Proof.
  unfold newEngine. destruct (forallb Is (opt_Type opts)) eqn:Hty.
  - pose proof (proj1 (forallb_Is_true _) Hty) as Hall.
    destruct (url_ParseRequestURI env (opt_Site opts)) as [u|]; [|done].
    repeat (split; [done|]). split.
    + unfold crawl_init. cbn [paramax].
      destruct (Z.ltb_spec (opt_Paramax opts) 0); [done|]. split; [done|lia].
    + intros order fs. unfold analyser. cbn [paramax docTypes docStorage].
      destruct (Z.ltb_spec (opt_Paramax opts) 0); [done|].
      split; [|lia]. destruct (_ && _); [done|].
      destruct (analyse_all_total env (opt_Type opts) order
                  (mkAnalysis ∅ fs []) Hty) as [a ->]. done.
  - split; [done|]. by apply forallb_Is_false.
Qed.

(** X16. The types [main] passes to [newEngine]: when the command line
    names none, all four choices, pdf first; otherwise the ones named.
    Every choice the option accepts has a researcher, so for parsed options
    [newEngine] never returns the format error and fails only on the
    site. *)
Theorem main_types_are_registered (env : Env) (opts : tOpts) :
  Forall (λ t, t ∈ typeChoices) (opt_Type opts) →
  let opts' := default_types opts in
  forallb Is (opt_Type opts') = true
  ∧ opt_Type opts' ≠ []
  ∧ (opt_Type opts = [] → opt_Type opts' = typeChoices)
  ∧ (opt_Type opts ≠ [] → opts' = opts)
  ∧ (∀ err, newEngine env opts' ≠ EngineNil err)
  ∧ ((∃ e, newEngine env opts' = EngineOk e)
     ↔ is_Some (url_ParseRequestURI env (opt_Site opts))).
Proof.
  intros Hparsed opts'.
  assert (Hreg : forallb Is (opt_Type opts') = true).
  { unfold opts', default_types. destruct (opt_Type opts) as [|t ts] eqn:E;
      cbn [length Nat.eqb opt_Type]; [reflexivity|].
    rewrite E. apply forallb_Is_true. intros x Hx.
    by apply (proj1 (Forall_forall _ _) Hparsed). }
  assert (Hsite : opt_Site opts' = opt_Site opts).
  { unfold opts', default_types. by destruct (length (opt_Type opts) =? 0). }
  split; [done|]. split; [|split; [|split; [|split]]].
  - unfold opts', default_types. destruct (opt_Type opts) as [|t ts] eqn:E;
      cbn [length Nat.eqb opt_Type]; [done|]. by rewrite E.
  - intros E. unfold opts', default_types. by rewrite E.
  - intros E. unfold opts', default_types.
    destruct (opt_Type opts); [done|done].
  - intros err. unfold newEngine. rewrite Hreg.
    by destruct (url_ParseRequestURI env (opt_Site opts')).
  - unfold newEngine. rewrite Hreg, Hsite.
    destruct (url_ParseRequestURI env (opt_Site opts)) as [u|].
    + split; [eauto|]. intros _. eauto.
    + split; [by intros [? ?]|by intros [? ?]].
Qed.

Lemma main_types_are_registered_witness :
  let opts := {| opt_Site := "http://h/"; opt_Type := ["docx"];
                 opt_Output := "out.json"; opt_Paramax := 100 |} in
  let opts' := default_types opts in
  Forall (λ t, t ∈ typeChoices) (opt_Type opts)
  ∧ forallb Is (opt_Type opts') = true
  ∧ opt_Type opts' ≠ []
  ∧ (opt_Type opts = [] → opt_Type opts' = typeChoices)
  ∧ (opt_Type opts ≠ [] → opts' = opts)
  ∧ (∀ err, newEngine Demo.env opts' ≠ EngineNil err)
  ∧ ((∃ e, newEngine Demo.env opts' = EngineOk e)
     ↔ is_Some (url_ParseRequestURI Demo.env (opt_Site opts))).
Proof.
  assert (H : Forall (λ t, t ∈ typeChoices) ["docx"])
    by (apply (bool_decide_unpack _); vm_compute; exact I).
  split; [exact H|].
  exact (main_types_are_registered Demo.env
           {| opt_Site := "http://h/"; opt_Type := ["docx"];
              opt_Output := "out.json"; opt_Paramax := 100 |} H).
Defined.

(** ** engine.go: [output] and the crawl registry *)

Lemma recorded_pairs (docs : gmap string Researcher) (urls : list URL) :
  NoDup (URL_String <$> urls) →
  let l := omap (λ u, (λ r, (URL_String u, r)) <$> docs !! URL_String u) urls in
  l.*2 = recorded docs urls
  ∧ (∀ k r, (k, r) ∈ l ↔ docs !! k = Some r ∧ k ∈ URL_String <$> urls)
  ∧ NoDup l.
Proof.
  induction urls as [|u urls IH]; intros Hnd; cbn zeta.
  - split; [done|]. split; [|constructor].
    intros k r. split; [by intros ?%elem_of_nil|by intros [_ ?%elem_of_nil]].
  - csimpl in Hnd. apply NoDup_cons in Hnd as [Hu Hnd].
    destruct (IH Hnd) as (Hval & Hmem & Hnodup). cbn zeta in Hval, Hmem, Hnodup.
    unfold recorded in *. cbn [omap list_omap].
    destruct (docs !! URL_String u) as [r0|] eqn:Hdoc; csimpl.
    + split; [by rewrite Hval|]. split.
      * intros k r. rewrite elem_of_cons, Hmem, elem_of_cons. split.
        -- intros [[= -> ->]|[? ?]]; [by split; [|left]|by split; [|right]].
        -- intros [Hk [->|Hin]]; [left; congruence|by right].
      * apply NoDup_cons. split; [|done].
        intros Hin. apply Hmem in Hin as [_ Hin]. done.
    + split; [done|]. split; [|done].
      intros k r. rewrite Hmem, elem_of_cons. split.
      * intros [? ?]. by split; [|right].
      * intros [Hk [->|Hin]]; [congruence|done].
Qed.

(** X17. [output] writes every stored result exactly once: when the
    registry enumerates distinct canonical strings and every key of the
    result store is among them, the elements of the array are the JSON
    forms of the stored results, each once, in the order of the
    enumeration; so their number is the size of the store. *)
Theorem output_writes_each_result_once (env : Env) (e : tEngine) (urls : list URL) :
  NoDup (URL_String <$> urls) →
  (∀ k, is_Some (docStorage e !! k) → k ∈ URL_String <$> urls) →
  let elems := OutJSON env <$> recorded (docStorage e) urls in
  recorded (docStorage e) urls ≡ₚ (map_to_list (docStorage e)).*2
  ∧ length elems = size (docStorage e)
  ∧ (outputFileName e = "" →
     output env e urls = inr (Stdout, "[" +:+ Join elems "," +:+ "]")).
Proof.
  intros Hnd Hsub elems.
  destruct (recorded_pairs (docStorage e) urls Hnd) as (Hval & Hmem & Hnodup).
  cbn zeta in Hval, Hmem, Hnodup.
  assert (Hperm : recorded (docStorage e) urls ≡ₚ (map_to_list (docStorage e)).*2).
  { rewrite <- Hval. apply fmap_Permutation. apply NoDup_Permutation.
    - done.
    - apply NoDup_map_to_list.
    - intros [k r]. rewrite Hmem, elem_of_map_to_list. split; [by intros [? _]|].
      intros Hk. split; [done|]. apply Hsub. eauto. }
  split; [done|]. split.
  - unfold elems. rewrite length_fmap, Hperm, length_fmap.
    apply length_map_to_list.
  - intros Hnone. unfold output. rewrite Hnone. cbn [String.eqb].
    rewrite output_loop_spec. fold elems. by rewrite str_app_assoc.
Qed.

Lemma output_writes_each_result_once_witness :
  let docs : gmap string Researcher :=
    {[ "http://h/doc.pdf" := RPdf (pdf_begin newPdf "http://h/doc.pdf") ]} in
  let e := {| url := Demo.root; urlStorage := urlStorage Demo.crawled;
              docStorage := docs; docTypes := ["pdf"]; outputFileName := "";
              paramax := 2 |} in
  let urls := getAllUrls (urlStorage e) in
  let elems := OutJSON Demo.env <$> recorded (docStorage e) urls in
  NoDup (URL_String <$> urls)
  ∧ (∀ k, is_Some (docStorage e !! k) → k ∈ URL_String <$> urls)
  ∧ recorded (docStorage e) urls ≡ₚ (map_to_list (docStorage e)).*2
  ∧ length elems = size (docStorage e)
  ∧ (outputFileName e = "" →
     output Demo.env e urls
     = inr (Stdout, "[" +:+ Join elems "," +:+ "]")).
Proof.
  set (docs := ({[ "http://h/doc.pdf" := RPdf (pdf_begin newPdf "http://h/doc.pdf") ]}
                : gmap string Researcher)).
  set (e := {| url := Demo.root; urlStorage := urlStorage Demo.crawled;
               docStorage := docs; docTypes := ["pdf"]; outputFileName := "";
               paramax := 2 |}).
  assert (H1 : NoDup (URL_String <$> getAllUrls (urlStorage e)))
    by (apply (bool_decide_unpack _); vm_compute; exact I).
  assert (H2 : ∀ k, is_Some (docStorage e !! k) →
                    k ∈ URL_String <$> getAllUrls (urlStorage e)).
  { intros k [r Hk]. cbn [docStorage e] in Hk. unfold docs in Hk.
    apply lookup_singleton_Some in Hk as [<- _].
    apply (bool_decide_unpack _). vm_compute. exact I. }
  split; [exact H1|]. split; [exact H2|].
  exact (output_writes_each_result_once Demo.env e _ H1 H2).
Defined.

(** X18. Under every schedule the crawl registers only URLs reachable by
    links from the start page: every registered URL is a link of the start
    page or of a reachable page with scheme http or https on the start
    host.  The start URL is registered only if some such page links to it.
    Every page handed to a worker is registered and marked used. *)
Theorem crawl_registers_only_linked_urls (env : Env) (opts : tOpts) (e : tEngine) (s0 : crawl_state) (sched : list actor) :
  newEngine env opts = EngineOk e →
  crawl_init env e = Some s0 →
  let s := crawl_run env e sched s0 in
  (∀ v, v ∈ getAllUrls (cs_storage s) →
        v ∈ harv_adds env (URL_String (url e))
        ∨ ∃ w, reachable env e w ∧ crawlable (url e) w = true
               ∧ v ∈ harv_adds env (URL_String w))
  ∧ (url e ∈ getAllUrls (cs_storage s) → reachable env e (url e))
  ∧ (∀ v, v ∈ cs_spawned s → check (Some v) (cs_storage s) = (true, true)
                             ∧ v ∈ getAllUrls (cs_storage s)).
Proof.
  intros Hnew Hinit s.
  destruct (newEngine_fresh env opts e Hnew) as (Hus & _).
  pose proof (crawl_init_inv env e s0 Hus Hinit) as Hinv0.
  pose proof (crawl_run_inv env e sched s0 Hinv0) as Hinv. fold s in Hinv.
  assert (Hreach : ∀ v, v ∈ getAllUrls (cs_storage s) → reachable env e v).
  { intros v Hv. apply elem_of_getAllUrls in Hv as [k Hk].
    by apply (ci_reach _ _ _ Hinv k). }
  split; [|split].
  - intros v Hv. destruct (Hreach v Hv) as [v Hseed|w v Hw Hc Hlink];
      [by left|right; eauto].
  - apply Hreach.
  - intros v Hv.
    assert (Hacq : v ∈ cs_acquired s).
    { pose proof (ci_spawned _ _ _ Hinv) as Hsp.
      assert (Hin : v ∈ filter (λ v, crawlable (url e) v = true) (cs_acquired s))
        by (rewrite <- Hsp; apply elem_of_app; by left).
      by apply list_elem_of_filter in Hin as [_ ?]. }
    destruct (ci_acq _ _ _ Hinv v Hacq) as [Hst Hob]. split.
    + unfold check. by rewrite Hst.
    + apply elem_of_getAllUrls. eauto.
Qed.

Lemma crawl_registers_only_linked_urls_witness :
  let s := crawl_run Demo.env Demo.engine Demo.early_return_schedule Demo.start in
  newEngine Demo.env Demo.opts = EngineOk Demo.engine
  ∧ crawl_init Demo.env Demo.engine = Some Demo.start
  ∧ (∀ v, v ∈ getAllUrls (cs_storage s) →
          v ∈ harv_adds Demo.env (URL_String (url Demo.engine))
          ∨ ∃ w, reachable Demo.env Demo.engine w
                 ∧ crawlable (url Demo.engine) w = true
                 ∧ v ∈ harv_adds Demo.env (URL_String w))
  ∧ (url Demo.engine ∈ getAllUrls (cs_storage s) →
     reachable Demo.env Demo.engine (url Demo.engine))
  ∧ (∀ v, v ∈ cs_spawned s → check (Some v) (cs_storage s) = (true, true)
                               ∧ v ∈ getAllUrls (cs_storage s)).
Proof.
  assert (H1 : newEngine Demo.env Demo.opts = EngineOk Demo.engine) by reflexivity.
  assert (H2 : crawl_init Demo.env Demo.engine = Some Demo.start) by reflexivity.
  split; [exact H1|]. split; [exact H2|].
  exact (crawl_registers_only_linked_urls Demo.env Demo.opts Demo.engine
           Demo.start Demo.early_return_schedule H1 H2).
Defined.

Lemma crawl_result_closure env e fuel e1 :
  urlStorage e = newUrlStorage → crawl env e fuel = Some e1 →
  ∃ s, e1 = {| url := url e; urlStorage := cs_storage s;
               docStorage := docStorage e; docTypes := docTypes e;
               outputFileName := outputFileName e; paramax := paramax e |}
       ∧ crawl_inv env e s ∧ crawl_closure env e s
       ∧ cs_workers s = [] ∧ ∀ k, ¬ unused (cs_storage s) k.
Proof.
  intros Hus Hcrawl. unfold crawl in Hcrawl.
  destruct (crawl_init env e) as [s0|] eqn:Hinit; [|discriminate].
  cbn zeta in Hcrawl.
  pose proof (crawl_init_inv env e s0 Hus Hinit) as Hinv0.
  destruct (crawl_init_closure env e s0 Hus Hinit) as [Hcl0 Hq0].
  destruct (crawl_drive_closure env e fuel s0 Hinv0 Hcl0 Hq0)
    as (Hinv & Hcl & Hq).
  destruct (cs_pc (crawl_drive env e fuel s0)) eqn:Hpc; try discriminate.
  injection Hcrawl as <-. destruct Hq as [Hnil Hno]; [by right|].
  by exists (crawl_drive env e fuel s0).
Qed.

(** X19. With [paramax] zero [run] comes to an end only when the start page
    yields no link at all: then the crawl returns at once and the output
    is the empty array.  When the start page has a resolvable link, [run]
    does not finish, whatever the fuel: a send on [guard], whose capacity
    is zero, never completes. *)
Theorem zero_paramax_finishes_only_without_links (env : Env) (opts : tOpts) (e : tEngine) (fs : FS) :
  newEngine env opts = EngineOk e →
  paramax e = 0%Z →
  (∀ fuel out, run env e fuel fs = Finished out →
               harv_adds env (URL_String (url e)) = []
               ∧ out = output env e [])
  ∧ (harv_adds env (URL_String (url e)) = [] →
     ∀ fuel, 2 ≤ fuel → run env e fuel fs = Finished (output env e [])).
Proof.
  intros Hnew Hzero.
  destruct (newEngine_fresh env opts e Hnew) as (Hus & Hdocs & _ & _).
  split.
  - intros fuel out Hrun. unfold run in Hrun.
    destruct (crawl env e fuel) as [e1|] eqn:Hcrawl; [|discriminate].
    destruct (crawl_result_closure env e fuel e1 Hus Hcrawl)
      as (s & -> & Hinv & Hcl & _ & _).
    unfold analyser in Hrun.
    cbn [paramax urlStorage docTypes docStorage url outputFileName] in Hrun.
    rewrite Hzero in Hrun. cbn [Z.ltb Z.eqb Z.compare andb] in Hrun.
    destruct (getAllUrls (cs_storage s)) as [|u urls] eqn:Hurls.
    + rewrite bool_decide_eq_true_2 in Hrun by done.
      cbn [negb analyse_all an_docs an_fs an_calls urlStorage] in Hrun.
      rewrite Hurls in Hrun. injection Hrun as <-. split; [|done].
      destruct (harv_adds env (URL_String (url e))) as [|v l] eqn:Hadds; [done|].
      assert (Hv : URL_String v ∈ URL_String <$> getAllUrls (cs_storage s)).
      { apply registered_iff; [apply (ci_wf _ _ _ Hinv)|].
        apply (cc_seed _ _ _ Hcl). rewrite Hadds. by left. }
      rewrite Hurls in Hv. by apply elem_of_nil in Hv.
    + rewrite bool_decide_eq_false_2 in Hrun by done. discriminate.
  - intros Hnone fuel Hfuel.
    destruct fuel as [|[|n]]; [lia|lia|].
    assert (Hcrawl : crawl env e (S (S n))
                     = Some {| url := url e; urlStorage := newUrlStorage;
                               docStorage := docStorage e; docTypes := docTypes e;
                               outputFileName := outputFileName e;
                               paramax := paramax e |}).
    { unfold crawl, crawl_init, harv. rewrite Hzero, Hnone, Hus.
      cbn [Z.ltb Z.compare foldl]. cbn zeta.
      cbn [crawl_drive cs_pc next_actor cs_workers crawl_step coordinator_step
           default cs_storage].
      change (use newUrlStorage) with (@None URL, false, newUrlStorage).
      cbn [crawl_drive cs_pc next_actor cs_workers crawl_step coordinator_step
           default cs_storage cs_acquired cs_spawned].
      rewrite crawl_drive_returned by done. done. }
    unfold run. rewrite Hcrawl. unfold analyser.
    cbn [paramax urlStorage docTypes docStorage url outputFileName].
    rewrite Hzero. cbn [Z.ltb Z.eqb Z.compare andb].
    change (getAllUrls newUrlStorage) with (@nil URL).
    rewrite bool_decide_eq_true_2 by done. cbn [negb analyse_all]. done.
Qed.

Lemma zero_paramax_finishes_only_without_links_witness :
  let opts := {| opt_Site := "http://other/x.pdf"; opt_Type := ["pdf"];
                 opt_Output := ""; opt_Paramax := 0 |} in
  let e := {| url := Demo.big_pdf; urlStorage := newUrlStorage; docStorage := ∅;
              docTypes := ["pdf"]; outputFileName := ""; paramax := 0 |} in
  newEngine Demo.env opts = EngineOk e
  ∧ paramax e = 0%Z
  ∧ (∀ fuel out, run Demo.env e fuel Demo.fs0 = Finished out →
                 harv_adds Demo.env (URL_String (url e)) = []
                 ∧ out = output Demo.env e [])
  ∧ (harv_adds Demo.env (URL_String (url e)) = [] →
     ∀ fuel, 2 ≤ fuel →
             run Demo.env e fuel Demo.fs0 = Finished (output Demo.env e [])).
Proof.
  set (opts := {| opt_Site := "http://other/x.pdf"; opt_Type := ["pdf"];
                  opt_Output := ""; opt_Paramax := 0 |}).
  set (e := {| url := Demo.big_pdf; urlStorage := newUrlStorage; docStorage := ∅;
               docTypes := ["pdf"]; outputFileName := ""; paramax := 0 |}).
  assert (H1 : newEngine Demo.env opts = EngineOk e) by reflexivity.
  assert (H2 : paramax e = 0%Z) by reflexivity.
  split; [exact H1|]. split; [exact H2|].
  exact (zero_paramax_finishes_only_without_links Demo.env opts e Demo.fs0 H1 H2).
Defined.

Example zero_paramax_empty_site :
  run Demo.env
    {| url := Demo.big_pdf; urlStorage := newUrlStorage; docStorage := ∅;
       docTypes := ["pdf"]; outputFileName := ""; paramax := 0 |} 2 Demo.fs0
  = Finished (inr (Stdout, "[]")).
Proof. vm_compute. reflexivity. Qed.
